(** * EternalTerminal iOS bridge: [et_client_main]

    A shallow embedding of [src/terminal/et_ios_bridge.cpp].  The bridge is
    one C function that talks to three collaborators: the transport
    ([ClientConnection]), the operating system ([select], [read], [write],
    [time]) and the host that owns the [winsize] structure.  None of them is
    part of the file, so every call into them is an _event_: the function is
    run against a script of answers and leaves a trace of the calls it made,
    each paired with the answer it got.

    Layout: the data model, the effect monad, the external calls, then the
    function itself block by block (handshake, tick, main loop, entry
    point), then the theorems. *)

From Stdlib Require Import ZArith List Bool Lia.
From Stdlib.Strings Require Import String Byte.
Import ListNotations.
Open Scope Z_scope.

(** ** Data model *)

Definition bytes := list byte.

(** Modelled from the spec: the packet-type enumerators of [ETerminal.pb.h]
    ([EtPacketType], [TerminalPacketType]), which is not among the sources.
    The spec names the message kinds initial-negotiation, initial-response,
    terminal-data, keepalive and geometry-change; [OtherType] stands for
    every header byte none of these enumerators has.  The enumerators of the
    two enumerations are taken to be distinct header bytes; the function
    compares a header with enumerators of one enumeration at a time. *)
Inductive PacketType : Type :=
| INITIAL_PAYLOAD
| INITIAL_RESPONSE
| TERMINAL_BUFFER
| KEEP_ALIVE
| TERMINAL_INFO
| OtherType (code : Z).

Definition PacketType_eqb (a b : PacketType) : bool :=
  match a, b with
  | INITIAL_PAYLOAD, INITIAL_PAYLOAD
  | INITIAL_RESPONSE, INITIAL_RESPONSE
  | TERMINAL_BUFFER, TERMINAL_BUFFER
  | KEEP_ALIVE, KEEP_ALIVE
  | TERMINAL_INFO, TERMINAL_INFO => true
  | OtherType x, OtherType y => x =? y
  | _, _ => false
  end.

Record Packet : Type := mkPacket { getHeader : PacketType; getPayload : bytes }.

Record InitialPayload : Type := { jumphost : bool }.
Record InitialResponse : Type := { has_error : bool }.
Record TerminalBuffer : Type := { buffer : bytes }.
Record TerminalInfo : Type :=
  mkTerminalInfo { row : Z; column : Z; width : Z; height : Z }.

(** Modelled from the spec: the generated class [TerminalInfo] is absent; a
    default-constructed message reads zero in each of its four fields (the
    spec, section 9, calls it the zero-valued geometry sentinel). *)
Definition TerminalInfo_default : TerminalInfo := mkTerminalInfo 0 0 0 0.

(** [struct winsize]: four [unsigned short] fields. *)
Record winsize : Type :=
  mkWinsize { ws_row : Z; ws_col : Z; ws_xpixel : Z; ws_ypixel : Z }.

(** A [FILE*] is used only through [fileno]; the [winsize*] only to read the
    host's current geometry.  [None] is the null pointer. *)
Record FILE : Type := mkFILE { fileno : Z }.
Record winsize_ptr : Type := mkWinsizePtr { ws_addr : Z }.

(** C++ exceptions, as far as the two handlers of the function tell them
    apart: [catch (const std::runtime_error &)] and [catch (...)]. *)
Inductive exn : Type := RuntimeError | OtherException.

(** The message codec ([protoToString], [stringToProto<T>] of [Headers.hpp]),
    taken as a parameter.  Decoding may throw. *)
Class Codec : Type := {
  protoToString_InitialPayload : InitialPayload -> bytes;
  protoToString_TerminalBuffer : TerminalBuffer -> bytes;
  protoToString_TerminalInfo : TerminalInfo -> bytes;
  stringToProto_InitialResponse : bytes -> exn + InitialResponse;
  stringToProto_TerminalBuffer : bytes -> exn + TerminalBuffer
}.

(** ** Events: calls and their answers *)

Inductive Call : Type :=
| CDisableAbortOnFatal                       (* el::Loggers::addFlag *)
| CNewConnection (host : string) (port : Z) (id passkey : string)
| CConnect                                   (* connection->connect() *)
| CWritePacket (p : Packet)                  (* connection->writePacket *)
| CGetSocketFd                               (* connection->getSocketFd() *)
| CSleep (secs : Z)                          (* std::this_thread::sleep_for *)
| CSelect (nfds : Z) (rfds : list Z) (tv_sec tv_usec : Z)
| CReadPacket                                (* connection->readPacket *)
| CIsShuttingDown                            (* connection->isShuttingDown() *)
| CSysRead (fd : Z) (count : Z)              (* ::read *)
| CHasData                                   (* connection->hasData() *)
| CRead                                      (* connection->read *)
| CSysWrite (fd : Z) (buf : bytes) (count : Z) (* ::write *)
| CTime                                      (* time(NULL) *)
| CCloseSocketAndMaybeReconnect
| CShutdown                                  (* connection->shutdown() *)
| CWinsize (ws : winsize_ptr).               (* the four fields of *ws *)

Inductive Resp : Type :=
| RUnit
| RBool (b : bool)
| RInt (z : Z)
| RReady (fds : list Z)                      (* the read set after select *)
| RData (rc : Z) (buf : bytes)               (* ::read: result and buffer *)
| RPacket (p : option Packet)                (* false, or true and a packet *)
| RWinsize (w : winsize)
| RThrow (e : exn).

Definition Event : Type := (Call * Resp)%type.

(** ** The effect monad

    A world is the script of answers still to come and the trace so far.
    A computation ends with a value, with a C++ exception in flight, or
    [Stuck]: the script has no (or no fitting) answer for the next call.
    [Stuck] is not an outcome of the program, it says the script describes
    no longer run.  The loops carry fuel to make their recursion structural;
    the fuel they are given never runs out before the script does (see the
    last section). *)

Record World : Type := mkWorld { script : list Resp; trace : list Event }.

Inductive outcome (A : Type) : Type :=
| Val (a : A)
| Exc (e : exn)
| Stuck.
Arguments Val {A} a.
Arguments Exc {A} e.
Arguments Stuck {A}.

Definition M (A : Type) : Type := World -> outcome A * World.

Definition ret {A} (a : A) : M A := fun w => (Val a, w).
Definition throw {A} (e : exn) : M A := fun w => (Exc e, w).
Definition stuck {A} : M A := fun w => (Stuck, w).

Definition bind {A B} (m : M A) (f : A -> M B) : M B :=
  fun w =>
    match m w with
    | (Val a, w') => f a w'
    | (Exc e, w') => (Exc e, w')
    | (Stuck, w') => (Stuck, w')
    end.

Declare Scope et_scope.
Delimit Scope et_scope with et.
Notation "x <- c1 ;; c2" := (bind c1 (fun x => c2))
  (at level 100, c1 at next level, right associativity) : et_scope.
Notation "c1 ;; c2" := (bind c1 (fun _ => c2))
  (at level 100, right associativity) : et_scope.
Open Scope et_scope.

(** [try { m } catch (...) { h }] *)
Definition catch_all {A} (m : M A) (h : M A) : M A :=
  fun w =>
    match m w with
    | (Exc _, w') => h w'
    | r => r
    end.

(** [try { m } catch (const std::runtime_error &) { h }] *)
Definition catch_runtime_error {A} (m : M A) (h : M A) : M A :=
  fun w =>
    match m w with
    | (Exc RuntimeError, w') => h w'
    | r => r
    end.

(** One external call: take the next answer of the script, decode it for
    this call, record the pair. *)
Definition ask {A} (c : Call) (dec : Resp -> option (exn + A)) : M A :=
  fun w =>
    match script w with
    | [] => (Stuck, w)
    | r :: rest =>
        let w' := mkWorld rest (trace w ++ [(c, r)]) in
        match dec r with
        | None => (Stuck, w)
        | Some (inr a) => (Val a, w')
        | Some (inl e) => (Exc e, w')
        end
    end.

(** Answers a C++ member function may give: its result, or an exception. *)
Definition dec_unit (r : Resp) : option (exn + unit) :=
  match r with RUnit => Some (inr tt) | RThrow e => Some (inl e) | _ => None end.
Definition dec_bool (r : Resp) : option (exn + bool) :=
  match r with RBool b => Some (inr b) | RThrow e => Some (inl e) | _ => None end.
Definition dec_int (r : Resp) : option (exn + Z) :=
  match r with RInt z => Some (inr z) | RThrow e => Some (inl e) | _ => None end.
Definition dec_packet (r : Resp) : option (exn + option Packet) :=
  match r with RPacket p => Some (inr p) | RThrow e => Some (inl e) | _ => None end.
(** Answers of the C library and of plain memory reads: no exception. *)
Definition dec_c_unit (r : Resp) : option (exn + unit) :=
  match r with RUnit => Some (inr tt) | _ => None end.
Definition dec_c_int (r : Resp) : option (exn + Z) :=
  match r with RInt z => Some (inr z) | _ => None end.
Definition dec_c_ready (r : Resp) : option (exn + list Z) :=
  match r with RReady fds => Some (inr fds) | _ => None end.
Definition dec_c_data (r : Resp) : option (exn + (Z * bytes)) :=
  match r with RData rc buf => Some (inr (rc, buf)) | _ => None end.
Definition dec_c_winsize (r : Resp) : option (exn + winsize) :=
  match r with RWinsize w => Some (inr w) | _ => None end.

(** The external calls.  The member functions of the connection may throw;
    the C library does not.  The call of line 35 lies outside every handler
    of the function and is taken not to throw.  The constructions of lines
    39-46 are one call, [newConnection]. *)
Definition disableAbortOnFatal : M unit := ask CDisableAbortOnFatal dec_c_unit.
Definition newConnection (h : string) (p : Z) (i k : string) : M unit :=
  ask (CNewConnection h p i k) dec_unit.
Definition connect : M bool := ask CConnect dec_bool.
Definition writePacket (p : Packet) : M unit := ask (CWritePacket p) dec_unit.
Definition getSocketFd : M Z := ask CGetSocketFd dec_int.
Definition sleep_for (secs : Z) : M unit := ask (CSleep secs) dec_c_unit.
Definition select (nfds : Z) (rfds : list Z) (tv_sec tv_usec : Z) : M (list Z) :=
  ask (CSelect nfds rfds tv_sec tv_usec) dec_c_ready.
Definition readPacket : M (option Packet) := ask CReadPacket dec_packet.
Definition isShuttingDown : M bool := ask CIsShuttingDown dec_bool.
Definition sys_read (fd count : Z) : M (Z * bytes) := ask (CSysRead fd count) dec_c_data.
Definition hasData : M bool := ask CHasData dec_bool.
Definition read : M (option Packet) := ask CRead dec_packet.
Definition sys_write (fd : Z) (buf : bytes) (count : Z) : M Z :=
  ask (CSysWrite fd buf count) dec_c_int.
Definition time : M Z := ask CTime dec_c_int.
Definition closeSocketAndMaybeReconnect : M unit :=
  ask CCloseSocketAndMaybeReconnect dec_unit.
Definition shutdown : M unit := ask CShutdown dec_unit.
Definition read_winsize (p : winsize_ptr) : M winsize := ask (CWinsize p) dec_c_winsize.

(** [FD_ISSET(fd, &rfd)] on the set [select] left behind. *)
Definition FD_ISSET (fd : Z) (rfd : list Z) : bool := existsb (Z.eqb fd) rfd.

(** A decoder of the codec used as a statement: the value, or the throw. *)
Definition decode {A} (r : exn + A) : M A :=
  match r with inr a => ret a | inl e => throw e end.

Definition ET_BUF_SIZE : Z := 16 * 1024.

(** ** The function, block by block *)

Section Bridge.
Context {codec : Codec}.

(** *** Handshake (lines 49-103) *)

(** How one pass of the [for] loop over [a] ends: next pass, [break] with
    [fail = false], or [return 1]. *)
Inductive PollResult : Type := PollNext | PollBreak | PollReturn1.

(** How one pass of the [while (true)] loop ends before the counter is
    looked at: [fail] still true, [fail] false, or [return 1]. *)
Inductive AttemptResult : Type := AttemptFail | AttemptOk | AttemptReturn1.

Inductive HandshakeResult : Type := Connected | ConnectError.

(** Lines 64-89, one pass. *)
Definition poll_once : M PollResult :=
  clientFd <- getSocketFd ;;
  if clientFd <? 0 then
    sleep_for 1 ;;
    ret PollNext
  else
    rfd <- select (clientFd + 1) [clientFd] 1 0 ;;
    if FD_ISSET clientFd rfd then
      got <- readPacket ;;
      match got with
      | Some initialResponsePacket =>
          if negb (PacketType_eqb (getHeader initialResponsePacket) INITIAL_RESPONSE)
          then ret PollReturn1
          else
            initialResponse <-
              decode (stringToProto_InitialResponse (getPayload initialResponsePacket)) ;;
            if has_error initialResponse then ret PollReturn1 else ret PollBreak
      | None => ret PollNext
      end
    else ret PollNext.

(** [for (int a = 0; a < 3; a++)], by the number of passes still to make. *)
Fixpoint poll_loop (passes : nat) : M AttemptResult :=
  match passes with
  | O => ret AttemptFail
  | S passes' =>
      r <- poll_once ;;
      match r with
      | PollNext => poll_loop passes'
      | PollBreak => ret AttemptOk
      | PollReturn1 => ret AttemptReturn1
      end
  end.

(** Lines 52-91, the body of the inner [try] up to the test of [fail]. *)
Definition attempt_body : M AttemptResult :=
  ok <- connect ;;
  if ok then
    writePacket (mkPacket INITIAL_PAYLOAD
                   (protoToString_InitialPayload {| jumphost := false |})) ;;
    poll_loop 3
  else ret AttemptFail.

(** With the handler of lines 99-101. *)
Definition attempt : M AttemptResult :=
  catch_all attempt_body (ret AttemptReturn1).

(** The [while (true)] of line 50.  Every pass that does not leave the loop
    raises [connectFailCount], so three passes are all there can be; [fuel]
    makes that recursion structural. *)
Fixpoint connect_loop (fuel : nat) (connectFailCount : Z) : M HandshakeResult :=
  match fuel with
  | O => stuck
  | S fuel' =>
      r <- attempt ;;
      match r with
      | AttemptReturn1 => ret ConnectError
      | AttemptOk => ret Connected
      | AttemptFail =>
          let connectFailCount := connectFailCount + 1 in
          if connectFailCount >=? 3 then ret ConnectError
          else connect_loop fuel' connectFailCount
      end
  end.

Definition handshake : M HandshakeResult := connect_loop 3 0.

(** *** Steady state (lines 105-223) *)

(** The locals that no tick changes. *)
Record Locals : Type := mkLocals {
  inFd : Z;
  outFd : Z;
  keepalive_secs : Z;
  ws : option winsize_ptr
}.

(** The locals the ticks update. *)
Record LoopState : Type := mkLoopState {
  keepaliveTime : Z;
  waitingOnKeepalive : bool;
  lastTerminalInfo : TerminalInfo
}.

Definition set_keepaliveTime (st : LoopState) (t : Z) : LoopState :=
  mkLoopState t (waitingOnKeepalive st) (lastTerminalInfo st).
Definition set_waitingOnKeepalive (st : LoopState) (b : bool) : LoopState :=
  mkLoopState (keepaliveTime st) b (lastTerminalInfo st).
Definition set_lastTerminalInfo (st : LoopState) (ti : TerminalInfo) : LoopState :=
  mkLoopState (keepaliveTime st) (waitingOnKeepalive st) ti.

Variable L : Locals.

(** Lines 138-150.  [None] is the [break] of line 142. *)
Definition input_step (rfd : list Z) (st : LoopState) : M (option LoopState) :=
  if FD_ISSET (inFd L) rfd then
    got <- sys_read (inFd L) ET_BUF_SIZE ;;
    let (rc, buf) := got : Z * bytes in
    if rc <=? 0 then ret None
    else
      let s := firstn (Z.to_nat rc) buf in
      writePacket (mkPacket TERMINAL_BUFFER
                     (protoToString_TerminalBuffer {| buffer := s |})) ;;
      now <- time ;;
      ret (Some (set_keepaliveTime st (now + keepalive_secs L)))
  else ret (Some st).

(** Lines 166-172: [written] counts what the calls so far took; each call is
    handed the rest.  A pass that goes on adds at least one to [written], so
    [length s] passes are enough. *)
Fixpoint write_loop (fuel : nat) (s : bytes) (written : Z) : M unit :=
  if written <? Z.of_nat (List.length s) then
    match fuel with
    | O => stuck
    | S fuel' =>
        rc <- sys_write (outFd L) (skipn (Z.to_nat written) s)
                (Z.of_nat (List.length s) - written) ;;
        if rc <=? 0 then ret tt
        else write_loop fuel' s (written + rc)
    end
  else ret tt.

Definition write_all (s : bytes) : M unit := write_loop (List.length s) s 0.

(** Lines 159-182: the [switch] on the header of one inbound packet. *)
Definition dispatch (packet : Packet) (st : LoopState) : M LoopState :=
  match getHeader packet with
  | TERMINAL_BUFFER =>
      tb <- decode (stringToProto_TerminalBuffer (getPayload packet)) ;;
      write_all (buffer tb) ;;
      now <- time ;;
      ret (set_keepaliveTime st (now + keepalive_secs L))
  | KEEP_ALIVE => ret (set_waitingOnKeepalive st false)
  | _ => ret st
  end.

(** Lines 154-183: [while (connection->hasData())]. *)
Fixpoint drain_loop (fuel : nat) (st : LoopState) : M LoopState :=
  match fuel with
  | O => stuck
  | S fuel' =>
      more <- hasData ;;
      if more then
        got <- read ;;
        match got with
        | None => ret st
        | Some packet =>
            st' <- dispatch packet st ;;
            drain_loop fuel' st'
        end
      else ret st
  end.

(** Every pass takes at least one answer from the script, so the length of
    the script bounds the passes. *)
Definition script_fuel (w : World) : nat := S (List.length (script w)).

(** Lines 153-184. *)
Definition drain_step (clientFd : Z) (rfd : list Z) (st : LoopState) : M LoopState :=
  if (clientFd >? 0) && FD_ISSET clientFd rfd then
    fun w => drain_loop (script_fuel w) st w
  else ret st.

(** Lines 187-197. *)
Definition keepalive_step (clientFd : Z) (st : LoopState) : M LoopState :=
  if clientFd >? 0 then
    now <- time ;;
    if keepaliveTime st <? now then
      now' <- time ;;
      let st := set_keepaliveTime st (now' + keepalive_secs L) in
      if waitingOnKeepalive st then
        closeSocketAndMaybeReconnect ;;
        ret (set_waitingOnKeepalive st false)
      else
        writePacket (mkPacket KEEP_ALIVE []) ;;
        ret (set_waitingOnKeepalive st true)
    else ret st
  else ret st.

(** Lines 198-200. *)
Definition invalid_fd_step (clientFd : Z) (st : LoopState) : LoopState :=
  if clientFd <? 0 then set_waitingOnKeepalive st false else st.

(** Lines 210-213. *)
Definition geometry_differs (ti last : TerminalInfo) : bool :=
  negb (row ti =? row last)
  || negb (column ti =? column last)
  || negb (width ti =? width last)
  || negb (height ti =? height last).

(** Lines 204-208: the [TerminalInfo] built from the host's [winsize]. *)
Definition TerminalInfo_of (w : winsize) : TerminalInfo :=
  mkTerminalInfo (ws_row w) (ws_col w) (ws_xpixel w) (ws_ypixel w).

(** Lines 203-218. *)
Definition geometry_step (st : LoopState) : M LoopState :=
  match ws L with
  | Some p =>
      w <- read_winsize p ;;
      let ti := TerminalInfo_of w in
      if geometry_differs ti (lastTerminalInfo st) then
        let st := set_lastTerminalInfo st ti in
        writePacket (mkPacket TERMINAL_INFO (protoToString_TerminalInfo ti)) ;;
        ret st
      else ret st
  | None => ret st
  end.

(** How a pass of the main loop ends: on to the next with the new locals, or
    out of the loop. *)
Inductive LoopCtl : Type := Continue (st : LoopState) | Break.

(** Lines 152-218: what follows the input block in the body of the [try]. *)
Definition after_input (clientFd : Z) (rfd : list Z) (st : LoopState) : M LoopCtl :=
  st <- drain_step clientFd rfd st ;;
  st <- keepalive_step clientFd st ;;
  let st := invalid_fd_step clientFd st in
  st <- geometry_step st ;;
  ret (Continue st).

(** Lines 137-218, the body of the [try]. *)
Definition tick_body (clientFd : Z) (rfd : list Z) (st : LoopState) : M LoopCtl :=
  r <- input_step rfd st ;;
  match r with
  | None => ret Break
  | Some st => after_input clientFd rfd st
  end.

(** Lines 122-134: the descriptors handed to [select].  The list is the set
    that [FD_ZERO] and [FD_SET] build when the descriptors are within the
    capacity of [fd_set]; beyond it [FD_SET] is undefined and the list says
    nothing of the code (see [descriptors_fit]). *)
Definition watched (clientFd : Z) : list Z :=
  if clientFd >? 0 then [inFd L; clientFd] else [inFd L].
Definition maxfd (clientFd : Z) : Z :=
  if clientFd >? 0 then (if clientFd >? inFd L then clientFd else inFd L)
  else inFd L.

(** Lines 127-222: the pass once [getSocketFd] has answered [clientFd]. *)
Definition tick_at (clientFd : Z) (st : LoopState) : M LoopCtl :=
  rfd <- select (maxfd clientFd + 1) (watched clientFd) 0 10000 ;;
  catch_runtime_error (tick_body clientFd rfd st) (ret Break).

(** Lines 119-222: one pass of the main loop, after its condition. *)
Definition tick (st : LoopState) : M LoopCtl :=
  clientFd <- getSocketFd ;;
  tick_at clientFd st.

(** Lines 118-223. *)
Fixpoint main_loop (fuel : nat) (st : LoopState) : M unit :=
  match fuel with
  | O => stuck
  | S fuel' =>
      down <- isShuttingDown ;;
      if down then ret tt
      else
        r <- tick st ;;
        match r with
        | Break => ret tt
        | Continue st' => main_loop fuel' st'
        end
  end.

(** Lines 118-230: the main loop from given locals, [shutdown], [return 0]. *)
Definition run_loop (st : LoopState) : M Z :=
  (fun w => main_loop (script_fuel w) st w) ;;
  shutdown ;;
  ret 0.

(** Lines 105-230: the run once the handshake is done. *)
Definition session : M Z :=
  now <- time ;;
  run_loop (mkLoopState (now + keepalive_secs L) false TerminalInfo_default).

End Bridge.

(** *** Entry point (lines 20-231) *)

Definition is_null {A} (p : option A) : bool :=
  match p with None => true | Some _ => false end.

Definition et_client_main {codec : Codec}
    (f_in f_out : option FILE) (ws : option winsize_ptr)
    (host : option string) (port : Z) (id passkey : option string)
    (keepalive_secs : Z) : M Z :=
  match f_in, f_out, host, id, passkey with
  | Some fin, Some fout, Some h, Some i, Some k =>
      if is_null ws then ret 1
      else
        let keepalive_secs := if keepalive_secs <? 1 then 5 else keepalive_secs in
        disableAbortOnFatal ;;
        catch_all
          (newConnection h port i k ;;
           r <- handshake ;;
           match r with
           | ConnectError => ret 1
           | Connected =>
               session (mkLocals (fileno fin) (fileno fout) keepalive_secs ws)
           end)
          (ret 1)
  | _, _, _, _, _ => ret 1
  end.

(** ** Vocabulary for statements about runs *)

(** [w'] is [w] after some more calls: the trace has grown by [evs], the
    script has lost exactly the answers of [evs], and [evs] satisfies [P]. *)
Definition grows_by (P : list Event -> Prop) (w w' : World) : Prop :=
  exists evs,
    trace w' = trace w ++ evs /\ script w = map snd evs ++ script w' /\ P evs.

(** A unary program logic over [M]: whatever the script, the calls [m] makes
    satisfy [P], and a value it returns satisfies [Q]. *)
Definition sat {A} (P : list Event -> Prop) (Q : A -> Prop) (m : M A) : Prop :=
  forall w, grows_by P w (snd (m w)) /\ (forall a, fst (m w) = Val a -> Q a).

(** The values a computation can return. *)
Definition returns {A} (Q : A -> Prop) (m : M A) : Prop :=
  forall w a, fst (m w) = Val a -> Q a.

(** Every call made is one of [allowed]. *)
Definition only (allowed : Call -> bool) : list Event -> Prop :=
  Forall (fun e => allowed (fst e) = true).

(** The world after the calls [evs] were answered as [evs] says. *)
Definition after (evs : list Event) (rest : list Resp) (tr : list Event) : World :=
  mkWorld rest (tr ++ evs).

(** [n] runs of [m] in a row that each return a value accepted by [ok]. *)
Fixpoint runs {A} (m : M A) (ok : A -> bool) (n : nat) (w : World) : option World :=
  match n with
  | O => Some w
  | S n' =>
      match m w with
      | (Val a, w1) => if ok a then runs m ok n' w1 else None
      | _ => None
      end
  end.

Definition is_PollNext (r : PollResult) : bool :=
  match r with PollNext => true | _ => false end.
Definition is_AttemptFail (r : AttemptResult) : bool :=
  match r with AttemptFail => true | _ => false end.

(** [n] polls in a row that end without a decoded response, and [n] outer
    attempts in a row that end with [fail] still true. *)
Definition idle_polls {codec : Codec} : nat -> World -> option World :=
  runs poll_once is_PollNext.
Definition failed_attempts {codec : Codec} : nat -> World -> option World :=
  runs attempt is_AttemptFail.

(** The calls each block can make. *)
Definition poll_calls (c : Call) : bool :=
  match c with
  | CGetSocketFd | CReadPacket => true
  | CSleep secs => secs =? 1
  | CSelect _ _ tv_sec tv_usec => (tv_sec =? 1) && (tv_usec =? 0)
  | _ => false
  end.

Definition attempt_calls (c : Call) : bool :=
  match c with
  | CConnect => true
  | CWritePacket p => PacketType_eqb (getHeader p) INITIAL_PAYLOAD
  | _ => poll_calls c
  end.

Definition input_calls (L : Locals) (c : Call) : bool :=
  match c with
  | CSysRead fd count => (fd =? inFd L) && (count =? ET_BUF_SIZE)
  | CWritePacket p => PacketType_eqb (getHeader p) TERMINAL_BUFFER
  | CTime => true
  | _ => false
  end.

Definition drain_calls (L : Locals) (c : Call) : bool :=
  match c with
  | CHasData | CRead | CTime => true
  | CSysWrite fd _ _ => fd =? outFd L
  | _ => false
  end.

Definition keepalive_calls (c : Call) : bool :=
  match c with
  | CTime | CCloseSocketAndMaybeReconnect => true
  | CWritePacket p => PacketType_eqb (getHeader p) KEEP_ALIVE
  | _ => false
  end.

Definition geometry_calls (c : Call) : bool :=
  match c with
  | CWinsize _ => true
  | CWritePacket p => PacketType_eqb (getHeader p) TERMINAL_INFO
  | _ => false
  end.

Definition select_calls (c : Call) : bool :=
  match c with
  | CGetSocketFd => true
  | CSelect _ _ tv_sec tv_usec => (tv_sec =? 0) && (tv_usec =? 10000)
  | _ => false
  end.

Definition tick_calls (L : Locals) (c : Call) : bool :=
  select_calls c || input_calls L c || drain_calls L c
  || keepalive_calls c || geometry_calls c.

Definition loop_calls (L : Locals) (c : Call) : bool :=
  match c with CIsShuttingDown => true | _ => tick_calls L c end.

(** What a tick may call when the transport descriptor is not positive. *)
Definition offline_calls (L : Locals) (c : Call) : bool :=
  input_calls L c || geometry_calls c.

(** The calls that act on the transport by way of its descriptor: draining
    inbound packets, the keepalive probe, the reconnect. *)
Definition transport_work (c : Call) : bool :=
  match c with
  | CHasData | CRead | CCloseSocketAndMaybeReconnect => true
  | CWritePacket p => PacketType_eqb (getHeader p) KEEP_ALIVE
  | _ => false
  end.

(** What a pass may call once the input block is done. *)
Definition after_input_calls (L : Locals) (c : Call) : bool :=
  drain_calls L c || keepalive_calls c || geometry_calls c.

Definition is_shutdown (c : Call) : bool :=
  match c with CShutdown => true | _ => false end.
Definition is_sys_read (c : Call) : bool :=
  match c with CSysRead _ _ => true | _ => false end.
Definition is_select (c : Call) : bool :=
  match c with CSelect _ _ _ _ => true | _ => false end.

(** How often a kind of call occurs among events. *)
Definition count_calls (k : Call -> bool) (evs : list Event) : nat :=
  List.length (filter (fun e => k (fst e)) evs).

(** ** Passes of the main loop in which nothing is ready

    The events of a pass that finds the Session running, the descriptor
    [clientFd], no descriptor ready and the geometry [obs]; the three kinds
    differ in what the keepalive block does at the clock reading [now]. *)

Section Passes.
Variable L : Locals.
Variable clientFd : Z.
Variable p : winsize_ptr.
Variable obs : winsize.

Definition pass_head : list Event :=
  [ (CIsShuttingDown, RBool false);
    (CGetSocketFd, RInt clientFd);
    (CSelect (maxfd L clientFd + 1) (watched L clientFd) 0 10000, RReady []) ].

Definition quiet_pass (now : Z) : list Event :=
  pass_head ++ [ (CTime, RInt now); (CWinsize p, RWinsize obs) ].

Definition probe_pass (now now' : Z) : list Event :=
  pass_head
  ++ [ (CTime, RInt now); (CTime, RInt now');
       (CWritePacket (mkPacket KEEP_ALIVE []), RUnit);
       (CWinsize p, RWinsize obs) ].

Definition reconnect_pass (now now' : Z) : list Event :=
  pass_head
  ++ [ (CTime, RInt now); (CTime, RInt now');
       (CCloseSocketAndMaybeReconnect, RUnit);
       (CWinsize p, RWinsize obs) ].

Definition quiet_passes (clock : list Z) : list Event :=
  flat_map quiet_pass clock.

(** The same with a descriptor that is not positive: only the input
    descriptor is watched and the clock is not read. *)
Definition offline_pass : list Event :=
  pass_head ++ [ (CWinsize p, RWinsize obs) ].

(** A pass that finds the transport ready and one keepalive packet waiting,
    at a clock reading [now] that has not passed the deadline. *)
Definition inbound_keepalive_pass (now : Z) : list Event :=
  [ (CIsShuttingDown, RBool false);
    (CGetSocketFd, RInt clientFd);
    (CSelect (maxfd L clientFd + 1) (watched L clientFd) 0 10000,
     RReady [clientFd]);
    (CHasData, RBool true);
    (CRead, RPacket (Some (mkPacket KEEP_ALIVE [])));
    (CHasData, RBool false);
    (CTime, RInt now);
    (CWinsize p, RWinsize obs) ].

End Passes.

(** ** Geometry reports

    What a trace shows of the geometry: the snapshots the host's [winsize]
    was seen to hold, and the geometry-change packets handed to the
    transport. *)

Definition observations (evs : list Event) : list TerminalInfo :=
  flat_map
    (fun e =>
       match e with
       | (CWinsize _, RWinsize w) => [TerminalInfo_of w]
       | _ => []
       end)
    evs.

Definition geometry_reports (evs : list Event) : list Packet :=
  flat_map
    (fun e =>
       match fst e with
       | CWritePacket p =>
           if PacketType_eqb (getHeader p) TERMINAL_INFO then [p] else []
       | _ => []
       end)
    evs.

Definition report_packet {codec : Codec} (ti : TerminalInfo) : Packet :=
  mkPacket TERMINAL_INFO (protoToString_TerminalInfo ti).

(** Equality of snapshots, field by field. *)
Definition TerminalInfo_eqb (a b : TerminalInfo) : bool :=
  (row a =? row b) && (column a =? column b)
  && (width a =? width b) && (height a =? height b).

(** In the words of the spec: one report per distinct transition.  Of the
    snapshots [obs] seen in turn, starting from [last], those that are not
    equal to the one before them. *)
Fixpoint distinct_transitions (last : TerminalInfo) (obs : list TerminalInfo)
  : list TerminalInfo :=
  match obs with
  | [] => []
  | o :: rest =>
      if TerminalInfo_eqb o last then distinct_transitions last rest
      else o :: distinct_transitions o rest
  end.

(** The snapshot seen last, [last] if none was. *)
Definition last_of (last : TerminalInfo) (obs : list TerminalInfo) : TerminalInfo :=
  fold_left (fun _ o => o) obs last.

(** The reports among [evs] are the distinct transitions of the snapshots
    seen in [evs], starting from [last]. *)
Definition geometry_ok {codec : Codec} (last : TerminalInfo) (evs : list Event)
  : Prop :=
  geometry_reports evs
  = map report_packet (distinct_transitions last (observations evs)).

(** The calls that show nothing of the geometry. *)
Definition silent_calls (L : Locals) (c : Call) : bool :=
  match c with
  | CIsShuttingDown => true
  | _ => select_calls c || input_calls L c || drain_calls L c || keepalive_calls c
  end.

(** A postcondition on the outcome of a run and on the calls it made. *)
Definition post {A} (P : outcome A -> list Event -> Prop) (m : M A) : Prop :=
  forall w,
    exists evs,
      trace (snd (m w)) = trace w ++ evs
      /\ script w = map snd evs ++ script (snd (m w))
      /\ P (fst (m w)) evs.

(** The geometry postcondition: unless the script ran out, the reports are
    right, and the locals handed on (if any: [state_of]) hold the snapshot
    seen last. *)
Definition geometry_post {codec : Codec} {A} (state_of : A -> option LoopState)
    (last : TerminalInfo) (o : outcome A) (evs : list Event) : Prop :=
  (o <> Stuck -> geometry_ok last evs)
  /\ (forall a st', o = Val a -> state_of a = Some st' ->
        lastTerminalInfo st' = last_of last (observations evs)).

Definition state_of_ctl (r : LoopCtl) : option LoopState :=
  match r with Continue st => Some st | Break => None end.

Definition no_state {A} (a : A) : option LoopState := None.

(** ** Events of the handshake

    The events of a poll in which a packet is read on descriptor [fd], and
    of an attempt up to its first poll when the connection opens. *)

Definition response_events (fd : Z) (rfd : list Z) (p : Packet) : list Event :=
  [ (CGetSocketFd, RInt fd); (CSelect (fd + 1) [fd] 1 0, RReady rfd);
    (CReadPacket, RPacket (Some p)) ].

Definition opening_events {codec : Codec} : list Event :=
  [ (CConnect, RBool true);
    (CWritePacket (mkPacket INITIAL_PAYLOAD
                     (protoToString_InitialPayload {| jumphost := false |})),
     RUnit) ].

(** The events of [et_client_main] before the handshake. *)
Definition prologue (host : string) (port : Z) (id passkey : string) : list Event :=
  [ (CDisableAbortOnFatal, RUnit);
    (CNewConnection host port id passkey, RUnit) ].

Definition is_shutting_down (c : Call) : bool :=
  match c with CIsShuttingDown => true | _ => false end.

Definition is_connect (c : Call) : bool :=
  match c with CConnect => true | _ => false end.

(** At most [n] calls of [select] among the calls of an attempt. *)
Definition polls_at_most (n : nat) (evs : list Event) : Prop :=
  only attempt_calls evs /\ (count_calls is_select evs <= n)%nat.

(** Every [select] among [evs] waits for at most one second. *)
Definition polls_bounded (evs : list Event) : Prop :=
  Forall
    (fun e =>
       forall nfds rfds tv_sec tv_usec,
         fst e = CSelect nfds rfds tv_sec tv_usec -> tv_sec = 1 /\ tv_usec = 0)
    evs.

(** ** Writing a payload in parts

    The answers [rcs] of successive [write] calls on the payload [s], from
    [written] bytes on: the calls they answer, the condition under which the
    loop of lines 167-172 goes through all of them, and what they put on a
    descriptor: a call that returns [rc] has taken the first [rc] bytes of
    the buffer it was handed. *)

Fixpoint write_events (L : Locals) (s : bytes) (written : Z) (rcs : list Z)
  : list Event :=
  match rcs with
  | [] => []
  | rc :: rcs' =>
      (CSysWrite (outFd L) (skipn (Z.to_nat written) s)
         (Z.of_nat (List.length s) - written), RInt rc)
      :: write_events L s (written + rc) rcs'
  end.

Fixpoint in_parts (len written : Z) (rcs : list Z) : Prop :=
  match rcs with
  | [] => True
  | rc :: rcs' => written < len /\ 0 < rc /\ in_parts len (written + rc) rcs'
  end.

Definition total (rcs : list Z) : Z := fold_right Z.add 0 rcs.

Definition local_output (fd : Z) (evs : list Event) : bytes :=
  flat_map
    (fun e =>
       match e with
       | (CSysWrite fd' buf _, RInt rc) =>
           if fd' =? fd then firstn (Z.to_nat rc) buf else []
       | _ => []
       end)
    evs.

(** ** Vocabulary for the properties of whole runs *)

(** Any call but [shutdown]. *)
Definition not_shutdown (c : Call) : bool := negb (is_shutdown c).

(** The calls end with a [shutdown] that returned, and it is the only one. *)
Definition ends_with_shutdown (evs : list Event) : Prop :=
  exists evs0,
    evs = evs0 ++ [ (CShutdown, RUnit) ] /\ count_calls is_shutdown evs0 = 0%nat.

(** What the result of a run says of [shutdown]: 0 after the one [shutdown]
    that returned, anything else without a [shutdown] that returned. *)
Definition exit_post (o : outcome Z) (evs : list Event) : Prop :=
  match o with
  | Val c =>
      (c = 0 /\ ends_with_shutdown evs)
      \/ (c = 1 /\ ~ In (CShutdown, RUnit) evs)
  | Exc _ | Stuck => ~ In (CShutdown, RUnit) evs
  end.

(** The calls that make the handshake wait: a [select] or a [sleep_for]. *)
Definition is_wait (c : Call) : bool :=
  match c with CSelect _ _ _ _ | CSleep _ => true | _ => false end.

Definition is_initial_payload (c : Call) : bool :=
  match c with
  | CWritePacket p => PacketType_eqb (getHeader p) INITIAL_PAYLOAD
  | _ => false
  end.

Definition is_reconnect (c : Call) : bool :=
  match c with CCloseSocketAndMaybeReconnect => true | _ => false end.

(** At most [n] calls of the kind [k]. *)
Definition quota (k : Call -> bool) (n : nat) (evs : list Event) : Prop :=
  (count_calls k evs <= n)%nat.

(** The calls end with the read of a well-formed initial response that
    carries no error, on a descriptor that [select] reported ready. *)
Definition ends_with_response {codec : Codec} (evs : list Event) : Prop :=
  exists evs0 fd rfd p ir,
    evs = evs0 ++ response_events fd rfd p
    /\ 0 <= fd /\ FD_ISSET fd rfd = true
    /\ getHeader p = INITIAL_RESPONSE
    /\ stringToProto_InitialResponse (getPayload p) = inr ir
    /\ has_error ir = false.

(** The calls of a run that ends in order: the [opening] calls, a handshake
    that ends with the read of a good response, the clock reading of line
    112, the calls of the main loop, and [shutdown] last. *)
Definition orderly_run {codec : Codec} (L : Locals) (opening evs : list Event) : Prop :=
  exists e_h now e_loop,
    evs = opening ++ e_h ++ [ (CTime, RInt now) ] ++ e_loop ++ [ (CShutdown, RUnit) ]
    /\ only attempt_calls e_h /\ ends_with_response e_h
    /\ only (loop_calls L) e_loop.

(** ** The capacity of [fd_set]

    [FD_SET] and [FD_ISSET] are defined for descriptors from 0 up to, and
    not including, [FD_SETSIZE], a constant of the platform's
    [<sys/select.h>] that the sources do not fix; the function has no guard
    before lines 70, 124 and 128.  The lists of [watched] and of the polls
    stand for the set where the descriptors are within that capacity, and
    statements about what [select] is handed take the capacity, [setsize],
    as a parameter and speak of the calls made while every descriptor
    answered by [getSocketFd] is below it. *)
Definition within_capacity (setsize fd : Z) : bool :=
  (0 <=? fd) && (fd <? setsize).

Definition descriptors_fit (setsize : Z) (evs : list Event) : Prop :=
  Forall
    (fun e => match e with
              | (CGetSocketFd, RInt fd) => fd < setsize
              | _ => True
              end)
    evs.

(** The calls of the main loop with their arguments: [select] waits ten
    milliseconds on a set that holds [inFd] and otherwise only positive
    descriptors, all within the capacity and below [nfds]; [::read] is on
    [inFd] for the size of the buffer; [::write] is on [outFd] for exactly
    the bytes handed over, and never for none; the packets written are of
    three kinds; the geometry is read through the pointer the host gave. *)
Definition steady_calls (L : Locals) (setsize : Z) (c : Call) : bool :=
  match c with
  | CIsShuttingDown | CGetSocketFd | CHasData | CRead | CTime
  | CCloseSocketAndMaybeReconnect => true
  | CSelect nfds rfds tv_sec tv_usec =>
      (tv_sec =? 0) && (tv_usec =? 10000)
      && existsb (Z.eqb (inFd L)) rfds
      && forallb (fun fd => within_capacity setsize fd && (fd <? nfds)
                            && ((fd =? inFd L) || (0 <? fd))) rfds
  | CSysRead fd count => (fd =? inFd L) && (count =? ET_BUF_SIZE)
  | CSysWrite fd buf count =>
      (fd =? outFd L) && (count =? Z.of_nat (List.length buf)) && (0 <? count)
  | CWritePacket p =>
      PacketType_eqb (getHeader p) TERMINAL_BUFFER
      || PacketType_eqb (getHeader p) KEEP_ALIVE
      || PacketType_eqb (getHeader p) TERMINAL_INFO
  | CWinsize p =>
      match ws L with Some q => ws_addr p =? ws_addr q | None => false end
  | _ => false
  end.

(** Every call made before the first descriptor that does not fit is
    one of [steady_calls]: whichever way [evs] is cut in two, if the
    descriptors of the first part fit, its calls are steady. *)
Definition steady_while_fit (L : Locals) (setsize : Z) (evs : list Event) : Prop :=
  forall evs1 evs2,
    evs = evs1 ++ evs2 ->
    descriptors_fit setsize evs1 -> only (steady_calls L setsize) evs1.

(** ** Batches of inbound packets

    What the transport can hand to the drain of lines 154-183: a terminal-data
    packet whose payload decodes to [tb], with the answers [rcs] of the
    [::write] calls and the clock reading [now] that follows; a keepalive
    packet; a packet of any other kind. *)
Inductive Inbound : Type :=
| InData (payload : bytes) (tb : TerminalBuffer) (rcs : list Z) (now : Z)
| InKeepAlive (payload : bytes)
| InOther (packet : Packet).

Definition inbound_packet (it : Inbound) : Packet :=
  match it with
  | InData payload _ _ _ => mkPacket TERMINAL_BUFFER payload
  | InKeepAlive payload => mkPacket KEEP_ALIVE payload
  | InOther packet => packet
  end.

(** The payload decodes and the writes take the whole buffer; a packet of
    another kind is of neither of the kinds the [switch] names. *)
Definition inbound_ok {codec : Codec} (it : Inbound) : Prop :=
  match it with
  | InData payload tb rcs _ =>
      stringToProto_TerminalBuffer payload = inr tb
      /\ in_parts (Z.of_nat (List.length (buffer tb))) 0 rcs
      /\ Z.of_nat (List.length (buffer tb)) <= total rcs
  | InKeepAlive _ => True
  | InOther packet =>
      getHeader packet <> TERMINAL_BUFFER /\ getHeader packet <> KEEP_ALIVE
  end.

Definition inbound_events (L : Locals) (it : Inbound) : list Event :=
  [ (CHasData, RBool true); (CRead, RPacket (Some (inbound_packet it))) ]
  ++ match it with
     | InData _ tb rcs now => write_events L (buffer tb) 0 rcs ++ [ (CTime, RInt now) ]
     | _ => []
     end.

Definition inbound_effect (L : Locals) (st : LoopState) (it : Inbound) : LoopState :=
  match it with
  | InData _ _ _ now => set_keepaliveTime st (now + keepalive_secs L)
  | InKeepAlive _ => set_waitingOnKeepalive st false
  | InOther _ => st
  end.

Definition inbound_output (it : Inbound) : bytes :=
  match it with InData _ tb _ _ => buffer tb | _ => [] end.

Definition is_keepalive_item (it : Inbound) : bool :=
  match it with InKeepAlive _ => true | _ => false end.

Definition batch_events (L : Locals) (items : list Inbound) : list Event :=
  flat_map (inbound_events L) items ++ [ (CHasData, RBool false) ].

(** ** Vocabulary for the invariants of a pass *)

(** The deadline [d'] after the calls [evs], from the deadline [d] before
    them: unchanged, or a clock reading among the calls plus the interval. *)
Definition deadline_from (L : Locals) (d : Z) (evs : list Event) (d' : Z) : Prop :=
  d' = d \/ exists t, In (CTime, RInt t) evs /\ d' = t + keepalive_secs L.

Definition deadline_post (L : Locals) {A} (state_of : A -> option LoopState)
    (d : Z) (o : outcome A) (evs : list Event) : Prop :=
  forall a st', o = Val a -> state_of a = Some st' ->
    deadline_from L d evs (keepaliveTime st').

Definition is_probe (c : Call) : bool :=
  match c with
  | CWritePacket p => PacketType_eqb (getHeader p) KEEP_ALIVE
  | _ => false
  end.

(** Any call but a keepalive probe and a request to reconnect. *)
Definition no_keepalive_action (c : Call) : bool :=
  negb (is_probe c) && negb (is_reconnect c).

(** At most one probe or reconnect among the calls. *)
Definition one_action (evs : list Event) : Prop :=
  (count_calls is_probe evs + count_calls is_reconnect evs <= 1)%nat.

(** The pending flag [w1] after the calls [evs], from the flag [w0] before
    them: a probe sent leaves it set, a reconnect requested leaves it clear
    and needs it set before, and it is set after only if it was set before
    or a probe was sent. *)
Definition flag_from (w0 : bool) (evs : list Event) (w1 : bool) : Prop :=
  (count_calls is_probe evs = 1%nat -> w1 = true)
  /\ (count_calls is_reconnect evs = 1%nat -> w1 = false /\ w0 = true)
  /\ (w1 = true -> w0 = true \/ count_calls is_probe evs = 1%nat).

Definition flag_post {A} (state_of : A -> option LoopState)
    (w0 : bool) (o : outcome A) (evs : list Event) : Prop :=
  one_action evs
  /\ forall a st', o = Val a -> state_of a = Some st' ->
       flag_from w0 evs (waitingOnKeepalive st').

(** ** Vocabulary for the exceptions that calls raise *)

(** The calls made in the body of the [try] of line 136. *)
Definition in_pass_body (c : Call) : bool :=
  match c with
  | CSysRead _ _ | CSysWrite _ _ _ | CTime | CWinsize _
  | CHasData | CRead | CCloseSocketAndMaybeReconnect => true
  | CWritePacket p => negb (PacketType_eqb (getHeader p) INITIAL_PAYLOAD)
  | _ => false
  end.

Definition is_runtime_error (e : exn) : bool :=
  match e with RuntimeError => true | OtherException => false end.

(** What the handler of line 219 catches: a [std::runtime_error] raised by a
    call of the body of a pass. *)
Definition caught_at_loop (c : Call) (e : exn) : bool :=
  in_pass_body c && is_runtime_error e.

(** None of the calls was answered by an exception. *)
Definition throw_free (evs : list Event) : Prop :=
  Forall (fun ev => forall e, snd ev <> RThrow e) evs.

(** A decoder takes an exception for an exception and nothing else. *)
Definition honest {A} (dec : Resp -> option (exn + A)) : Prop :=
  forall r,
    match dec r with
    | Some (inl e) => r = RThrow e
    | Some (inr _) => forall e, r <> RThrow e
    | None => True
    end.

(** Wherever among [evs] a call [c] is answered by the exception [e], with
    [evs2] the calls made after it, [R c e evs2 o] holds of the outcome. *)
Definition on_throw {A} (R : Call -> exn -> list Event -> outcome A -> Prop)
    (o : outcome A) (evs : list Event) : Prop :=
  forall evs0 c e evs2, evs = evs0 ++ (c, RThrow e) :: evs2 -> R c e evs2 o.

(** A block without a handler: the call that throws is its last, and the
    exception is its outcome. *)
Definition throw_ends {A} : outcome A -> list Event -> Prop :=
  on_throw (fun _ e evs2 o => evs2 = [] /\ o = Exc e).

(** The handshake: the call that throws is its last, and the handshake has
    failed. *)
Definition throw_fails_handshake {A} (failed : A) : outcome A -> list Event -> Prop :=
  on_throw (fun _ _ evs2 o => evs2 = [] /\ o = Val failed).

(** A pass, or the main loop: the call that throws is its last; what line
    219 catches leaves the loop in order, anything else leaves it as the
    exception. *)
Definition throw_leaves_loop {A} (left : A) : outcome A -> list Event -> Prop :=
  on_throw (fun c e evs2 o =>
              evs2 = [] /\ o = if caught_at_loop c e then Val left else Exc e).

(** The run from the main loop on.  After a throw that line 219 catches the
    only call still made is [shutdown], and the result is 0 unless its
    answer is itself an exception; after any other throw no call is made.
    [fail e] is what an exception [e] that is not caught at the loop comes
    to: [Exc e] inside the outer [try], the result 1 outside. *)
Definition fault_converted (fail : exn -> outcome Z) : outcome Z -> list Event -> Prop :=
  on_throw (fun c e evs2 o =>
              if caught_at_loop c e
              then (evs2 = [] /\ o = Stuck)
                   \/ (evs2 = [ (CShutdown, RUnit) ] /\ o = Val 0)
                   \/ (exists e', evs2 = [ (CShutdown, RThrow e') ] /\ o = fail e')
              else evs2 = [] /\ o = fail e).

(** The same inside the outer [try], where the handshake comes first: a
    throw in the handshake has already become the result 1. *)
Definition fault_in_try : outcome Z -> list Event -> Prop :=
  on_throw (fun c e evs2 o =>
              if caught_at_loop c e
              then (evs2 = [] /\ o = Stuck)
                   \/ (evs2 = [ (CShutdown, RUnit) ] /\ o = Val 0)
                   \/ (exists e', evs2 = [ (CShutdown, RThrow e') ] /\ o = Exc e')
              else evs2 = [] /\ (o = Exc e \/ o = Val 1)).

Definition is_write_packet (c : Call) : bool :=
  match c with CWritePacket _ => true | _ => false end.

(** An exception as outcome was thrown by the last call, a call of the kind
    [k]: nothing else raised it. *)
Definition raised_by (k : Call -> bool) {A} (o : outcome A) (evs : list Event) : Prop :=
  forall e, o = Exc e ->
    exists evs0 c, evs = evs0 ++ [ (c, RThrow e) ] /\ k c = true.

(** The events of a pass up to the body of its [try]. *)
Definition pass_start (L : Locals) (clientFd : Z) (rfd : list Z) : list Event :=
  [ (CIsShuttingDown, RBool false);
    (CGetSocketFd, RInt clientFd);
    (CSelect (maxfd L clientFd + 1) (watched L clientFd) 0 10000, RReady rfd) ].

(** ** Sample data for the worked examples *)

Definition byte_of_Z (z : Z) : byte :=
  match Byte.of_N (Z.to_N (z mod 256)) with Some b => b | None => x00 end.

(** A codec to compute with: payloads in the clear, an initial response
    reports an error when its payload is not empty, and the payload [xff]
    does not parse. *)
Definition sample_codec : Codec := {|
  protoToString_InitialPayload := fun p => [if jumphost p then x01 else x00];
  protoToString_TerminalBuffer := buffer;
  protoToString_TerminalInfo := fun ti =>
    map byte_of_Z [row ti; column ti; width ti; height ti];
  stringToProto_InitialResponse := fun b =>
    match b with
    | [] => inr {| has_error := false |}
    | [xff] => inl RuntimeError
    | _ => inr {| has_error := true |}
    end;
  stringToProto_TerminalBuffer := fun b => inr {| buffer := b |}
|}.

Definition sample_in : FILE := mkFILE 3.
Definition sample_out : FILE := mkFILE 4.
Definition sample_ws : winsize_ptr := mkWinsizePtr 4096.
Definition sample_locals : Locals := mkLocals 3 4 5 (Some sample_ws).

(** [et_client_main] on the sample streams, host, id and passkey. *)
Definition sample_main (keepalive_secs : Z) : M Z :=
  @et_client_main sample_codec (Some sample_in) (Some sample_out) (Some sample_ws)
    (Some "host"%string) 2022 (Some "id"%string) (Some "key"%string) keepalive_secs.

(** A well-formed initial response, and a packet of another kind. *)
Definition sample_response : Packet := mkPacket INITIAL_RESPONSE [].
Definition sample_stray : Packet := mkPacket TERMINAL_BUFFER [x68; x69].

(** A handshake on the sample codec: the connection does not open; it opens
    and the three polls find the descriptor invalid, then not ready, then
    ready with nothing to read; it opens and the first poll reads the
    response. *)
Definition sample_handshake_script : list Resp :=
  [ RBool false;
    RBool true; RUnit;
    RInt (-1); RUnit; RInt 5; RReady []; RInt 5; RReady [5]; RPacket None;
    RBool true; RUnit;
    RInt 5; RReady [5]; RPacket (Some sample_response) ].

(** A run of [sample_main] in which the connection does not open at first
    and then a packet of another kind is read. *)
Definition sample_rejected_script : list Resp :=
  [ RUnit; RUnit;
    RBool false;
    RBool true; RUnit; RInt 5; RReady [5]; RPacket (Some sample_stray);
    RBool true ].

(** A run of [sample_main]: the handshake succeeds at once; on the first
    pass two bytes of input are read and [writePacket] throws an exception
    that is not a [std::runtime_error]. *)
Definition sample_fault_script : list Resp :=
  [ RUnit; RUnit;
    RBool true; RUnit; RInt 5; RReady [5]; RPacket (Some sample_response);
    RInt 100;
    RBool false; RInt 5; RReady [3]; RData 2 [x68; x69]; RThrow OtherException ].

(** A run of the main loop that finds the Session shutting down on its
    second pass. *)
Definition sample_closing_script : list Resp :=
  [ RBool false; RInt 5; RReady []; RInt 50; RWinsize (mkWinsize 0 0 0 0);
    RBool true;
    RUnit ].

(** Two runs of the session on the sample locals with the descriptor -1 and
    no input.  In the first the host's geometry is 24x80 on two passes and
    30x100 on the third; in the second it is all zero on the only pass. *)
Definition sample_geometry_script : list Resp :=
  [ RInt 100;
    RBool false; RInt (-1); RReady []; RWinsize (mkWinsize 24 80 0 0); RUnit;
    RBool false; RInt (-1); RReady []; RWinsize (mkWinsize 24 80 0 0);
    RBool false; RInt (-1); RReady []; RWinsize (mkWinsize 30 100 0 0); RUnit;
    RBool true;
    RUnit ].

Definition sample_zero_geometry_script : list Resp :=
  [ RInt 100;
    RBool false; RInt (-1); RReady []; RWinsize (mkWinsize 0 0 0 0);
    RBool true;
    RUnit ].

(** A run of [sample_main] that is orderly from end to end: the handshake
    succeeds at once and the first test of the loop finds the Session
    shutting down. *)
Definition sample_clean_script : list Resp :=
  [ RUnit; RUnit;
    RBool true; RUnit; RInt 5; RReady [5]; RPacket (Some sample_response);
    RInt 100;
    RBool true;
    RUnit ].

(** A batch on the sample codec: data, a packet of an unknown kind, a
    keepalive, data again, written in one and in two parts. *)
Definition sample_batch : list Inbound :=
  [ InData [x68; x69] {| buffer := [x68; x69] |} [2] 40;
    InOther (mkPacket (OtherType 99) [x00]);
    InKeepAlive [];
    InData [x21; x0a; x3e] {| buffer := [x21; x0a; x3e] |} [1; 2] 41 ].

(** A run of [sample_main]: the handshake succeeds at once; on the first
    pass two bytes of input are read and [writePacket] throws a
    [std::runtime_error]; [shutdown] returns. *)
Definition sample_caught_script : list Resp :=
  [ RUnit; RUnit;
    RBool true; RUnit; RInt 5; RReady [5]; RPacket (Some sample_response);
    RInt 100;
    RBool false; RInt 5; RReady [3]; RData 2 [x68; x69]; RThrow RuntimeError;
    RUnit ].

(** A pass on the sample locals with the descriptor -1, two bytes of input
    ready and a geometry the peer has not been told. *)
Definition sample_offline_script : list Resp :=
  [ RInt (-1); RReady [3]; RData 2 [x68; x69]; RUnit; RInt 50;
    RWinsize (mkWinsize 24 80 0 0); RUnit ].

(** * Theorems *)

Section Logic.

Lemma grows_by_refl (P : list Event -> Prop) w : P [] -> grows_by P w w.
Proof.
  intros H. exists []. rewrite app_nil_r. auto.
Qed.

Lemma grows_by_trans (P1 P2 P : list Event -> Prop) w1 w2 w3 :
  (forall e1 e2, P1 e1 -> P2 e2 -> P (e1 ++ e2)) ->
  grows_by P1 w1 w2 -> grows_by P2 w2 w3 -> grows_by P w1 w3.
Proof.
  intros HP (e1 & T1 & S1 & H1) (e2 & T2 & S2 & H2).
  exists (e1 ++ e2). repeat split.
  - rewrite T2, T1. now rewrite app_assoc.
  - rewrite S1, S2, map_app. now rewrite app_assoc.
  - auto.
Qed.

Lemma grows_by_weaken (P P' : list Event -> Prop) w w' :
  (forall evs, P evs -> P' evs) -> grows_by P w w' -> grows_by P' w w'.
Proof.
  intros HP (evs & T & S & H). exists evs. auto.
Qed.

Lemma grows_by_length P w w' :
  grows_by P w w' -> (List.length (script w') <= List.length (script w))%nat.
Proof.
  intros (evs & _ & S & _). rewrite S, length_app. lia.
Qed.

Lemma sat_ret {A} (P : list Event -> Prop) (Q : A -> Prop) a :
  P [] -> Q a -> sat P Q (ret a).
Proof.
  intros HP HQ w. split.
  - now apply grows_by_refl.
  - cbn. intros b [= <-]. exact HQ.
Qed.

Lemma sat_throw {A} (P : list Event -> Prop) (Q : A -> Prop) e :
  P [] -> sat P Q (throw e).
Proof.
  intros HP w. split.
  - now apply grows_by_refl.
  - cbn. discriminate.
Qed.

Lemma sat_stuck {A} (P : list Event -> Prop) (Q : A -> Prop) :
  P [] -> sat P Q stuck.
Proof.
  intros HP w. split.
  - now apply grows_by_refl.
  - cbn. discriminate.
Qed.

Lemma sat_ask {A} (P : list Event -> Prop) c (dec : Resp -> option (exn + A)) :
  P [] -> (forall r, P [(c, r)]) -> sat P (fun _ => True) (ask c dec).
Proof.
  intros H0 H1 w. split; [|trivial].
  unfold ask. destruct (script w) as [|r rest] eqn:S.
  - now apply grows_by_refl.
  - destruct (dec r) as [[e|a]|]; cbn; try now apply grows_by_refl.
    all: exists [(c, r)]; cbn; auto.
Qed.

Lemma sat_bind {A B} (P1 P2 P : list Event -> Prop)
    (Q : A -> Prop) (R : B -> Prop) (m : M A) (f : A -> M B) :
  (forall e1, P1 e1 -> P e1) ->
  (forall e1 e2, P1 e1 -> P2 e2 -> P (e1 ++ e2)) ->
  sat P1 Q m -> (forall a, Q a -> sat P2 R (f a)) -> sat P R (bind m f).
Proof.
  intros Hw Happ Hm Hf w. unfold bind.
  destruct (Hm w) as [G HQ]. destruct (m w) as [[a|e|] w1]; cbn in *.
  - destruct (Hf a (HQ a eq_refl) w1) as [G' HR]. split; [|exact HR].
    eapply grows_by_trans; eauto.
  - split; [|discriminate]. eapply grows_by_weaken; eauto.
  - split; [|discriminate]. eapply grows_by_weaken; eauto.
Qed.

Lemma sat_weaken {A} (P P' : list Event -> Prop) (Q Q' : A -> Prop) m :
  (forall evs, P evs -> P' evs) -> (forall a, Q a -> Q' a) ->
  sat P Q m -> sat P' Q' m.
Proof.
  intros HP HQ Hm w. destruct (Hm w) as [G H]. split.
  - eapply grows_by_weaken; eauto.
  - auto.
Qed.

Lemma sat_catch_all {A} (P1 P2 P : list Event -> Prop) (Q : A -> Prop) m h :
  (forall e1, P1 e1 -> P e1) ->
  (forall e1 e2, P1 e1 -> P2 e2 -> P (e1 ++ e2)) ->
  sat P1 Q m -> sat P2 Q h -> sat P Q (catch_all m h).
Proof.
  intros Hw Happ Hm Hh w. unfold catch_all.
  destruct (Hm w) as [G HQ]. destruct (m w) as [[a|e|] w1]; cbn in *.
  - split; [eapply grows_by_weaken; eauto | exact HQ].
  - destruct (Hh w1) as [G' HQ']. split; [|exact HQ'].
    eapply grows_by_trans; eauto.
  - split; [eapply grows_by_weaken; eauto | discriminate].
Qed.

Lemma sat_catch_runtime_error {A} (P1 P2 P : list Event -> Prop)
    (Q : A -> Prop) m h :
  (forall e1, P1 e1 -> P e1) ->
  (forall e1 e2, P1 e1 -> P2 e2 -> P (e1 ++ e2)) ->
  sat P1 Q m -> sat P2 Q h -> sat P Q (catch_runtime_error m h).
Proof.
  intros Hw Happ Hm Hh w. unfold catch_runtime_error.
  destruct (Hm w) as [G HQ]. destruct (m w) as [[a|[|]|] w1]; cbn in *.
  - split; [eapply grows_by_weaken; eauto | exact HQ].
  - destruct (Hh w1) as [G' HQ']. split; [|exact HQ'].
    eapply grows_by_trans; eauto.
  - split; [eapply grows_by_weaken; eauto | discriminate].
  - split; [eapply grows_by_weaken; eauto | discriminate].
Qed.

Lemma sat_fueled {A} (P : list Event -> Prop) (Q : A -> Prop)
    (m : nat -> M A) (fuel : World -> nat) :
  (forall n, sat P Q (m n)) -> sat P Q (fun w => m (fuel w) w).
Proof.
  intros H w. apply (H (fuel w) w).
Qed.

(** The rules for [only]: the allowed calls are closed under sequencing. *)

Lemma only_nil k : only k [].
Proof. constructor. Qed.

Lemma only_app k e1 e2 : only k e1 -> only k e2 -> only k (e1 ++ e2).
Proof. intros H1 H2. apply Forall_app. auto. Qed.

Lemma only_one k c r : k c = true -> only k [(c, r)].
Proof. intros H. repeat constructor. exact H. Qed.

Lemma only_weaken (k k' : Call -> bool) evs :
  (forall c, k c = true -> k' c = true) -> only k evs -> only k' evs.
Proof.
  intros H. unfold only. apply Forall_impl. intros e. apply H.
Qed.

Lemma only_count_zero k k' evs :
  (forall c, k c = true -> k' c = false) -> only k evs -> count_calls k' evs = 0%nat.
Proof.
  intros H. unfold only, count_calls. induction 1 as [|e evs He _ IH]; cbn.
  - reflexivity.
  - now rewrite (H _ He).
Qed.

Lemma sat_only_ret {A} k (Q : A -> Prop) a : Q a -> sat (only k) Q (ret a).
Proof. apply sat_ret, only_nil. Qed.

Lemma sat_only_ask {A} k c (dec : Resp -> option (exn + A)) :
  k c = true -> sat (only k) (fun _ => True) (ask c dec).
Proof.
  intros H. apply sat_ask; [apply only_nil | intros r; now apply only_one].
Qed.

Lemma sat_only_bind {A B} k (Q : A -> Prop) (R : B -> Prop) m (f : A -> M B) :
  sat (only k) Q m -> (forall a, Q a -> sat (only k) R (f a)) ->
  sat (only k) R (bind m f).
Proof.
  apply sat_bind; [auto | apply only_app].
Qed.

Lemma sat_only_decode {A} k (r : exn + A) : sat (only k) (fun _ => True) (decode r).
Proof.
  destruct r; [apply sat_throw | apply sat_ret]; auto using only_nil.
Qed.

Lemma sat_bind_ret {A B} P (R : B -> Prop) (a : A) (f : A -> M B) :
  sat P R (f a) -> sat P R (bind (ret a) f).
Proof. intros H. exact H. Qed.

Lemma sat_only_mono {A} (k k' : Call -> bool) (Q : A -> Prop) m :
  (forall c, k c = true -> k' c = true) -> sat (only k) Q m -> sat (only k') Q m.
Proof.
  intros H. apply sat_weaken; [|auto].
  intros evs. now apply only_weaken.
Qed.

Lemma sat_post {A} (P : list Event -> Prop) (Q Q' : A -> Prop) m :
  (forall a, Q a -> Q' a) -> sat P Q m -> sat P Q' m.
Proof. apply sat_weaken. auto. Qed.

End Logic.

(** Symbolic execution of the rules above, one construct at a time. *)
Ltac sat_only_step :=
  lazymatch goal with
  | |- sat _ _ (ret _) => apply sat_only_ret
  | |- sat _ _ (throw _) => apply sat_throw, only_nil
  | |- sat _ _ stuck => apply sat_stuck, only_nil
  | |- sat _ _ (decode _) => apply sat_only_decode
  | |- sat _ _ (ask _ _) => apply sat_only_ask; try reflexivity
  | |- sat _ _ (bind (ret _) _) => apply sat_bind_ret
  | |- sat _ _ (bind _ _) => eapply sat_only_bind; [ | intros ? ? ]
  | |- sat _ _ (if ?b then _ else _) => destruct b eqn:?
  | |- sat _ _ (match ?x with _ => _ end) => destruct x eqn:?
  end.
Ltac sat_only := repeat sat_only_step.

Section BlockFacts.
Context {codec : Codec}.

(** What each block calls, and which locals it leaves alone. *)

Lemma sat_poll_once : sat (only poll_calls) (fun _ => True) poll_once.
Proof.
  unfold poll_once, getSocketFd, sleep_for, select, readPacket.
  sat_only; trivial.
Qed.

Lemma sat_poll_loop n : sat (only poll_calls) (fun _ => True) (poll_loop n).
Proof.
  induction n as [|n IH]; cbn [poll_loop].
  - sat_only; trivial.
  - eapply sat_only_bind; [apply sat_poll_once|].
    intros r _. destruct r; [exact IH | sat_only; trivial ..].
Qed.

Lemma poll_calls_attempt c : poll_calls c = true -> attempt_calls c = true.
Proof. destruct c; cbn; congruence. Qed.

Lemma sat_attempt : sat (only attempt_calls) (fun _ => True) attempt.
Proof.
  unfold attempt, attempt_body, connect, writePacket.
  eapply sat_catch_all with (P1 := only attempt_calls) (P2 := only attempt_calls);
    [auto | apply only_app | | sat_only; trivial].
  sat_only; trivial.
  apply sat_only_mono with (k := poll_calls);
    [apply poll_calls_attempt | apply sat_poll_loop].
Qed.

Variable L : Locals.

Lemma sat_input_step rfd st :
  sat (only (input_calls L))
      (fun r => forall st', r = Some st' ->
         waitingOnKeepalive st' = waitingOnKeepalive st
         /\ lastTerminalInfo st' = lastTerminalInfo st)
      (input_step L rfd st).
Proof.
  unfold input_step, sys_read, writePacket, time.
  sat_only; try (intros st' [= <-]; auto); try discriminate.
  cbn. now rewrite !Z.eqb_refl.
Qed.

Lemma sat_write_loop fuel s written :
  sat (only (drain_calls L)) (fun _ => True) (write_loop L fuel s written).
Proof.
  revert written. induction fuel as [|fuel IH]; intros written; cbn [write_loop].
  - sat_only; trivial.
  - unfold sys_write. sat_only; trivial.
    cbn. apply Z.eqb_refl.
Qed.

Lemma sat_dispatch packet st :
  sat (only (drain_calls L))
      (fun st' => lastTerminalInfo st' = lastTerminalInfo st)
      (dispatch L packet st).
Proof.
  unfold dispatch, write_all, time.
  destruct (getHeader packet); sat_only; trivial.
  apply sat_write_loop.
Qed.

Lemma sat_drain_loop fuel st :
  sat (only (drain_calls L))
      (fun st' => lastTerminalInfo st' = lastTerminalInfo st)
      (drain_loop L fuel st).
Proof.
  revert st. induction fuel as [|fuel IH]; intros st; cbn [drain_loop].
  - sat_only.
  - unfold hasData, read. sat_only; trivial.
    + apply sat_dispatch.
    + eapply sat_post; [|apply IH].
      cbn. intros st' ->. assumption.
Qed.

Lemma sat_drain_step clientFd rfd st :
  sat (only (drain_calls L))
      (fun st' => lastTerminalInfo st' = lastTerminalInfo st)
      (drain_step L clientFd rfd st).
Proof.
  unfold drain_step. destruct (_ && _).
  - apply (sat_fueled _ _ (fun n => drain_loop L n st) script_fuel).
    intros n. apply sat_drain_loop.
  - sat_only. trivial.
Qed.

Lemma sat_keepalive_step clientFd st :
  sat (only keepalive_calls)
      (fun st' => lastTerminalInfo st' = lastTerminalInfo st)
      (keepalive_step L clientFd st).
Proof.
  unfold keepalive_step, time, closeSocketAndMaybeReconnect, writePacket.
  sat_only; trivial.
Qed.

Lemma sat_geometry_step st :
  sat (only geometry_calls)
      (fun st' => waitingOnKeepalive st' = waitingOnKeepalive st
                  /\ keepaliveTime st' = keepaliveTime st)
      (geometry_step L st).
Proof.
  unfold geometry_step, read_winsize, writePacket.
  sat_only; auto.
Qed.

End BlockFacts.

(** ** Entry validation *)

Section EntryFacts.
Context {codec : Codec}.

(** C9.  [et_client_main] returns 1 at once, with nothing called and no
    answer consumed, when one of the input stream, output stream, window
    size pointer, host, id or passkey is null; and with a keepalive interval
    below 1 it runs as it does with 5: the locals the session gets carry the
    interval 5. *)
Theorem C9_entry_validation :
  forall (f_in f_out : option FILE) (ws : option winsize_ptr)
         (host : option string) (port : Z) (id passkey : option string)
         (keepalive_secs : Z) (w : World),
    (is_null f_in || is_null f_out || is_null ws
     || is_null host || is_null id || is_null passkey = true ->
     et_client_main f_in f_out ws host port id passkey keepalive_secs w = (Val 1, w))
    /\ (keepalive_secs < 1 ->
        et_client_main f_in f_out ws host port id passkey keepalive_secs w
        = et_client_main f_in f_out ws host port id passkey 5 w)
    /\ (keepalive_secs < 1 ->
        forall fin fout p h i k,
          f_in = Some fin -> f_out = Some fout -> ws = Some p ->
          host = Some h -> id = Some i -> passkey = Some k ->
          et_client_main f_in f_out ws host port id passkey keepalive_secs w
          = (disableAbortOnFatal ;;
             catch_all
               (newConnection h port i k ;;
                r <- handshake ;;
                match r with
                | ConnectError => ret 1
                | Connected =>
                    session (mkLocals (fileno fin) (fileno fout) 5 (Some p))
                end)
               (ret 1)) w).
Proof.
  intros f_in f_out ws host port id passkey keepalive_secs w.
  split; [|split].
  - intros H. unfold et_client_main.
    destruct f_in, f_out, ws, host, id, passkey; cbn in H; try discriminate;
      reflexivity.
  - intros H. unfold et_client_main.
    apply Z.ltb_lt in H. now rewrite H.
  - intros H fin fout p h i k -> -> -> -> -> ->.
    unfold et_client_main. cbn [is_null].
    apply Z.ltb_lt in H. now rewrite H.
Qed.

End EntryFacts.

Lemma C9_entry_validation_witness :
  @et_client_main sample_codec None (Some sample_out) (Some sample_ws)
      (Some "host"%string) 2022 (Some "id"%string) (Some "key"%string) 30
      (mkWorld [RUnit; RUnit] [])
    = (Val 1, mkWorld [RUnit; RUnit] [])
  /\ sample_main 0 (mkWorld [] []) = sample_main 5 (mkWorld [] []).
Proof.
  split.
  - apply (proj1 (@C9_entry_validation sample_codec None (Some sample_out)
                    (Some sample_ws) (Some "host"%string) 2022
                    (Some "id"%string) (Some "key"%string) 30
                    (mkWorld [RUnit; RUnit] []))).
    reflexivity.
  - apply (proj1 (proj2 (@C9_entry_validation sample_codec (Some sample_in)
                    (Some sample_out) (Some sample_ws) (Some "host"%string) 2022
                    (Some "id"%string) (Some "key"%string) 0
                    (mkWorld [] [])))).
    lia.
Defined.

(** ** Running a block on a script *)

(** Decide the integer tests of the code from the hypotheses at hand. *)
Ltac ztests :=
  rewrite ?Z.gtb_ltb, ?Z.geb_leb;
  repeat match goal with
  | |- context [?a <? ?b] =>
      first [ rewrite (proj2 (Z.ltb_lt a b)) by lia
            | rewrite (proj2 (Z.ltb_ge a b)) by lia ]
  | |- context [?a <=? ?b] =>
      first [ rewrite (proj2 (Z.leb_le a b)) by lia
            | rewrite (proj2 (Z.leb_gt a b)) by lia ]
  | |- context [?a =? ?b] =>
      first [ rewrite (proj2 (Z.eqb_eq a b)) by lia
            | rewrite (proj2 (Z.eqb_neq a b)) by lia ]
  end.

(** Put a trace back in the shape [tr ++ events]. *)
Ltac traces := unfold after; rewrite <- ?app_assoc; cbn [app].

Create HintDb et_run discriminated.
#[export] Hint Unfold bind ret throw stuck catch_all catch_runtime_error ask decode
  disableAbortOnFatal newConnection connect writePacket getSocketFd sleep_for
  select readPacket isShuttingDown sys_read hasData read sys_write time
  closeSocketAndMaybeReconnect shutdown read_winsize
  set_keepaliveTime set_waitingOnKeepalive set_lastTerminalInfo : et_run.

Ltac run := repeat (autounfold with et_run; cbn; ztests); traces.

Section KeepaliveFacts.
Context {codec : Codec}.
Variable L : Locals.

Lemma keepalive_step_probe clientFd st now now' rest tr :
  0 < clientFd -> keepaliveTime st < now -> waitingOnKeepalive st = false ->
  keepalive_step L clientFd st (mkWorld (RInt now :: RInt now' :: RUnit :: rest) tr)
  = (Val (mkLoopState (now' + keepalive_secs L) true (lastTerminalInfo st)),
     after [ (CTime, RInt now); (CTime, RInt now');
             (CWritePacket (mkPacket KEEP_ALIVE []), RUnit) ] rest tr).
Proof.
  intros Hfd Hlate Hidle. unfold keepalive_step. run.
  rewrite Hidle. run. reflexivity.
Qed.

Lemma keepalive_step_reconnect clientFd st now now' rest tr :
  0 < clientFd -> keepaliveTime st < now -> waitingOnKeepalive st = true ->
  keepalive_step L clientFd st (mkWorld (RInt now :: RInt now' :: RUnit :: rest) tr)
  = (Val (mkLoopState (now' + keepalive_secs L) false (lastTerminalInfo st)),
     after [ (CTime, RInt now); (CTime, RInt now');
             (CCloseSocketAndMaybeReconnect, RUnit) ] rest tr).
Proof.
  intros Hfd Hlate Hwait. unfold keepalive_step. run.
  rewrite Hwait. run. reflexivity.
Qed.

Lemma keepalive_step_early clientFd st now rest tr :
  0 < clientFd -> now <= keepaliveTime st ->
  keepalive_step L clientFd st (mkWorld (RInt now :: rest) tr)
  = (Val st, after [ (CTime, RInt now) ] rest tr).
Proof.
  intros Hfd Hearly. unfold keepalive_step. run. reflexivity.
Qed.

Lemma keepalive_step_off clientFd st :
  clientFd <= 0 -> keepalive_step L clientFd st = ret st.
Proof.
  intros Hfd. unfold keepalive_step. now ztests.
Qed.

End KeepaliveFacts.

Lemma geometry_differs_same ti : geometry_differs ti ti = false.
Proof.
  unfold geometry_differs. now rewrite !Z.eqb_refl.
Qed.

Section QuietPasses.
Context {codec : Codec}.
Variable L : Locals.
Variable clientFd : Z.
Variable p : winsize_ptr.
Variable obs : winsize.
Hypothesis clientFd_positive : 0 < clientFd.
Hypothesis ws_given : ws L = Some p.

Ltac pass :=
  cbn [main_loop];
  unfold quiet_pass, probe_pass, reconnect_pass, pass_head,
    tick, tick_at, tick_body, after_input, input_step, drain_step,
    keepalive_step, invalid_fd_step, geometry_step;
  rewrite ws_given; run.

Lemma main_loop_quiet_pass fuel st now rest tr :
  lastTerminalInfo st = TerminalInfo_of obs ->
  now <= keepaliveTime st ->
  main_loop L (S fuel) st
    (mkWorld (map snd (quiet_pass L clientFd p obs now) ++ rest) tr)
  = main_loop L fuel st (after (quiet_pass L clientFd p obs now) rest tr).
Proof.
  intros Hgeo Hearly. pass.
  rewrite ?Hgeo, geometry_differs_same. run. reflexivity.
Qed.

Lemma main_loop_probe_pass fuel st now now' rest tr :
  lastTerminalInfo st = TerminalInfo_of obs ->
  keepaliveTime st < now -> waitingOnKeepalive st = false ->
  main_loop L (S fuel) st
    (mkWorld (map snd (probe_pass L clientFd p obs now now') ++ rest) tr)
  = main_loop L fuel
      (mkLoopState (now' + keepalive_secs L) true (lastTerminalInfo st))
      (after (probe_pass L clientFd p obs now now') rest tr).
Proof.
  intros Hgeo Hlate Hidle. pass.
  rewrite Hidle. run.
  rewrite ?Hgeo, geometry_differs_same. run. reflexivity.
Qed.

Lemma main_loop_reconnect_pass fuel st now now' rest tr :
  lastTerminalInfo st = TerminalInfo_of obs ->
  keepaliveTime st < now -> waitingOnKeepalive st = true ->
  main_loop L (S fuel) st
    (mkWorld (map snd (reconnect_pass L clientFd p obs now now') ++ rest) tr)
  = main_loop L fuel
      (mkLoopState (now' + keepalive_secs L) false (lastTerminalInfo st))
      (after (reconnect_pass L clientFd p obs now now') rest tr).
Proof.
  intros Hgeo Hlate Hwait. pass.
  rewrite Hwait. run.
  rewrite ?Hgeo, geometry_differs_same. run. reflexivity.
Qed.

Lemma after_app evs1 evs2 rest tr :
  after (evs1 ++ evs2) rest tr = after evs2 rest (tr ++ evs1).
Proof. unfold after. now rewrite app_assoc. Qed.

Lemma main_loop_quiet_passes clock : forall fuel st rest tr,
  lastTerminalInfo st = TerminalInfo_of obs ->
  Forall (fun now => now <= keepaliveTime st) clock ->
  main_loop L (List.length clock + fuel) st
    (mkWorld (map snd (quiet_passes L clientFd p obs clock) ++ rest) tr)
  = main_loop L fuel st (after (quiet_passes L clientFd p obs clock) rest tr).
Proof.
  induction clock as [|now clock IH]; intros fuel st rest tr Hgeo Hclock.
  - cbn. unfold after. now rewrite app_nil_r.
  - inversion Hclock as [|? ? Hnow Hrest]; subst.
    cbn [quiet_passes flat_map List.length Nat.add].
    rewrite map_app, <- app_assoc, main_loop_quiet_pass by assumption.
    unfold after at 1. rewrite IH by assumption.
    now rewrite after_app.
Qed.

Lemma transport_work_quiet_passes clock :
  filter transport_work (map fst (quiet_passes L clientFd p obs clock)) = [].
Proof.
  unfold quiet_passes.
  induction clock as [|now clock IH]; [reflexivity|].
  simpl. exact IH.
Qed.

End QuietPasses.

(** ** The keepalive state machine *)

(** C1, as the code has it.  On a pass with a positive transport descriptor
    the keepalive block reads the clock; while the reading has not passed the
    deadline (reading [<=] deadline) it does nothing more.  With the reading
    past the deadline it reads the clock again, moves the deadline to that
    reading plus the interval, and then: with a probe outstanding, requests
    exactly one reconnect and is idle again; with none outstanding, sends
    exactly one keepalive probe and has one outstanding.
    Consequently, over passes in which nothing is ready, starting idle: no
    probe while the clock has not passed the deadline, exactly one probe on
    the first pass that finds it passed, nothing while the clock has not
    passed the new deadline, and exactly one reconnect on the first pass that
    finds that one passed, after which the machine is idle again. *)
Theorem C1_keepalive_state_machine :
  forall {codec : Codec} (L : Locals) (clientFd : Z) (st : LoopState),
    0 < clientFd ->
    (forall now rest tr,
        now <= keepaliveTime st ->
        keepalive_step L clientFd st (mkWorld (RInt now :: rest) tr)
        = (Val st, after [ (CTime, RInt now) ] rest tr))
    /\ (forall now now' rest tr,
        keepaliveTime st < now -> waitingOnKeepalive st = true ->
        keepalive_step L clientFd st
          (mkWorld (RInt now :: RInt now' :: RUnit :: rest) tr)
        = (Val (mkLoopState (now' + keepalive_secs L) false (lastTerminalInfo st)),
           after [ (CTime, RInt now); (CTime, RInt now');
                   (CCloseSocketAndMaybeReconnect, RUnit) ] rest tr))
    /\ (forall now now' rest tr,
        keepaliveTime st < now -> waitingOnKeepalive st = false ->
        keepalive_step L clientFd st
          (mkWorld (RInt now :: RInt now' :: RUnit :: rest) tr)
        = (Val (mkLoopState (now' + keepalive_secs L) true (lastTerminalInfo st)),
           after [ (CTime, RInt now); (CTime, RInt now');
                   (CWritePacket (mkPacket KEEP_ALIVE []), RUnit) ] rest tr))
    /\ (forall p obs clock1 t1 t1' clock2 t2 t2' fuel rest tr,
        ws L = Some p ->
        waitingOnKeepalive st = false ->
        lastTerminalInfo st = TerminalInfo_of obs ->
        Forall (fun now => now <= keepaliveTime st) clock1 ->
        keepaliveTime st < t1 ->
        Forall (fun now => now <= t1' + keepalive_secs L) clock2 ->
        t1' + keepalive_secs L < t2 ->
        let evs :=
          quiet_passes L clientFd p obs clock1
          ++ probe_pass L clientFd p obs t1 t1'
          ++ quiet_passes L clientFd p obs clock2
          ++ reconnect_pass L clientFd p obs t2 t2' in
        main_loop L (List.length clock1 + S (List.length clock2 + S fuel)) st
          (mkWorld (map snd evs ++ rest) tr)
        = main_loop L fuel
            (mkLoopState (t2' + keepalive_secs L) false (lastTerminalInfo st))
            (after evs rest tr)
        /\ filter transport_work (map fst evs)
           = [ CWritePacket (mkPacket KEEP_ALIVE []);
               CCloseSocketAndMaybeReconnect ]).
Proof.
  intros codec L clientFd st Hfd. split; [|split; [|split]].
  - intros. now apply keepalive_step_early.
  - intros. now apply keepalive_step_reconnect.
  - intros. now apply keepalive_step_probe.
  - intros p obs clock1 t1 t1' clock2 t2 t2' fuel rest tr
      Hws Hidle Hgeo Hclock1 Ht1 Hclock2 Ht2 evs.
    subst evs. split.
    + rewrite !map_app, <- !app_assoc.
      rewrite (main_loop_quiet_passes L clientFd p obs) by assumption.
      unfold after at 1.
      rewrite (main_loop_probe_pass L clientFd p obs) by assumption.
      unfold after at 1.
      rewrite (main_loop_quiet_passes L clientFd p obs) by assumption.
      unfold after at 1.
      rewrite (main_loop_reconnect_pass L clientFd p obs)
        by (cbn; auto; lia).
      unfold after. cbn [lastTerminalInfo]. now rewrite <- !app_assoc.
    + rewrite !map_app, !filter_app.
      rewrite !(transport_work_quiet_passes L clientFd p obs). reflexivity.
Qed.

(** One quiet run on the sample locals (interval 5): the deadline is 100;
    passes at 98 and 100 do nothing, the pass at 101 probes, passes at 103
    and 106 do nothing, the pass at 107 asks for the reconnect.  And the
    keepalive block alone, idle, at the clock reading 101. *)
Lemma C1_keepalive_state_machine_witness :
  let obs := mkWinsize 24 80 0 0 in
  let st := mkLoopState 100 false (TerminalInfo_of obs) in
  let evs :=
    quiet_passes sample_locals 7 sample_ws obs [98; 100]
    ++ probe_pass sample_locals 7 sample_ws obs 101 101
    ++ quiet_passes sample_locals 7 sample_ws obs [103; 106]
    ++ reconnect_pass sample_locals 7 sample_ws obs 107 107 in
  (@main_loop sample_codec sample_locals 6 st
     (mkWorld (map snd evs ++ [RBool true]) [])
   = @main_loop sample_codec sample_locals 0
       (mkLoopState 112 false (TerminalInfo_of obs))
       (after evs [RBool true] [])
   /\ filter transport_work (map fst evs)
      = [ CWritePacket (mkPacket KEEP_ALIVE []); CCloseSocketAndMaybeReconnect ])
  /\ keepalive_step sample_locals 7 st (mkWorld [RInt 101; RInt 102; RUnit] [])
     = (Val (mkLoopState 107 true (TerminalInfo_of obs)),
        mkWorld []
          [ (CTime, RInt 101); (CTime, RInt 102);
            (CWritePacket (mkPacket KEEP_ALIVE []), RUnit) ]).
Proof.
  intros obs st evs. split.
  - apply (proj2 (proj2 (proj2
             (@C1_keepalive_state_machine sample_codec sample_locals 7 st
                ltac:(lia))))
             sample_ws obs [98; 100] 101 101 [103; 106] 107 107 0%nat
             [RBool true] []).
    + reflexivity.
    + reflexivity.
    + reflexivity.
    + repeat constructor; cbn; lia.
    + cbn; lia.
    + repeat constructor; cbn; lia.
    + cbn; lia.
  - apply (proj1 (proj2 (proj2
             (@C1_keepalive_state_machine sample_codec sample_locals 7 st
                ltac:(lia))))
             101 102 [] []).
    + cbn; lia.
    + reflexivity.
Defined.

(** C1 as stated fails where the clock reading equals the deadline: the
    machine is idle, the descriptor is 7, the deadline is 100 and the clock
    reads 100, yet the block sends no probe, stays idle and leaves the
    deadline where it was. *)
Lemma C1_counterexample :
  let st := mkLoopState 100 false TerminalInfo_default in
  100 >= keepaliveTime st
  /\ keepalive_step sample_locals 7 st
       (mkWorld [RInt 100; RInt 100; RUnit] [])
     = (Val st, mkWorld [RInt 100; RUnit] [ (CTime, RInt 100) ])
  /\ keepalive_step sample_locals 7 st
       (mkWorld [RInt 100; RInt 100; RUnit] [])
     <> (Val (mkLoopState 105 true TerminalInfo_default),
         mkWorld []
           [ (CTime, RInt 100); (CTime, RInt 100);
             (CWritePacket (mkPacket KEEP_ALIVE []), RUnit) ]).
Proof.
  cbn. repeat split; [lia | discriminate].
Qed.

(** ** Passes without a usable descriptor *)

Section OfflineFacts.
Context {codec : Codec}.
Variable L : Locals.

Lemma drain_step_off clientFd rfd st :
  clientFd <= 0 -> drain_step L clientFd rfd st = ret st.
Proof.
  intros Hfd. unfold drain_step. now ztests.
Qed.

Lemma watched_off clientFd : clientFd <= 0 -> watched L clientFd = [inFd L].
Proof.
  intros Hfd. unfold watched. now ztests.
Qed.

Lemma maxfd_off clientFd : clientFd <= 0 -> maxfd L clientFd = inFd L.
Proof.
  intros Hfd. unfold maxfd. now ztests.
Qed.

Lemma offline_calls_input c : input_calls L c = true -> offline_calls L c = true.
Proof. unfold offline_calls. now intros ->. Qed.

Lemma offline_calls_geometry c : geometry_calls c = true -> offline_calls L c = true.
Proof. unfold offline_calls. intros ->. apply orb_true_r. Qed.

Lemma offline_calls_no_transport_work c :
  select_calls c || offline_calls L c = true -> transport_work c = false.
Proof.
  unfold offline_calls. destruct c; cbn; try discriminate; try reflexivity.
  destruct (getHeader p); cbn; try discriminate; reflexivity.
Qed.

Lemma sat_tick_body_offline clientFd rfd st :
  clientFd <= 0 ->
  sat (only (offline_calls L))
      (fun r => forall st', r = Continue st' ->
         waitingOnKeepalive st'
         = waitingOnKeepalive (invalid_fd_step clientFd st))
      (tick_body L clientFd rfd st).
Proof.
  intros Hfd. unfold tick_body, after_input.
  eapply sat_only_bind.
  - apply sat_only_mono with (k := input_calls L);
      [apply offline_calls_input | apply sat_input_step].
  - intros [st1|] Hin; [|sat_only; discriminate].
    destruct (Hin st1 eq_refl) as [Hwait _].
    rewrite drain_step_off by assumption. apply sat_bind_ret. cbv beta.
    rewrite keepalive_step_off by assumption. apply sat_bind_ret. cbv beta.
    sat_only.
    + apply sat_only_mono with (k := geometry_calls);
        [apply offline_calls_geometry | apply sat_geometry_step].
    + cbn in *. intros st' [= <-].
      match goal with H : _ /\ _ |- _ => destruct H as [-> _] end.
      unfold invalid_fd_step. destruct (clientFd <? 0); cbn; congruence.
Qed.

Lemma sat_tick_at_offline clientFd st :
  clientFd <= 0 ->
  sat (only (fun c => select_calls c || offline_calls L c))
      (fun r => forall st', r = Continue st' ->
         waitingOnKeepalive st'
         = waitingOnKeepalive (invalid_fd_step clientFd st))
      (tick_at L clientFd st).
Proof.
  intros Hfd. unfold tick_at, select.
  eapply sat_only_bind; [apply sat_only_ask; reflexivity|].
  intros rfd _.
  apply sat_only_mono with (k := offline_calls L);
    [intros c ->; apply orb_true_r|].
  eapply sat_catch_runtime_error
    with (P1 := only (offline_calls L)) (P2 := only (offline_calls L));
    [auto | apply only_app | now apply sat_tick_body_offline |].
  sat_only. discriminate.
Qed.

(** What [sat] says about one run. *)
Lemma sat_run {A} (k : Call -> bool) (Q : A -> Prop) (m : M A) w :
  sat (only k) Q m ->
  exists evs,
    trace (snd (m w)) = trace w ++ evs
    /\ script w = map snd evs ++ script (snd (m w))
    /\ only k evs
    /\ (forall a, fst (m w) = Val a -> Q a).
Proof.
  intros H. destruct (H w) as [(evs & T & S & O) HQ]. eauto 6.
Qed.

End OfflineFacts.

Lemma tick_offline_run {codec : Codec} (L : Locals) st clientFd rest tr :
  clientFd <= 0 ->
  exists evs,
    trace (snd (tick L st (mkWorld (RInt clientFd :: rest) tr)))
    = tr ++ (CGetSocketFd, RInt clientFd) :: evs
    /\ count_calls transport_work evs = 0%nat
    /\ (forall st',
          fst (tick L st (mkWorld (RInt clientFd :: rest) tr)) = Val (Continue st') ->
          waitingOnKeepalive st'
          = waitingOnKeepalive (invalid_fd_step clientFd st)).
Proof.
  intros Hfd.
  destruct (sat_run _ _ _ (mkWorld rest (tr ++ [(CGetSocketFd, RInt clientFd)]))
              (sat_tick_at_offline L clientFd st Hfd))
    as (evs & T & _ & O & HQ).
  exists evs. unfold tick. run. cbn in T. rewrite T.
  rewrite <- app_assoc. repeat split.
  - eapply only_count_zero; [|exact O].
    apply offline_calls_no_transport_work.
  - intros st' Hres. exact (HQ _ Hres st' eq_refl).
Qed.

(** C10.  The rule of lines 198-200 clears the pending-probe flag only for a
    negative descriptor, while the drain and the keepalive block do nothing
    unless the descriptor is positive.  So on every pass that finds the
    descriptor 0: no inbound packet is asked for, no probe is sent, no
    reconnect is requested, and a pass that goes on to the next leaves the
    flag as it found it. *)
Theorem C10_descriptor_zero_asymmetry :
  forall {codec : Codec} (L : Locals) (st : LoopState),
    (forall clientFd,
        waitingOnKeepalive (invalid_fd_step clientFd st)
        = if clientFd <? 0 then false else waitingOnKeepalive st)
    /\ (forall clientFd rfd,
        clientFd <= 0 ->
        drain_step L clientFd rfd st = ret st
        /\ keepalive_step L clientFd st = ret st)
    /\ (forall rest tr,
        exists evs,
          trace (snd (tick L st (mkWorld (RInt 0 :: rest) tr)))
          = tr ++ (CGetSocketFd, RInt 0) :: evs
          /\ count_calls transport_work evs = 0%nat
          /\ (forall st',
                fst (tick L st (mkWorld (RInt 0 :: rest) tr)) = Val (Continue st') ->
                waitingOnKeepalive st' = waitingOnKeepalive st)).
Proof.
  intros codec L st. split; [|split].
  - intros clientFd. unfold invalid_fd_step. now destruct (clientFd <? 0).
  - intros clientFd rfd Hfd. split.
    + now apply drain_step_off.
    + now apply keepalive_step_off.
  - intros rest tr.
    destruct (tick_offline_run L st 0 rest tr ltac:(lia)) as (evs & T & C & HQ).
    exists evs. repeat split; assumption.
Qed.

Lemma C10_descriptor_zero_asymmetry_witness :
  let st := mkLoopState 100 true TerminalInfo_default in
  @drain_step sample_codec sample_locals 0 [0] st = ret st
  /\ keepalive_step sample_locals 0 st = ret st.
Proof.
  intros st.
  apply (proj1 (proj2 (@C10_descriptor_zero_asymmetry sample_codec sample_locals st))
           0 [0]).
  lia.
Defined.

Section OfflinePasses.
Context {codec : Codec}.
Variable L : Locals.
Variable p : winsize_ptr.
Variable obs : winsize.
Hypothesis ws_given : ws L = Some p.

Ltac pass :=
  cbn [main_loop];
  unfold offline_pass, inbound_keepalive_pass, pass_head,
    tick, tick_at, tick_body, after_input, input_step, drain_step, script_fuel,
    keepalive_step, invalid_fd_step, geometry_step, dispatch, FD_ISSET;
  rewrite ws_given; run.

Lemma main_loop_offline_pass clientFd fuel st rest tr :
  clientFd < 0 ->
  lastTerminalInfo st = TerminalInfo_of obs ->
  main_loop L (S fuel) st
    (mkWorld (map snd (offline_pass L clientFd p obs) ++ rest) tr)
  = main_loop L fuel (set_waitingOnKeepalive st false)
      (after (offline_pass L clientFd p obs) rest tr).
Proof.
  intros Hfd Hgeo. pass.
  rewrite ?Hgeo, geometry_differs_same. run. reflexivity.
Qed.

Lemma main_loop_inbound_keepalive_pass clientFd fuel st now rest tr :
  0 < clientFd -> clientFd <> inFd L ->
  lastTerminalInfo st = TerminalInfo_of obs ->
  now <= keepaliveTime st ->
  main_loop L (S fuel) st
    (mkWorld (map snd (inbound_keepalive_pass L clientFd p obs now) ++ rest) tr)
  = main_loop L fuel (set_waitingOnKeepalive st false)
      (after (inbound_keepalive_pass L clientFd p obs now) rest tr).
Proof.
  intros Hfd Hin Hgeo Hearly. pass.
  rewrite ?Hgeo, geometry_differs_same. run. reflexivity.
Qed.

End OfflinePasses.

(** ** Local input *)

Section InputFacts.
Context {codec : Codec}.
Variable L : Locals.

Lemma after_input_calls_drain c :
  drain_calls L c = true -> after_input_calls L c = true.
Proof. unfold after_input_calls. now intros ->. Qed.

Lemma after_input_calls_keepalive c :
  keepalive_calls c = true -> after_input_calls L c = true.
Proof. unfold after_input_calls. intros ->. now rewrite orb_true_r. Qed.

Lemma after_input_calls_geometry c :
  geometry_calls c = true -> after_input_calls L c = true.
Proof. unfold after_input_calls. intros ->. now rewrite orb_true_r. Qed.

Lemma sat_after_input clientFd rfd st :
  sat (only (after_input_calls L))
      (fun r => exists st', r = Continue st') (after_input L clientFd rfd st).
Proof.
  unfold after_input.
  eapply sat_only_bind.
  { apply sat_only_mono with (k := drain_calls L);
      [apply after_input_calls_drain | apply sat_drain_step]. }
  intros st1 _. eapply sat_only_bind.
  { apply sat_only_mono with (k := keepalive_calls);
      [apply after_input_calls_keepalive | apply sat_keepalive_step]. }
  intros st2 _. eapply sat_only_bind.
  { apply sat_only_mono with (k := geometry_calls);
      [apply after_input_calls_geometry | apply sat_geometry_step]. }
  intros st3 _. sat_only. eauto.
Qed.

Lemma after_input_calls_no_sys_read c :
  after_input_calls L c = true
  \/ c = CTime
  \/ (exists p, c = CWritePacket p) ->
  is_sys_read c = false.
Proof.
  intros [H|[->|[p ->]]]; try reflexivity.
  destruct c; try reflexivity. discriminate.
Qed.

(** The pass from the point where [read] has returned a positive count. *)
Lemma sat_forward_input clientFd rfd st s :
  sat (only (fun c => negb (is_sys_read c))) (fun _ => True)
      (writePacket (mkPacket TERMINAL_BUFFER
                      (protoToString_TerminalBuffer {| buffer := s |})) ;;
       now <- time ;;
       after_input L clientFd rfd (set_keepaliveTime st (now + keepalive_secs L))).
Proof.
  unfold writePacket, time. sat_only.
  eapply sat_weaken; [| |apply sat_after_input]; [|trivial].
  intros evs. apply only_weaken. intros c Hc.
  rewrite after_input_calls_no_sys_read; auto.
Qed.

Lemma tick_body_reads clientFd rfd st rc buf rest tr :
  FD_ISSET (inFd L) rfd = true ->
  tick_body L clientFd rfd st (mkWorld (RData rc buf :: rest) tr)
  = (if rc <=? 0 then ret Break
     else
       writePacket (mkPacket TERMINAL_BUFFER
                      (protoToString_TerminalBuffer
                         {| buffer := firstn (Z.to_nat rc) buf |})) ;;
       now <- time ;;
       after_input L clientFd rfd (set_keepaliveTime st (now + keepalive_secs L)))
      (after [ (CSysRead (inFd L) ET_BUF_SIZE, RData rc buf) ] rest tr).
Proof.
  intros Hready. unfold tick_body, input_step. rewrite Hready.
  unfold sys_read, ask, bind at 1 2. cbn.
  destruct (rc <=? 0); cbn; [reflexivity|].
  unfold bind, after. cbn.
  destruct (writePacket _ _) as [[[]|e|] w1]; try reflexivity.
  destruct (time w1) as [[now|e|] w2]; reflexivity.
Qed.

End InputFacts.



(** ** Writing terminal data *)

Lemma firstn_add_skipn {A} (a b : nat) (l : list A) :
  firstn (a + b) l = firstn a l ++ firstn b (skipn a l).
Proof.
  revert l. induction a as [|a IH]; intros l; [reflexivity|].
  destruct l as [|x l]; cbn.
  - now rewrite firstn_nil.
  - now rewrite IH.
Qed.

Lemma total_app rcs rcs' : total (rcs ++ rcs') = total rcs + total rcs'.
Proof.
  unfold total. induction rcs as [|rc rcs IH]; cbn; [reflexivity|].
  rewrite IH. lia.
Qed.

Lemma in_parts_total len written rcs :
  in_parts len written rcs -> 0 <= total rcs.
Proof.
  revert written. induction rcs as [|rc rcs IH]; intros written; cbn.
  - lia.
  - intros (_ & Hrc & Hrest). specialize (IH _ Hrest). unfold total in IH. lia.
Qed.

Lemma in_parts_app len written rcs rcs' :
  in_parts len written (rcs ++ rcs')
  <-> in_parts len written rcs /\ in_parts len (written + total rcs) rcs'.
Proof.
  revert written. induction rcs as [|rc rcs IH]; intros written; cbn.
  - rewrite Z.add_0_r. tauto.
  - rewrite IH. fold (total rcs).
    replace (written + rc + total rcs) with (written + (rc + total rcs)) by lia.
    tauto.
Qed.

Lemma local_output_app fd evs evs' :
  local_output fd (evs ++ evs') = local_output fd evs ++ local_output fd evs'.
Proof. unfold local_output. apply flat_map_app. Qed.

Section WriteFacts.
Context {codec : Codec}.
Variable L : Locals.

Lemma write_events_app s written rcs rcs' :
  write_events L s written (rcs ++ rcs')
  = write_events L s written rcs
    ++ write_events L s (written + total rcs) rcs'.
Proof.
  revert written. induction rcs as [|rc rcs IH]; intros written; cbn.
  - now rewrite Z.add_0_r.
  - rewrite IH. fold (total rcs).
    now replace (written + rc + total rcs) with (written + (rc + total rcs)) by lia.
Qed.

(** The loop goes through answers that come [in_parts], and the fuel of
    [write_all] lasts. *)
Lemma write_loop_parts s rcs : forall fuel written rest tr,
  0 <= written ->
  in_parts (Z.of_nat (List.length s)) written rcs ->
  (Z.to_nat (Z.of_nat (List.length s) - written) <= fuel)%nat ->
  exists fuel',
    write_loop L fuel s written (mkWorld (map RInt rcs ++ rest) tr)
    = write_loop L fuel' s (written + total rcs)
        (after (write_events L s written rcs) rest tr)
    /\ (Z.to_nat (Z.of_nat (List.length s) - (written + total rcs)) <= fuel')%nat.
Proof.
  induction rcs as [|rc rcs IH]; intros fuel written rest tr Hw Hparts Hfuel.
  - exists fuel. cbn. unfold after. rewrite app_nil_r, Z.add_0_r. auto.
  - destruct Hparts as (Hlt & Hrc & Hparts).
    destruct fuel as [|fuel]; [lia|].
    destruct (IH fuel (written + rc) rest
                (tr ++ [(CSysWrite (outFd L) (skipn (Z.to_nat written) s)
                           (Z.of_nat (List.length s) - written), RInt rc)]))
      as (fuel' & Hrun & Hfuel'); [lia | assumption | lia |].
    exists fuel'. split.
    + cbn [write_loop map app]. run.
      cbn [write_events total fold_right]. fold (total rcs).
      rewrite Hrun. unfold after.
      rewrite <- app_assoc. cbn [app].
      now replace (written + rc + total rcs) with (written + (rc + total rcs)) by lia.
    + cbn [total fold_right]. fold (total rcs).
      now replace (written + (rc + total rcs)) with (written + rc + total rcs) by lia.
Qed.

Lemma write_all_complete s rcs rest tr :
  in_parts (Z.of_nat (List.length s)) 0 rcs ->
  Z.of_nat (List.length s) <= total rcs ->
  write_all L s (mkWorld (map RInt rcs ++ rest) tr)
  = (Val tt, after (write_events L s 0 rcs) rest tr).
Proof.
  intros Hparts Hall. unfold write_all.
  destruct (write_loop_parts s rcs (List.length s) 0 rest tr)
    as (fuel' & -> & _); [lia | assumption | lia |].
  destruct fuel'; cbn [write_loop]; now ztests.
Qed.

Lemma write_all_error s rcs bad rest tr :
  in_parts (Z.of_nat (List.length s)) 0 rcs ->
  total rcs < Z.of_nat (List.length s) ->
  bad <= 0 ->
  write_all L s (mkWorld (map RInt (rcs ++ [bad]) ++ rest) tr)
  = (Val tt, after (write_events L s 0 (rcs ++ [bad])) rest tr).
Proof.
  intros Hparts Hshort Hbad. unfold write_all.
  rewrite map_app, <- app_assoc.
  destruct (write_loop_parts s rcs (List.length s) 0 (map RInt [bad] ++ rest) tr)
    as (fuel' & -> & Hfuel); [lia | assumption | lia |].
  destruct fuel' as [|fuel']; [lia|].
  rewrite write_events_app. cbn [write_loop map app write_events]. run.
  reflexivity.
Qed.

Lemma local_output_parts s rcs : forall written,
  0 <= written ->
  in_parts (Z.of_nat (List.length s)) written rcs ->
  local_output (outFd L) (write_events L s written rcs)
  = firstn (Z.to_nat (total rcs)) (skipn (Z.to_nat written) s).
Proof.
  induction rcs as [|rc rcs IH]; intros written Hw Hparts; [reflexivity|].
  destruct Hparts as (Hlt & Hrc & Hparts).
  cbn [write_events local_output flat_map]. rewrite Z.eqb_refl.
  fold (local_output (outFd L) (write_events L s (written + rc) rcs)).
  rewrite IH by (assumption || lia).
  cbn [total fold_right]. fold (total rcs).
  pose proof (in_parts_total _ _ _ Hparts) as Htot.
  rewrite (Z2Nat.inj_add rc (total rcs)) by lia.
  rewrite firstn_add_skipn, skipn_skipn.
  now replace (Z.to_nat (written + rc))
    with (Z.to_nat rc + Z.to_nat written)%nat by lia.
Qed.

Lemma local_output_error s rcs bad :
  in_parts (Z.of_nat (List.length s)) 0 rcs ->
  bad <= 0 ->
  local_output (outFd L) (write_events L s 0 (rcs ++ [bad]))
  = firstn (Z.to_nat (total rcs)) s.
Proof.
  intros Hparts Hbad. rewrite write_events_app, local_output_app.
  rewrite local_output_parts by (assumption || lia).
  cbn. rewrite Z.eqb_refl.
  replace (Z.to_nat bad) with 0%nat by lia.
  cbn. now rewrite app_nil_r.
Qed.

End WriteFacts.

Lemma bind_ask {A B} c (dec : Resp -> option (exn + A)) (f : A -> M B)
    r a rest tr :
  dec r = Some (inr a) ->
  bind (ask c dec) f (mkWorld (r :: rest) tr) = f a (mkWorld rest (tr ++ [(c, r)])).
Proof.
  intros H. unfold bind, ask. cbn. now rewrite H.
Qed.

Section DispatchFacts.
Context {codec : Codec}.
Variable L : Locals.

Lemma dispatch_terminal_buffer payload tb st w :
  stringToProto_TerminalBuffer payload = inr tb ->
  dispatch L (mkPacket TERMINAL_BUFFER payload) st w
  = (write_all L (buffer tb) ;;
     now <- time ;;
     ret (set_keepaliveTime st (now + keepalive_secs L))) w.
Proof.
  intros Hdec. unfold dispatch. cbn [getHeader getPayload]. now rewrite Hdec.
Qed.

Lemma dispatch_complete payload tb st rcs now rest tr :
  stringToProto_TerminalBuffer payload = inr tb ->
  in_parts (Z.of_nat (List.length (buffer tb))) 0 rcs ->
  Z.of_nat (List.length (buffer tb)) <= total rcs ->
  dispatch L (mkPacket TERMINAL_BUFFER payload) st
    (mkWorld (map RInt rcs ++ RInt now :: rest) tr)
  = (Val (set_keepaliveTime st (now + keepalive_secs L)),
     after (write_events L (buffer tb) 0 rcs ++ [ (CTime, RInt now) ]) rest tr).
Proof.
  intros Hdec Hparts Hall. rewrite (dispatch_terminal_buffer _ tb) by assumption.
  unfold bind at 1. rewrite write_all_complete by assumption.
  unfold after. run. reflexivity.
Qed.

Lemma dispatch_error payload tb st rcs bad now rest tr :
  stringToProto_TerminalBuffer payload = inr tb ->
  in_parts (Z.of_nat (List.length (buffer tb))) 0 rcs ->
  total rcs < Z.of_nat (List.length (buffer tb)) ->
  bad <= 0 ->
  dispatch L (mkPacket TERMINAL_BUFFER payload) st
    (mkWorld (map RInt (rcs ++ [bad]) ++ RInt now :: rest) tr)
  = (Val (set_keepaliveTime st (now + keepalive_secs L)),
     after (write_events L (buffer tb) 0 (rcs ++ [bad]) ++ [ (CTime, RInt now) ])
       rest tr).
Proof.
  intros Hdec Hparts Hshort Hbad.
  rewrite (dispatch_terminal_buffer _ tb) by assumption.
  unfold bind at 1. rewrite write_all_error by assumption.
  unfold after. run. reflexivity.
Qed.

End DispatchFacts.

(** C6.  A terminal-data packet that decodes to the bytes [s] is written by
    calls that are each handed what is still unwritten of [s].  When the
    calls take [s] in parts (each answer positive, until the answers add up
    to the length), the output receives [s] byte for byte.  When a call
    answers with a result that is not positive, the output keeps the bytes
    taken before it, the rest of the packet is dropped, the deadline is
    moved all the same, and the drain goes on with the next packet. *)
Theorem C6_terminal_data_write :
  forall {codec : Codec} (L : Locals) (st : LoopState) (payload : bytes)
         (tb : TerminalBuffer) (rcs : list Z) (now : Z) (rest : list Resp)
         (tr : list Event),
    stringToProto_TerminalBuffer payload = inr tb ->
    in_parts (Z.of_nat (List.length (buffer tb))) 0 rcs ->
    (Z.of_nat (List.length (buffer tb)) <= total rcs ->
     dispatch L (mkPacket TERMINAL_BUFFER payload) st
       (mkWorld (map RInt rcs ++ RInt now :: rest) tr)
     = (Val (set_keepaliveTime st (now + keepalive_secs L)),
        after (write_events L (buffer tb) 0 rcs ++ [ (CTime, RInt now) ]) rest tr)
     /\ local_output (outFd L) (write_events L (buffer tb) 0 rcs) = buffer tb)
    /\ (forall bad fuel,
        total rcs < Z.of_nat (List.length (buffer tb)) ->
        bad <= 0 ->
        let packet := mkPacket TERMINAL_BUFFER payload in
        let writes := write_events L (buffer tb) 0 (rcs ++ [bad]) in
        local_output (outFd L) writes = firstn (Z.to_nat (total rcs)) (buffer tb)
        /\ drain_loop L (S fuel) st
             (mkWorld (RBool true :: RPacket (Some packet)
                       :: map RInt (rcs ++ [bad]) ++ RInt now :: rest) tr)
           = drain_loop L fuel (set_keepaliveTime st (now + keepalive_secs L))
               (after ((CHasData, RBool true) :: (CRead, RPacket (Some packet))
                       :: writes ++ [ (CTime, RInt now) ]) rest tr)).
Proof.
  intros codec L st payload tb rcs now rest tr Hdec Hparts. split.
  - intros Hall. split.
    + now apply dispatch_complete.
    + rewrite local_output_parts by (assumption || lia).
      cbn [Z.to_nat skipn]. apply firstn_all2. lia.
  - intros bad fuel Hshort Hbad packet writes. subst packet writes. split.
    + now apply local_output_error.
    + cbn [drain_loop]. unfold hasData, read.
      rewrite (bind_ask _ _ _ _ true) by reflexivity. cbv beta iota.
      rewrite (bind_ask _ _ _ _ (Some (mkPacket TERMINAL_BUFFER payload)))
        by reflexivity.
      cbv beta iota. unfold bind at 1.
      rewrite (dispatch_error L payload tb) by assumption.
      unfold after. now rewrite <- !app_assoc.
Qed.

(** The payload "hello", taken as 2 bytes and then 3; and taken as 2 bytes
    before a call fails. *)
Lemma C6_terminal_data_write_witness :
  let hello := [x68; x65; x6c; x6c; x6f] in
  let st := mkLoopState 100 false TerminalInfo_default in
  let packet := mkPacket TERMINAL_BUFFER hello in
  let writes :=
    [ (CSysWrite 4 hello 5, RInt 2); (CSysWrite 4 [x6c; x6c; x6f] 3, RInt 3) ] in
  let failed :=
    [ (CSysWrite 4 hello 5, RInt 2); (CSysWrite 4 [x6c; x6c; x6f] 3, RInt (-1)) ] in
  (@dispatch sample_codec sample_locals packet st
     (mkWorld [RInt 2; RInt 3; RInt 200] [])
   = (Val (mkLoopState 205 false TerminalInfo_default),
      mkWorld [] (writes ++ [ (CTime, RInt 200) ]))
   /\ local_output 4 writes = hello)
  /\ (local_output 4 failed = [x68; x65]
      /\ @drain_loop sample_codec sample_locals 1 st
           (mkWorld [RBool true; RPacket (Some packet);
                     RInt 2; RInt (-1); RInt 200; RBool false] [])
         = @drain_loop sample_codec sample_locals 0
             (mkLoopState 205 false TerminalInfo_default)
             (mkWorld [RBool false]
                ((CHasData, RBool true) :: (CRead, RPacket (Some packet))
                 :: failed ++ [ (CTime, RInt 200) ]))).
Proof.
  intros hello st packet writes failed. split.
  - apply (proj1 (@C6_terminal_data_write sample_codec sample_locals st hello
                    {| buffer := hello |} [2; 3] 200 [] [] eq_refl
                    ltac:(cbn; lia))).
    cbn. lia.
  - apply (proj2 (@C6_terminal_data_write sample_codec sample_locals st hello
                    {| buffer := hello |} [2] 200 [RBool false] [] eq_refl
                    ltac:(cbn; lia)) (-1) 0%nat).
    + cbn. lia.
    + lia.
Defined.

(** ** The handshake *)

Lemma PacketType_eqb_eq a b : PacketType_eqb a b = true <-> a = b.
Proof.
  destruct a, b; cbn; split; try congruence; try discriminate.
  - intros H. apply Z.eqb_eq in H. now subst.
  - intros [= ->]. apply Z.eqb_refl.
Qed.

Lemma PacketType_eqb_neq a b : PacketType_eqb a b = false <-> a <> b.
Proof.
  rewrite <- PacketType_eqb_eq. destruct (PacketType_eqb a b); intuition congruence.
Qed.

Section HandshakeFacts.
Context {codec : Codec}.

(** The three ways a poll ends without a decoded response. *)

Lemma poll_once_invalid fd rest tr :
  fd < 0 ->
  poll_once (mkWorld (RInt fd :: RUnit :: rest) tr)
  = (Val PollNext, after [ (CGetSocketFd, RInt fd); (CSleep 1, RUnit) ] rest tr).
Proof.
  intros Hfd. unfold poll_once. run. reflexivity.
Qed.

Lemma poll_once_timeout fd rfd rest tr :
  0 <= fd -> FD_ISSET fd rfd = false ->
  poll_once (mkWorld (RInt fd :: RReady rfd :: rest) tr)
  = (Val PollNext,
     after [ (CGetSocketFd, RInt fd); (CSelect (fd + 1) [fd] 1 0, RReady rfd) ]
       rest tr).
Proof.
  intros Hfd Hready. unfold poll_once. run. rewrite Hready. run. reflexivity.
Qed.

Lemma poll_once_nothing_read fd rfd rest tr :
  0 <= fd -> FD_ISSET fd rfd = true ->
  poll_once (mkWorld (RInt fd :: RReady rfd :: RPacket None :: rest) tr)
  = (Val PollNext,
     after [ (CGetSocketFd, RInt fd); (CSelect (fd + 1) [fd] 1 0, RReady rfd);
             (CReadPacket, RPacket None) ] rest tr).
Proof.
  intros Hfd Hready. unfold poll_once. run. rewrite Hready. run. reflexivity.
Qed.

(** A poll that decodes a response. *)

Lemma poll_once_response fd rfd p rest tr :
  0 <= fd -> FD_ISSET fd rfd = true ->
  poll_once (mkWorld (RInt fd :: RReady rfd :: RPacket (Some p) :: rest) tr)
  = (if negb (PacketType_eqb (getHeader p) INITIAL_RESPONSE)
     then ret PollReturn1
     else
       initialResponse <- decode (stringToProto_InitialResponse (getPayload p)) ;;
       if has_error initialResponse then ret PollReturn1 else ret PollBreak)
      (after (response_events fd rfd p) rest tr).
Proof.
  intros Hfd Hready. unfold poll_once, response_events. run. rewrite Hready. run.
  destruct (PacketType_eqb _ _); cbn; [|reflexivity].
  destruct (stringToProto_InitialResponse _) as [e|ir]; cbn; [reflexivity|].
  destruct (has_error ir); reflexivity.
Qed.

Lemma poll_once_valid fd rfd p ir rest tr :
  0 <= fd -> FD_ISSET fd rfd = true ->
  getHeader p = INITIAL_RESPONSE ->
  stringToProto_InitialResponse (getPayload p) = inr ir ->
  has_error ir = false ->
  poll_once (mkWorld (RInt fd :: RReady rfd :: RPacket (Some p) :: rest) tr)
  = (Val PollBreak, after (response_events fd rfd p) rest tr).
Proof.
  intros Hfd Hready Hkind Hdec Herr.
  rewrite poll_once_response by assumption.
  rewrite Hkind, Hdec. cbn. now rewrite Herr.
Qed.

Lemma poll_once_rejected fd rfd p rest tr :
  0 <= fd -> FD_ISSET fd rfd = true ->
  (getHeader p <> INITIAL_RESPONSE
   \/ exists ir, stringToProto_InitialResponse (getPayload p) = inr ir
                 /\ has_error ir = true) ->
  poll_once (mkWorld (RInt fd :: RReady rfd :: RPacket (Some p) :: rest) tr)
  = (Val PollReturn1, after (response_events fd rfd p) rest tr).
Proof.
  intros Hfd Hready Hbad.
  rewrite poll_once_response by assumption.
  destruct (PacketType_eqb (getHeader p) INITIAL_RESPONSE) eqn:Hkind; cbn;
    [|reflexivity].
  destruct Hbad as [Hbad|(ir & Hdec & Herr)].
  - apply PacketType_eqb_eq in Hkind. contradiction.
  - rewrite Hdec. cbn. now rewrite Herr.
Qed.

(** Polls in a row. *)

Lemma poll_loop_idle n : forall m w w',
  idle_polls n w = Some w' -> poll_loop (n + m) w = poll_loop m w'.
Proof.
  unfold idle_polls.
  induction n as [|n IH]; intros m w w' H; cbn in H.
  - now injection H as ->.
  - cbn [Nat.add poll_loop]. unfold bind at 1.
    destruct (poll_once w) as [[[]|e|] w1]; try discriminate.
    cbn in H. now apply IH.
Qed.

Lemma poll_loop_exhausted w w' :
  idle_polls 3 w = Some w' -> poll_loop 3 w = (Val AttemptFail, w').
Proof.
  intros H. exact (poll_loop_idle 3 0 w w' H).
Qed.

Lemma poll_loop_decided j w w1 r w2 :
  (j < 3)%nat -> idle_polls j w = Some w1 ->
  r <> PollNext -> poll_once w1 = (Val r, w2) ->
  poll_loop 3 w
  = (Val (match r with PollBreak => AttemptOk | _ => AttemptReturn1 end), w2).
Proof.
  intros Hj Hidle Hr Hpoll.
  replace 3%nat with (j + S (2 - j))%nat by lia.
  rewrite (poll_loop_idle j _ w w1 Hidle).
  cbn [poll_loop]. unfold bind at 1. rewrite Hpoll.
  destruct r; [contradiction | reflexivity ..].
Qed.

(** One attempt. *)

Lemma attempt_body_opened rest tr :
  attempt_body (mkWorld (RBool true :: RUnit :: rest) tr)
  = poll_loop 3 (after opening_events rest tr).
Proof.
  unfold attempt_body, opening_events. run. reflexivity.
Qed.

Lemma attempt_not_connected rest tr :
  attempt (mkWorld (RBool false :: rest) tr)
  = (Val AttemptFail, after [ (CConnect, RBool false) ] rest tr).
Proof.
  unfold attempt, attempt_body. run. reflexivity.
Qed.

Lemma attempt_value w r w' :
  attempt_body w = (Val r, w') -> attempt w = (Val r, w').
Proof.
  intros H. unfold attempt, catch_all. now rewrite H.
Qed.

Lemma attempt_exception w e w' :
  attempt_body w = (Exc e, w') -> attempt w = (Val AttemptReturn1, w').
Proof.
  intros H. unfold attempt, catch_all. now rewrite H.
Qed.

Lemma attempt_no_exception w e : fst (attempt w) <> Exc e.
Proof.
  unfold attempt, catch_all.
  destruct (attempt_body w) as [[r|e'|] w']; cbn; discriminate.
Qed.

(** Attempts in a row. *)

Lemma connect_loop_failed n : forall fuel count w w',
  failed_attempts n w = Some w' ->
  count + Z.of_nat n < 3 ->
  connect_loop (n + fuel) count w = connect_loop fuel (count + Z.of_nat n) w'.
Proof.
  unfold failed_attempts.
  induction n as [|n IH]; intros fuel count w w' H Hc; cbn in H.
  - injection H as ->. cbn. f_equal. lia.
  - cbn [Nat.add connect_loop]. unfold bind at 1.
    destruct (attempt w) as [[[]|e|] w1]; try discriminate.
    cbn in H. cbv beta iota zeta. ztests.
    rewrite (IH fuel (count + 1) w1 w') by (assumption || lia).
    f_equal. lia.
Qed.

Lemma handshake_decided n w w1 r w2 :
  (n < 3)%nat -> failed_attempts n w = Some w1 ->
  r <> AttemptFail -> attempt w1 = (Val r, w2) ->
  handshake w
  = (Val (match r with AttemptOk => Connected | _ => ConnectError end), w2).
Proof.
  intros Hn Hfailed Hr Hattempt. unfold handshake.
  replace 3%nat with (n + S (2 - n))%nat by lia.
  rewrite (connect_loop_failed n _ 0 w w1) by (assumption || lia).
  cbn [connect_loop]. unfold bind at 1. rewrite Hattempt.
  destruct r; [contradiction | reflexivity ..].
Qed.

Lemma handshake_exhausted w w' :
  failed_attempts 3 w = Some w' -> handshake w = (Val ConnectError, w').
Proof.
  unfold handshake, failed_attempts. cbn [runs connect_loop]. unfold bind.
  destruct (attempt w) as [[[]|e|] w1]; try discriminate. cbn.
  destruct (attempt w1) as [[[]|e|] w2]; try discriminate. cbn.
  destruct (attempt w2) as [[[]|e|] w3]; try discriminate. cbn.
  now intros [= ->].
Qed.

(** The other way round: how a handshake that returns has gone. *)
Lemma handshake_inv w r w' :
  handshake w = (Val r, w') ->
  (r = ConnectError /\ failed_attempts 3 w = Some w')
  \/ exists n w1,
       (n < 3)%nat /\ failed_attempts n w = Some w1
       /\ ((r = Connected /\ attempt w1 = (Val AttemptOk, w'))
           \/ (r = ConnectError /\ attempt w1 = (Val AttemptReturn1, w'))).
Proof.
  unfold handshake, failed_attempts. cbn [runs connect_loop]. unfold bind.
  destruct (attempt w) as [[[]|e|] w1] eqn:A1; cbn; try discriminate.
  2,3: intros [= <- <-]; right; exists 0%nat, w; cbn; rewrite A1; auto 8.
  destruct (attempt w1) as [[[]|e|] w2] eqn:A2; cbn; try discriminate.
  2,3: intros [= <- <-]; right; exists 1%nat, w1; cbn; rewrite A1, A2; cbn; auto 8.
  destruct (attempt w2) as [[[]|e|] w3] eqn:A3; cbn; try discriminate.
  2,3: intros [= <- <-]; right; exists 2%nat, w2; cbn; rewrite A1; cbn;
    rewrite A2, A3; cbn; auto 8.
  intros [= <- <-]. left. auto.
Qed.

End HandshakeFacts.

(** Counting the polls of an attempt. *)

Lemma count_calls_app k evs evs' :
  count_calls k (evs ++ evs') = (count_calls k evs + count_calls k evs')%nat.
Proof.
  unfold count_calls. now rewrite filter_app, length_app.
Qed.

Lemma polls_at_most_mono a b evs :
  (a <= b)%nat -> polls_at_most a evs -> polls_at_most b evs.
Proof. intros Hab [Ho Hc]. split; [assumption | lia]. Qed.

Lemma polls_at_most_app a b evs evs' :
  polls_at_most a evs -> polls_at_most b evs' ->
  polls_at_most (a + b) (evs ++ evs').
Proof.
  intros [Ho Hc] [Ho' Hc']. split.
  - now apply only_app.
  - rewrite count_calls_app. lia.
Qed.

Lemma polls_at_most_bounded n evs : polls_at_most n evs -> polls_bounded evs.
Proof.
  intros [Ho _]. unfold polls_bounded. revert Ho. unfold only.
  apply Forall_impl. intros [c r] Hc nfds rfds tv_sec tv_usec. cbn in *.
  intros ->. cbn in Hc. apply andb_true_iff in Hc. destruct Hc as [H1 H0].
  apply Z.eqb_eq in H1, H0. auto.
Qed.

Lemma sat_polls_ret {A} n (Q : A -> Prop) a : Q a -> sat (polls_at_most n) Q (ret a).
Proof.
  intros HQ. apply sat_ret; [|assumption].
  split; [apply only_nil | cbn; lia].
Qed.

Lemma sat_polls_decode {A} n (r : exn + A) :
  sat (polls_at_most n) (fun _ => True) (decode r).
Proof.
  destruct r; [apply sat_throw | apply sat_ret]; trivial;
    (split; [apply only_nil | cbn; lia]).
Qed.

Lemma sat_polls_ask {A} c (dec : Resp -> option (exn + A)) :
  attempt_calls c = true ->
  sat (polls_at_most (if is_select c then 1 else 0)) (fun _ => True) (ask c dec).
Proof.
  intros Hc. apply sat_ask.
  - split; [apply only_nil | cbn; lia].
  - intros r. split; [now apply only_one|].
    unfold count_calls. cbn. destruct (is_select c); cbn; lia.
Qed.

Lemma sat_polls_bind {A B} a b n (Q : A -> Prop) (R : B -> Prop) m (f : A -> M B) :
  (a + b <= n)%nat ->
  sat (polls_at_most a) Q m -> (forall x, Q x -> sat (polls_at_most b) R (f x)) ->
  sat (polls_at_most n) R (bind m f).
Proof.
  intros Hn. apply sat_bind.
  - intros evs. apply polls_at_most_mono. lia.
  - intros e1 e2 H1 H2. apply polls_at_most_mono with (a := (a + b)%nat);
      [assumption | now apply polls_at_most_app].
Qed.

Section PollCount.
Context {codec : Codec}.

Lemma sat_polls_poll_once : sat (polls_at_most 1) (fun _ => True) poll_once.
Proof.
  unfold poll_once, getSocketFd, sleep_for, select, readPacket.
  apply sat_polls_bind with (a := 0%nat) (b := 1%nat) (Q := fun _ => True);
    [lia | now apply (sat_polls_ask CGetSocketFd) |].
  intros clientFd _. destruct (clientFd <? 0).
  - apply sat_polls_bind with (a := 0%nat) (b := 0%nat) (Q := fun _ => True);
      [lia | now apply (sat_polls_ask (CSleep 1)) |].
    intros _ _. now apply sat_polls_ret.
  - apply sat_polls_bind with (a := 1%nat) (b := 0%nat) (Q := fun _ => True);
      [lia | now apply (sat_polls_ask (CSelect (clientFd + 1) [clientFd] 1 0)) |].
    intros rfd _. destruct (FD_ISSET clientFd rfd); [|now apply sat_polls_ret].
    apply sat_polls_bind with (a := 0%nat) (b := 0%nat) (Q := fun _ => True);
      [lia | now apply (sat_polls_ask CReadPacket) |].
    intros [p|] _; [|now apply sat_polls_ret].
    destruct (negb _); [now apply sat_polls_ret|].
    apply sat_polls_bind with (a := 0%nat) (b := 0%nat) (Q := fun _ => True);
      [lia | apply sat_polls_decode |].
    intros ir _. destruct (has_error ir); now apply sat_polls_ret.
Qed.

Lemma sat_polls_poll_loop n : sat (polls_at_most n) (fun _ => True) (poll_loop n).
Proof.
  induction n as [|n IH]; cbn [poll_loop].
  - now apply sat_polls_ret.
  - apply sat_polls_bind with (a := 1%nat) (b := n) (Q := fun _ => True);
      [lia | apply sat_polls_poll_once |].
    intros [] _; [exact IH | now apply sat_polls_ret ..].
Qed.

Lemma sat_polls_attempt : sat (polls_at_most 3) (fun _ => True) attempt.
Proof.
  unfold attempt, attempt_body, connect, writePacket.
  apply sat_catch_all with (P1 := polls_at_most 3) (P2 := polls_at_most 0).
  - auto.
  - intros e1 e2 H1 H2. rewrite <- (Nat.add_0_r 3). now apply polls_at_most_app.
  - apply sat_polls_bind with (a := 0%nat) (b := 3%nat) (Q := fun _ => True);
      [lia | now apply (sat_polls_ask CConnect) |].
    intros [|] _; [|now apply sat_polls_ret].
    apply sat_polls_bind with (a := 0%nat) (b := 3%nat) (Q := fun _ => True);
      [lia | |intros _ _; apply sat_polls_poll_loop].
    now apply (sat_polls_ask (CWritePacket _)).
  - now apply sat_polls_ret.
Qed.

Lemma attempt_polls w :
  exists evs,
    trace (snd (attempt w)) = trace w ++ evs
    /\ (count_calls is_select evs <= 3)%nat
    /\ polls_bounded evs.
Proof.
  destruct (sat_polls_attempt w) as [(evs & T & _ & Hp) _].
  exists evs. split; [assumption|]. split.
  - apply Hp.
  - eapply polls_at_most_bounded, Hp.
Qed.

End PollCount.

(** The entry point up to the handshake. *)
Lemma et_client_main_prologue {codec : Codec} fin fout p h port i k secs rest tr :
  et_client_main (Some fin) (Some fout) (Some p) (Some h) port (Some i) (Some k)
    secs (mkWorld (RUnit :: RUnit :: rest) tr)
  = catch_all
      (r <- handshake ;;
       match r with
       | ConnectError => ret 1
       | Connected =>
           session (mkLocals (fileno fin) (fileno fout)
                      (if secs <? 1 then 5 else secs) (Some p))
       end)
      (ret 1)
      (after (prologue h port i k) rest tr).
Proof.
  unfold et_client_main, prologue. cbn [is_null].
  unfold disableAbortOnFatal.
  rewrite (bind_ask _ _ _ _ tt) by reflexivity.
  unfold catch_all at 1, newConnection.
  rewrite (bind_ask _ _ _ _ tt) by reflexivity.
  unfold catch_all, after. now rewrite <- app_assoc.
Qed.

Lemma et_client_main_connect_error {codec : Codec}
    fin fout p h port i k secs rest tr w' :
  handshake (after (prologue h port i k) rest tr) = (Val ConnectError, w') ->
  et_client_main (Some fin) (Some fout) (Some p) (Some h) port (Some i) (Some k)
    secs (mkWorld (RUnit :: RUnit :: rest) tr)
  = (Val 1, w').
Proof.
  intros H. rewrite et_client_main_prologue.
  unfold catch_all, bind. now rewrite H.
Qed.

(** C3, as the code has it.  The handshake yields a live Session when one of
    the first three outer attempts ends with a well-formed initial response
    that carries no error, the attempts before it having ended with [fail]
    still true.  It yields failure exactly when three outer attempts each
    end with [fail] still true, or when one of the first three attempts ends
    in [return 1] (a response of the wrong kind, an embedded error, an
    exception).  An attempt succeeds when, after the connection opened and
    the initial payload went out, one of its three polls reads the
    well-formed response; it ends with [fail] still true when the connection
    does not open or when the three polls pass without a packet read: the
    descriptor negative (one second of sleep instead of the poll), the
    descriptor not ready after the wait, or ready with nothing read.  No
    attempt calls [select] more than three times, every such call waits one
    second at most, and between two attempts the loop calls nothing. *)
Theorem C3_handshake_bounded_retry :
  forall {codec : Codec} (w : World),
    (forall n w1 w2,
        (n < 3)%nat -> failed_attempts n w = Some w1 ->
        attempt w1 = (Val AttemptOk, w2) ->
        handshake w = (Val Connected, w2))
    /\ (forall w',
        handshake w = (Val ConnectError, w')
        <-> failed_attempts 3 w = Some w'
            \/ exists n w1,
                 (n < 3)%nat /\ failed_attempts n w = Some w1
                 /\ attempt w1 = (Val AttemptReturn1, w'))
    /\ (forall j rest0 w1 fd rfd p ir rest,
        (j < 3)%nat ->
        script w = RBool true :: RUnit :: rest0 ->
        idle_polls j (after opening_events rest0 (trace w)) = Some w1 ->
        script w1 = RInt fd :: RReady rfd :: RPacket (Some p) :: rest ->
        0 <= fd -> FD_ISSET fd rfd = true ->
        getHeader p = INITIAL_RESPONSE ->
        stringToProto_InitialResponse (getPayload p) = inr ir ->
        has_error ir = false ->
        attempt w
        = (Val AttemptOk, after (response_events fd rfd p) rest (trace w1)))
    /\ (forall rest0 w1,
        script w = RBool true :: RUnit :: rest0 ->
        idle_polls 3 (after opening_events rest0 (trace w)) = Some w1 ->
        attempt w = (Val AttemptFail, w1))
    /\ (forall rest,
        script w = RBool false :: rest ->
        attempt w = (Val AttemptFail, after [ (CConnect, RBool false) ] rest (trace w)))
    /\ (forall fd rfd rest,
        (fd < 0 -> script w = RInt fd :: RUnit :: rest ->
         idle_polls 1 w
         = Some (after [ (CGetSocketFd, RInt fd); (CSleep 1, RUnit) ] rest (trace w)))
        /\ (0 <= fd -> FD_ISSET fd rfd = false ->
            script w = RInt fd :: RReady rfd :: rest ->
            idle_polls 1 w
            = Some (after [ (CGetSocketFd, RInt fd);
                            (CSelect (fd + 1) [fd] 1 0, RReady rfd) ]
                      rest (trace w)))
        /\ (0 <= fd -> FD_ISSET fd rfd = true ->
            script w = RInt fd :: RReady rfd :: RPacket None :: rest ->
            idle_polls 1 w
            = Some (after [ (CGetSocketFd, RInt fd);
                            (CSelect (fd + 1) [fd] 1 0, RReady rfd);
                            (CReadPacket, RPacket None) ]
                      rest (trace w))))
    /\ (exists evs,
          trace (snd (attempt w)) = trace w ++ evs
          /\ (count_calls is_select evs <= 3)%nat
          /\ polls_bounded evs).
Proof.
  intros codec w. repeat apply conj.
  - intros n w1 w2 Hn Hfailed Hok.
    now rewrite (handshake_decided n w w1 AttemptOk w2).
  - intros w'. split.
    + intros H. destruct (handshake_inv _ _ _ H)
        as [[_ H3]|(n & w1 & Hn & Hfailed & [[De _]|[_ Hret]])].
      * now left.
      * discriminate.
      * right. eauto.
    + intros [H3|(n & w1 & Hn & Hfailed & Hret)].
      * now apply handshake_exhausted.
      * now rewrite (handshake_decided n w w1 AttemptReturn1 w').
  - intros j rest0 w1 fd rfd p ir rest Hj Hs Hidle Hs1 Hfd Hready Hkind Hdec Herr.
    destruct w as [s tr]. cbn in Hs, Hidle |- *. subst s.
    apply attempt_value. rewrite attempt_body_opened.
    destruct w1 as [s1 tr1]. cbn in Hs1 |- *. subst s1.
    apply (poll_loop_decided j _
             (mkWorld (RInt fd :: RReady rfd :: RPacket (Some p) :: rest) tr1)
             PollBreak);
      [assumption | assumption | discriminate |].
    now apply poll_once_valid with (ir := ir).
  - intros rest0 w1 Hs Hidle.
    destruct w as [s tr]. cbn in Hs, Hidle. subst s.
    apply attempt_value. rewrite attempt_body_opened.
    now apply poll_loop_exhausted.
  - intros rest Hs. destruct w as [s tr]. cbn in Hs |- *. subst s.
    apply attempt_not_connected.
  - intros fd rfd rest. destruct w as [s tr]. cbn [script trace].
    unfold idle_polls. cbn [runs]. repeat apply conj.
    + intros Hfd ->. now rewrite poll_once_invalid.
    + intros Hfd Hready ->. now rewrite poll_once_timeout.
    + intros Hfd Hready ->. now rewrite poll_once_nothing_read.
  - apply attempt_polls.
Qed.

(** The sample handshake: connected on the third attempt; its second
    attempt alone, which uses up the polls; its third attempt alone. *)
Lemma C3_handshake_bounded_retry_witness :
  (exists w2,
      @handshake sample_codec (mkWorld sample_handshake_script []) = (Val Connected, w2)
      /\ script w2 = []
      /\ count_calls is_connect (trace w2) = 3%nat)
  /\ (exists w1,
        @attempt sample_codec
          (mkWorld [ RBool true; RUnit; RInt (-1); RUnit; RInt 5; RReady [];
                     RInt 5; RReady [5]; RPacket None ] [])
        = (Val AttemptFail, w1)
        /\ script w1 = [])
  /\ @attempt sample_codec
       (mkWorld [ RBool true; RUnit; RInt 5; RReady [5];
                  RPacket (Some sample_response) ] [])
     = (Val AttemptOk,
        mkWorld [] (@opening_events sample_codec ++ response_events 5 [5] sample_response)).
Proof.
  split; [|split].
  - eexists. split.
    + eapply (proj1 (@C3_handshake_bounded_retry sample_codec
                       (mkWorld sample_handshake_script [])) 2%nat);
        [lia | reflexivity | reflexivity].
    + split; reflexivity.
  - eexists. split.
    + eapply (proj1 (proj2 (proj2 (proj2
               (@C3_handshake_bounded_retry sample_codec
                  (mkWorld [ RBool true; RUnit; RInt (-1); RUnit; RInt 5; RReady [];
                             RInt 5; RReady [5]; RPacket None ] []))))));
        reflexivity.
    + reflexivity.
  - apply (proj1 (proj2 (proj2
             (@C3_handshake_bounded_retry sample_codec
                (mkWorld [ RBool true; RUnit; RInt 5; RReady [5];
                           RPacket (Some sample_response) ] []))))
             0%nat [ RInt 5; RReady [5]; RPacket (Some sample_response) ]
             (mkWorld [ RInt 5; RReady [5]; RPacket (Some sample_response) ]
                (@opening_events sample_codec))
             5 [5] sample_response {| has_error := false |} []);
      [lia | reflexivity | reflexivity | reflexivity | lia
       | reflexivity | reflexivity | reflexivity | reflexivity].
Defined.

(** C3 as stated fails where the first attempt reads a packet of another
    kind: the handshake fails, and not three attempts have ended without a
    response: one attempt was made, and [connect] was called once. *)
Lemma C3_counterexample :
  let w :=
    mkWorld [ RBool true; RUnit; RInt 5; RReady [5]; RPacket (Some sample_stray) ]
      [] in
  fst (@handshake sample_codec w) = Val ConnectError
  /\ @failed_attempts sample_codec 3 w = None
  /\ count_calls is_connect (trace (snd (@handshake sample_codec w))) = 1%nat.
Proof.
  cbn. repeat split.
Qed.



(** ** Leaving the main loop *)

Lemma returns_bind {A B} (Q : A -> Prop) (R : B -> Prop) (m : M A) (f : A -> M B) :
  returns Q m -> (forall a, Q a -> returns R (f a)) -> returns R (bind m f).
Proof.
  intros Hm Hf w b. unfold bind.
  specialize (Hm w). destruct (m w) as [[a|e|] w1]; cbn in *; try discriminate.
  apply (Hf a (Hm a eq_refl)).
Qed.

Lemma returns_any {A} (m : M A) : returns (fun _ => True) m.
Proof. intros w a _. exact I. Qed.

Lemma returns_ret {A} (Q : A -> Prop) a : Q a -> returns Q (ret a).
Proof. intros HQ w b [= <-]. exact HQ. Qed.

Lemma returns_catch_all {A} (Q : A -> Prop) m h :
  returns Q m -> returns Q h -> returns Q (catch_all m h).
Proof.
  intros Hm Hh w a. unfold catch_all.
  specialize (Hm w). destruct (m w) as [[b|e|] w1]; cbn in *.
  - auto.
  - apply Hh.
  - discriminate.
Qed.

Lemma catch_all_no_exception {A} (m h : M A) w e :
  (forall w' e', fst (h w') <> Exc e') -> fst (catch_all m h w) <> Exc e.
Proof.
  intros Hh. unfold catch_all.
  destruct (m w) as [[b|e'|] w1]; cbn; try discriminate. apply Hh.
Qed.

Section LoopFacts.
Context {codec : Codec}.
Variable L : Locals.

Lemma returns_run_loop st : returns (fun c => c = 0) (run_loop L st).
Proof.
  unfold run_loop.
  eapply returns_bind; [apply returns_any|]. intros _ _.
  eapply returns_bind; [apply returns_any|]. intros _ _.
  now apply returns_ret.
Qed.

Lemma returns_session : returns (fun c => c = 0) (session L).
Proof.
  unfold session.
  eapply returns_bind; [apply returns_any|]. intros now _.
  apply returns_run_loop.
Qed.

Lemma tick_calls_select c : select_calls c = true -> tick_calls L c = true.
Proof. unfold tick_calls. now intros ->. Qed.

Lemma tick_calls_input c : input_calls L c = true -> tick_calls L c = true.
Proof. unfold tick_calls. intros ->. now rewrite orb_true_r. Qed.

Lemma tick_calls_after_input c :
  after_input_calls L c = true -> tick_calls L c = true.
Proof.
  unfold tick_calls, after_input_calls. intros H.
  apply orb_true_iff in H. destruct H as [H| ->]; [|now rewrite orb_true_r].
  apply orb_true_iff in H. destruct H as [-> | ->]; now rewrite ?orb_true_r.
Qed.

Lemma sat_tick_body clientFd rfd st :
  sat (only (tick_calls L)) (fun _ => True) (tick_body L clientFd rfd st).
Proof.
  unfold tick_body. eapply sat_only_bind.
  - apply sat_only_mono with (k := input_calls L);
      [apply tick_calls_input | apply sat_input_step].
  - intros [st1|] _; [|now apply sat_only_ret].
    eapply sat_weaken; [| |apply sat_after_input]; [|trivial].
    intros evs. apply only_weaken, tick_calls_after_input.
Qed.

Lemma sat_tick st : sat (only (tick_calls L)) (fun _ => True) (tick L st).
Proof.
  unfold tick, tick_at, getSocketFd, select.
  eapply sat_only_bind; [now apply sat_only_ask|]. intros clientFd _.
  eapply sat_only_bind; [now apply sat_only_ask|]. intros rfd _.
  eapply sat_catch_runtime_error
    with (P1 := only (tick_calls L)) (P2 := only (tick_calls L));
    [auto | apply only_app | apply sat_tick_body | now apply sat_only_ret].
Qed.

Lemma loop_calls_tick c : tick_calls L c = true -> loop_calls L c = true.
Proof. unfold loop_calls. now destruct c. Qed.

Lemma sat_main_loop fuel st :
  sat (only (loop_calls L)) (fun _ => True) (main_loop L fuel st).
Proof.
  revert st. induction fuel as [|fuel IH]; intros st; cbn [main_loop].
  - apply sat_stuck, only_nil.
  - unfold isShuttingDown.
    eapply sat_only_bind; [now apply sat_only_ask|]. intros [|] _.
    + now apply sat_only_ret.
    + eapply sat_only_bind.
      * apply sat_only_mono with (k := tick_calls L);
          [apply loop_calls_tick | apply sat_tick].
      * intros [st'|] _; [apply IH | now apply sat_only_ret].
Qed.

Lemma loop_calls_no_shutdown c : loop_calls L c = true -> is_shutdown c = false.
Proof. destruct c; cbn; try reflexivity. discriminate. Qed.

(** The loop itself never calls [shutdown]. *)
Lemma main_loop_no_shutdown fuel st w :
  exists evs,
    trace (snd (main_loop L fuel st w)) = trace w ++ evs
    /\ count_calls is_shutdown evs = 0%nat.
Proof.
  destruct (sat_run _ _ _ w (sat_main_loop fuel st)) as (evs & T & _ & O & _).
  exists evs. split; [assumption|].
  eapply only_count_zero; [|exact O]. apply loop_calls_no_shutdown.
Qed.

End LoopFacts.

Lemma disableAbortOnFatal_no_exception w e : fst (disableAbortOnFatal w) <> Exc e.
Proof.
  unfold disableAbortOnFatal, ask.
  destruct (script w) as [|[] rest]; cbn; discriminate.
Qed.

Lemma et_client_main_exit_code {codec : Codec}
    f_in f_out ws host port id passkey secs w :
  match fst (et_client_main f_in f_out ws host port id passkey secs w) with
  | Val c => c = 0 \/ c = 1
  | Exc _ => False
  | Stuck => True
  end.
Proof.
  unfold et_client_main.
  destruct f_in as [fin|], f_out as [fout|], host as [h|], id as [i|],
    passkey as [k|]; cbn; auto.
  destruct ws as [p|]; cbn; auto.
  unfold bind at 1.
  pose proof (disableAbortOnFatal_no_exception w) as Hflag.
  destruct (disableAbortOnFatal w) as [[[]|e|] w1]; cbn in *; auto.
  - match goal with |- match fst (catch_all ?m ?h w1) with _ => _ end =>
      assert (Hret : returns (fun c => c = 0 \/ c = 1) (catch_all m h));
      [|assert (Hexc : forall e, fst (catch_all m h w1) <> Exc e)
          by (intros e; apply catch_all_no_exception;
              intros w' e'; cbn; discriminate);
        specialize (Hret w1);
        destruct (fst (catch_all m h w1)) as [c|e|];
        [now apply Hret | exact (Hexc e eq_refl) | exact I]]
    end.
    apply returns_catch_all; [|apply returns_ret; auto].
    eapply returns_bind; [apply returns_any|]. intros _ _.
    eapply returns_bind; [apply returns_any|]. intros [|] _.
    + intros w2 c Hc. left. exact (returns_session _ w2 c Hc).
    + apply returns_ret. auto.
  - now apply (Hflag e).
Qed.


(** ** Geometry reports *)

Lemma TerminalInfo_eqb_eq a b : TerminalInfo_eqb a b = true <-> a = b.
Proof.
  unfold TerminalInfo_eqb. rewrite !andb_true_iff, !Z.eqb_eq.
  destruct a, b; cbn. split.
  - intros [[[-> ->] ->] ->]. reflexivity.
  - intros [= -> -> -> ->]. auto.
Qed.

Lemma geometry_differs_eqb a b :
  geometry_differs a b = negb (TerminalInfo_eqb a b).
Proof.
  unfold geometry_differs, TerminalInfo_eqb.
  destruct (row a =? row b), (column a =? column b),
    (width a =? width b), (height a =? height b); reflexivity.
Qed.

Lemma observations_app evs evs' :
  observations (evs ++ evs') = observations evs ++ observations evs'.
Proof. unfold observations. apply flat_map_app. Qed.

Lemma geometry_reports_app evs evs' :
  geometry_reports (evs ++ evs') = geometry_reports evs ++ geometry_reports evs'.
Proof. unfold geometry_reports. apply flat_map_app. Qed.

Lemma last_of_app last obs obs' :
  last_of last (obs ++ obs') = last_of (last_of last obs) obs'.
Proof. unfold last_of. apply fold_left_app. Qed.

Lemma distinct_transitions_app obs : forall last obs',
  distinct_transitions last (obs ++ obs')
  = distinct_transitions last obs
    ++ distinct_transitions (last_of last obs) obs'.
Proof.
  induction obs as [|o obs IH]; intros last obs'; [reflexivity|].
  cbn [app distinct_transitions]. change (last_of last (o :: obs)) with (last_of o obs).
  destruct (TerminalInfo_eqb o last) eqn:E.
  - apply TerminalInfo_eqb_eq in E. subst o. apply IH.
  - cbn [app]. now rewrite IH.
Qed.

Lemma only_silent L evs :
  only (silent_calls L) evs -> observations evs = [] /\ geometry_reports evs = [].
Proof.
  unfold only. induction 1 as [|[c r] evs Hc _ [IHo IHr]]; [split; reflexivity|].
  cbn [fst] in Hc.
  change ((c, r) :: evs) with ([(c, r)] ++ evs).
  rewrite observations_app, geometry_reports_app, IHo, IHr, !app_nil_r.
  destruct c; try discriminate; try (split; reflexivity).
  cbn in Hc |- *. destruct (getHeader p); try discriminate; split; reflexivity.
Qed.

Section GeometryFacts.
Context {codec : Codec}.

Lemma geometry_ok_nil last : geometry_ok last [].
Proof. reflexivity. Qed.

Lemma geometry_ok_app last evs evs' :
  geometry_ok last evs ->
  geometry_ok (last_of last (observations evs)) evs' ->
  geometry_ok last (evs ++ evs').
Proof.
  unfold geometry_ok. intros H H'.
  now rewrite geometry_reports_app, observations_app,
    distinct_transitions_app, map_app, H, H'.
Qed.

Lemma geometry_ok_silent L last evs evs' :
  only (silent_calls L) evs -> geometry_ok last evs' -> geometry_ok last (evs ++ evs').
Proof.
  intros Hs H'. destruct (only_silent L evs Hs) as [Ho Hr].
  apply geometry_ok_app.
  - unfold geometry_ok. now rewrite Ho, Hr.
  - now rewrite Ho.
Qed.

(** The rules of [post] for the geometry postcondition. *)

Lemma post_geometry_ret {A} (state_of : A -> option LoopState) last a :
  (forall st', state_of a = Some st' -> lastTerminalInfo st' = last) ->
  post (geometry_post state_of last) (ret a).
Proof.
  intros Hst w. exists []. cbn. rewrite app_nil_r. repeat split.
  intros b st' [= <-]. apply Hst.
Qed.

Lemma post_silent_bind {A B} L (k : Call -> bool) (Q : A -> Prop)
    (state_of : B -> option LoopState) last (m : M A) (f : A -> M B) :
  (forall c, k c = true -> silent_calls L c = true) ->
  sat (only k) Q m ->
  (forall a, Q a -> post (geometry_post state_of last) (f a)) ->
  post (geometry_post state_of last) (bind m f).
Proof.
  intros Hk Hm Hf w. unfold bind.
  destruct (Hm w) as [(evs1 & T1 & S1 & O1) HQ].
  apply (only_weaken _ _ _ Hk) in O1.
  destruct (only_silent L evs1 O1) as [Hobs Hrep].
  destruct (m w) as [[a|e|] w1]; cbn in *.
  - destruct (Hf a (HQ a eq_refl) w1) as (evs2 & T2 & S2 & [Hok Hst]).
    exists (evs1 ++ evs2). repeat split.
    + now rewrite T2, T1, app_assoc.
    + now rewrite S1, S2, map_app, app_assoc.
    + intros Hns. eapply geometry_ok_silent; eauto.
    + intros b st' Hb Hs. rewrite observations_app, Hobs. cbn [app]. eauto.
  - exists evs1. repeat split; try assumption; try discriminate.
    intros _. unfold geometry_ok. now rewrite Hobs, Hrep.
  - exists evs1. repeat split; try assumption; try discriminate.
    intros Hns. now contradiction Hns.
Qed.

Lemma post_geometry_bind {A B} (sA : A -> option LoopState)
    (sB : B -> option LoopState) last (m : M A) (f : A -> M B) :
  post (geometry_post sA last) m ->
  (forall a last',
      (forall st', sA a = Some st' -> lastTerminalInfo st' = last') ->
      post (geometry_post sB last') (f a)) ->
  post (geometry_post sB last) (bind m f).
Proof.
  intros Hm Hf w. unfold bind.
  destruct (Hm w) as (evs1 & T1 & S1 & [Hok1 Hst1]).
  destruct (m w) as [[a|e|] w1]; cbn in *.
  - destruct (Hf a (last_of last (observations evs1))
                (fun st' Hs => Hst1 a st' eq_refl Hs) w1)
      as (evs2 & T2 & S2 & [Hok2 Hst2]).
    exists (evs1 ++ evs2). repeat split.
    + now rewrite T2, T1, app_assoc.
    + now rewrite S1, S2, map_app, app_assoc.
    + intros Hns. apply geometry_ok_app; [apply Hok1; discriminate | auto].
    + intros b st' Hb Hs. rewrite observations_app, last_of_app. eauto.
  - exists evs1. repeat split; try assumption; try discriminate.
    intros _. apply Hok1. discriminate.
  - exists evs1. repeat split; try assumption; try discriminate.
    intros Hns. now contradiction Hns.
Qed.

Lemma post_geometry_catch last (m : M LoopCtl) :
  post (geometry_post state_of_ctl last) m ->
  post (geometry_post state_of_ctl last) (catch_runtime_error m (ret Break)).
Proof.
  intros Hm w. unfold catch_runtime_error.
  destruct (Hm w) as (evs & T & S & [Hok Hst]).
  destruct (m w) as [[a|[|]|] w1]; cbn in *; exists evs; repeat split;
    try assumption; try discriminate.
  - intros _. apply Hok. discriminate.
  - intros a st' [= <-]. discriminate.
Qed.

Lemma post_fueled {A} (P : outcome A -> list Event -> Prop)
    (m : nat -> M A) (fuel : World -> nat) :
  (forall n, post P (m n)) -> post P (fun w => m (fuel w) w).
Proof. intros H w. apply (H (fuel w) w). Qed.

Variable L : Locals.

Lemma post_geometry_step st :
  post (geometry_post Some (lastTerminalInfo st)) (geometry_step L st).
Proof.
  assert (Hstuck : forall (A : Type) (P : Prop), @Stuck A <> Stuck -> P)
    by (intros A P H; now contradiction H).
  intros [s tr]. unfold geometry_step.
  destruct (ws L) as [p|].
  2:{ exists []. cbn. rewrite app_nil_r. repeat split.
      now intros a st' [= <-] [= <-]. }
  unfold read_winsize, writePacket, bind, ask. cbn [script trace].
  destruct s as [|r1 s1].
  { exists []. cbn. rewrite app_nil_r.
    repeat apply conj; try reflexivity; try discriminate;
      try apply Hstuck. }
  destruct r1; cbn;
    try (exists []; cbn; rewrite app_nil_r;
         repeat apply conj; try reflexivity; try discriminate;
         try apply Hstuck; fail).
  rewrite geometry_differs_eqb.
  destruct (TerminalInfo_eqb (TerminalInfo_of w) (lastTerminalInfo st)) eqn:E; cbn.
  - exists [(CWinsize p, RWinsize w)]. cbn.
    repeat apply conj; try reflexivity.
    + intros _. unfold geometry_ok. cbn. now rewrite E.
    + intros a st' [= <-] [= <-]. apply TerminalInfo_eqb_eq in E. now symmetry.
  - destruct s1 as [|r2 s2]; cbn.
    { exists [(CWinsize p, RWinsize w)]. cbn.
      repeat apply conj; try reflexivity; try discriminate;
      try apply Hstuck. }
    destruct r2; cbn;
      try (exists [(CWinsize p, RWinsize w)]; cbn;
           repeat apply conj; try reflexivity; try discriminate;
         try apply Hstuck; fail).
    + eexists [(CWinsize p, RWinsize w); (CWritePacket _, RUnit)].
      rewrite <- app_assoc. cbn. repeat apply conj; try reflexivity.
      * intros _. unfold geometry_ok. cbn. now rewrite E.
      * now intros a st' [= <-] [= <-].
    + eexists [(CWinsize p, RWinsize w); (CWritePacket _, RThrow e)].
      rewrite <- app_assoc. cbn.
      repeat apply conj; try reflexivity; try discriminate.
      intros _. unfold geometry_ok. cbn. now rewrite E.
Qed.

End GeometryFacts.

Section GeometryRun.
Context {codec : Codec}.
Variable L : Locals.

Lemma silent_calls_select c : select_calls c = true -> silent_calls L c = true.
Proof.
  unfold silent_calls. intros H.
  destruct c; try discriminate; try reflexivity;
    rewrite H; now rewrite ?orb_true_r.
Qed.

Lemma silent_calls_input c : input_calls L c = true -> silent_calls L c = true.
Proof.
  unfold silent_calls. intros H.
  destruct c; try discriminate; try reflexivity;
    rewrite H; now rewrite ?orb_true_r.
Qed.

Lemma silent_calls_drain c : drain_calls L c = true -> silent_calls L c = true.
Proof.
  unfold silent_calls. intros H.
  destruct c; try discriminate; try reflexivity;
    rewrite H; now rewrite ?orb_true_r.
Qed.

Lemma silent_calls_keepalive c : keepalive_calls c = true -> silent_calls L c = true.
Proof.
  unfold silent_calls. intros H.
  destruct c; try discriminate; try reflexivity;
    rewrite H; now rewrite ?orb_true_r.
Qed.

Lemma lastTerminalInfo_invalid_fd_step clientFd st :
  lastTerminalInfo (invalid_fd_step clientFd st) = lastTerminalInfo st.
Proof. unfold invalid_fd_step. now destruct (clientFd <? 0). Qed.

Lemma post_after_input clientFd rfd st :
  post (geometry_post state_of_ctl (lastTerminalInfo st))
       (after_input L clientFd rfd st).
Proof.
  unfold after_input.
  eapply (post_silent_bind L); [apply silent_calls_drain | apply sat_drain_step |].
  intros st1 H1.
  eapply (post_silent_bind L);
    [apply silent_calls_keepalive | apply sat_keepalive_step |].
  intros st2 H2. cbv zeta. cbv beta in H1, H2.
  eapply post_geometry_bind.
  - rewrite <- H1, <- H2, <- (lastTerminalInfo_invalid_fd_step clientFd st2).
    apply post_geometry_step.
  - intros st3 last' Hlast. apply post_geometry_ret.
    intros st' [= <-]. now apply Hlast.
Qed.

Lemma post_tick_body clientFd rfd st :
  post (geometry_post state_of_ctl (lastTerminalInfo st))
       (tick_body L clientFd rfd st).
Proof.
  unfold tick_body.
  eapply (post_silent_bind L); [apply silent_calls_input | apply sat_input_step |].
  intros [st1|] H1.
  - destruct (H1 st1 eq_refl) as [_ <-]. apply post_after_input.
  - apply post_geometry_ret. discriminate.
Qed.

Lemma post_tick st :
  post (geometry_post state_of_ctl (lastTerminalInfo st)) (tick L st).
Proof.
  unfold tick, tick_at, getSocketFd, select.
  eapply (post_silent_bind L) with (k := select_calls);
    [apply silent_calls_select | now apply sat_only_ask |].
  intros clientFd _.
  eapply (post_silent_bind L) with (k := select_calls);
    [apply silent_calls_select | now apply sat_only_ask |].
  intros rfd _. apply post_geometry_catch, post_tick_body.
Qed.

Lemma post_main_loop fuel : forall st,
  post (geometry_post no_state (lastTerminalInfo st)) (main_loop L fuel st).
Proof.
  induction fuel as [|fuel IH]; intros st; cbn [main_loop].
  - intros w. exists []. cbn. rewrite app_nil_r.
    repeat apply conj; try reflexivity; try discriminate.
  - unfold isShuttingDown.
    eapply (post_silent_bind L) with (k := fun c => is_shutting_down c);
      [ | now apply sat_only_ask |].
    { intros c Hc. destruct c; try discriminate. reflexivity. }
    intros [|] _.
    + apply post_geometry_ret. discriminate.
    + eapply post_geometry_bind; [apply post_tick|].
      intros [st'|] last' Hlast.
      * rewrite <- (Hlast st' eq_refl). apply IH.
      * apply post_geometry_ret. discriminate.
Qed.

Lemma post_run_loop st :
  post (geometry_post no_state (lastTerminalInfo st)) (run_loop L st).
Proof.
  unfold run_loop.
  eapply post_geometry_bind.
  - apply (post_fueled _ (fun n => main_loop L n st) script_fuel).
    intros n. apply post_main_loop.
  - intros [] last' _. intros w.
    unfold shutdown, bind, ask.
    destruct (script w) as [|r rest] eqn:Hs; cbn.
    { exists []. rewrite app_nil_r. repeat apply conj; auto; try discriminate.
      intros H. now contradiction H. }
    destruct r; cbn;
      try (exists []; rewrite app_nil_r; repeat apply conj; auto;
           try discriminate; try (intros H; now contradiction H); fail).
    + exists [(CShutdown, RUnit)].
      repeat apply conj; try reflexivity; intros a st' _; discriminate.
    + exists [(CShutdown, RThrow e)].
      repeat apply conj; try reflexivity; intros a st' _; discriminate.
Qed.

End GeometryRun.

Lemma post_session {codec : Codec} (L : Locals) :
  post (geometry_post no_state TerminalInfo_default) (session L).
Proof.
  unfold session, time.
  eapply (post_silent_bind L) with (k := input_calls L);
    [apply silent_calls_input | now apply sat_only_ask |].
  intros now _.
  apply (post_run_loop L
           (mkLoopState (now + keepalive_secs L) false TerminalInfo_default)).
Qed.

Lemma geometry_differs_true a b : geometry_differs a b = true <-> a <> b.
Proof.
  rewrite geometry_differs_eqb, negb_true_iff, <- TerminalInfo_eqb_eq.
  destruct (TerminalInfo_eqb a b); intuition congruence.
Qed.

(** C2, as the code has it.  The test of lines 210-213 is inequality of the
    four fields.  On a pass that reaches the geometry block, the snapshot
    read from the host is sent as a geometry-change packet, and becomes the
    last one sent, if and only if it differs from the last one sent.  So in
    every run of the main loop that the script carries to its end or to an
    exception, and in every such run of the session, the geometry-change
    packets handed to the transport are exactly the distinct transitions of
    the snapshots seen: one packet per snapshot that differs from the one
    before it.  The session starts from the all-zero snapshot: the first
    snapshot seen is reported exactly once if it is not all zero, and not at
    all if it is. *)
Theorem C2_geometry_reporting :
  forall {codec : Codec} (L : Locals),
    (forall a b, geometry_differs a b = true <-> a <> b)
    /\ (forall p st obs rest tr,
        ws L = Some p ->
        (TerminalInfo_of obs <> lastTerminalInfo st ->
         geometry_step L st (mkWorld (RWinsize obs :: RUnit :: rest) tr)
         = (Val (set_lastTerminalInfo st (TerminalInfo_of obs)),
            after [ (CWinsize p, RWinsize obs);
                    (CWritePacket (report_packet (TerminalInfo_of obs)), RUnit) ]
              rest tr))
        /\ (TerminalInfo_of obs = lastTerminalInfo st ->
            geometry_step L st (mkWorld (RWinsize obs :: rest) tr)
            = (Val st, after [ (CWinsize p, RWinsize obs) ] rest tr)))
    /\ (forall st fuel w,
        fst (main_loop L fuel st w) <> Stuck ->
        exists evs,
          trace (snd (main_loop L fuel st w)) = trace w ++ evs
          /\ geometry_reports evs
             = map report_packet
                 (distinct_transitions (lastTerminalInfo st) (observations evs)))
    /\ (forall w,
        fst (session L w) <> Stuck ->
        exists evs,
          trace (snd (session L w)) = trace w ++ evs
          /\ geometry_reports evs
             = map report_packet
                 (distinct_transitions TerminalInfo_default (observations evs)))
    /\ (forall o obs,
        (o <> TerminalInfo_default ->
         distinct_transitions TerminalInfo_default (o :: obs)
         = o :: distinct_transitions o obs)
        /\ (o = TerminalInfo_default ->
            distinct_transitions TerminalInfo_default (o :: obs)
            = distinct_transitions TerminalInfo_default obs)).
Proof.
  intros codec L. repeat apply conj.
  - apply geometry_differs_true.
  - intros p st obs rest tr Hws. split.
    + intros Hdiff. unfold geometry_step. rewrite Hws. run.
      rewrite (proj2 (geometry_differs_true _ _) Hdiff). run. reflexivity.
    + intros Hsame. unfold geometry_step. rewrite Hws. run.
      rewrite Hsame, geometry_differs_same. run. reflexivity.
  - intros st fuel w Hrun.
    destruct (post_main_loop L fuel st w) as (evs & T & _ & [Hok _]).
    exists evs. split; [assumption | now apply Hok].
  - intros w Hrun.
    destruct (post_session L w) as (evs & T & _ & [Hok _]).
    exists evs. split; [assumption | now apply Hok].
  - intros o obs. split.
    + intros Ho. cbn [distinct_transitions].
      destruct (TerminalInfo_eqb o TerminalInfo_default) eqn:E; [|reflexivity].
      apply TerminalInfo_eqb_eq in E. contradiction.
    + intros ->. reflexivity.
Qed.

(** The first sample run: three snapshots seen, two packets sent; and the
    geometry block alone on its first pass. *)
Lemma C2_geometry_reporting_witness :
  let r := @session sample_codec sample_locals (mkWorld sample_geometry_script []) in
  let st := mkLoopState 105 false TerminalInfo_default in
  let obs := mkWinsize 24 80 0 0 in
  (exists evs,
      trace (snd r) = [] ++ evs
      /\ geometry_reports evs
         = map (@report_packet sample_codec)
             (distinct_transitions TerminalInfo_default (observations evs)))
  /\ fst r = Val 0
  /\ observations (trace (snd r))
     = [ mkTerminalInfo 24 80 0 0; mkTerminalInfo 24 80 0 0;
         mkTerminalInfo 30 100 0 0 ]
  /\ geometry_reports (trace (snd r))
     = [ @report_packet sample_codec (mkTerminalInfo 24 80 0 0);
         @report_packet sample_codec (mkTerminalInfo 30 100 0 0) ]
  /\ @geometry_step sample_codec sample_locals st (mkWorld [RWinsize obs; RUnit] [])
     = (Val (mkLoopState 105 false (mkTerminalInfo 24 80 0 0)),
        mkWorld []
          [ (CWinsize sample_ws, RWinsize obs);
            (CWritePacket (@report_packet sample_codec (mkTerminalInfo 24 80 0 0)),
             RUnit) ]).
Proof.
  intros r st obs. split; [|split; [|split; [|split]]].
  - apply (proj1 (proj2 (proj2 (proj2
             (@C2_geometry_reporting sample_codec sample_locals))))
             (mkWorld sample_geometry_script [])).
    vm_compute. discriminate.
  - vm_compute. reflexivity.
  - vm_compute. reflexivity.
  - vm_compute. reflexivity.
  - apply (proj1 (proj1 (proj2 (@C2_geometry_reporting sample_codec sample_locals))
                    sample_ws st obs [] [] eq_refl)).
    discriminate.
Defined.

(** C2 as stated fails on the second sample run: the first snapshot the
    host shows is all zero; it is a real observation, and it differs from
    nothing sent before, yet no geometry-change packet is sent for it. *)
Lemma C2_counterexample :
  let r :=
    @session sample_codec sample_locals (mkWorld sample_zero_geometry_script []) in
  fst r = Val 0
  /\ observations (trace (snd r)) = [ mkTerminalInfo 0 0 0 0 ]
  /\ geometry_reports (trace (snd r)) = [].
Proof.
  vm_compute. repeat split.
Qed.

(** ** The fuel of the loops is enough

    [Stuck] comes from the script alone: the passes a loop can make on a
    script never use up the fuel the model gives it. *)

Lemma bind_run {A B} (m : M A) (f : A -> M B) w o w1 :
  m w = (o, w1) ->
  bind m f w
  = match o with
    | Val a => f a w1
    | Exc e => (Exc e, w1)
    | Stuck => (Stuck, w1)
    end.
Proof. intros H. unfold bind. now rewrite H. Qed.

Lemma ask_consumes {A} c (dec : Resp -> option (exn + A)) w a w1 :
  ask c dec w = (Val a, w1) ->
  List.length (script w) = S (List.length (script w1)).
Proof.
  unfold ask. destruct (script w) as [|r rest]; [discriminate|].
  destruct (dec r) as [[e|b]|]; try discriminate.
  now intros [= _ <-].
Qed.

Lemma sat_shrinks {A} k (Q : A -> Prop) (m : M A) w :
  sat (only k) Q m ->
  (List.length (script (snd (m w))) <= List.length (script w))%nat.
Proof.
  intros H. destruct (H w) as [G _]. exact (grows_by_length _ _ _ G).
Qed.

Section Fuel.
Context {codec : Codec}.
Variable L : Locals.

Lemma main_loop_fuel fuel : forall fuel' st w,
  (List.length (script w) < fuel)%nat ->
  (List.length (script w) < fuel')%nat ->
  main_loop L fuel st w = main_loop L fuel' st w.
Proof.
  induction fuel as [|fuel IH]; intros [|fuel'] st w H H'; try lia.
  cbn [main_loop].
  destruct (isShuttingDown w) as [o w1] eqn:E.
  rewrite !(bind_run _ _ _ _ _ E).
  destruct o as [[|]|e|]; try reflexivity.
  apply ask_consumes in E.
  destruct (tick L st w1) as [o w2] eqn:T.
  rewrite !(bind_run _ _ _ _ _ T).
  destruct o as [[st'|]|e|]; try reflexivity.
  pose proof (sat_shrinks _ _ _ w1 (sat_tick L st)) as Hlen.
  rewrite T in Hlen. cbn [snd] in Hlen.
  apply IH; lia.
Qed.

Lemma drain_loop_fuel fuel : forall fuel' st w,
  (List.length (script w) < fuel)%nat ->
  (List.length (script w) < fuel')%nat ->
  drain_loop L fuel st w = drain_loop L fuel' st w.
Proof.
  induction fuel as [|fuel IH]; intros [|fuel'] st w H H'; try lia.
  cbn [drain_loop].
  destruct (hasData w) as [o w1] eqn:E.
  rewrite !(bind_run _ _ _ _ _ E).
  destruct o as [[|]|e|]; try reflexivity.
  apply ask_consumes in E.
  destruct (read w1) as [o w2] eqn:R.
  rewrite !(bind_run _ _ _ _ _ R).
  destruct o as [[packet|]|e|]; try reflexivity.
  pose proof (sat_shrinks _ _ _ w1 (sat_only_ask (fun _ => true) CRead dec_packet eq_refl))
    as Hlen1.
  fold read in Hlen1. rewrite R in Hlen1. cbn [snd] in Hlen1.
  destruct (dispatch L packet st w2) as [o w3] eqn:D.
  rewrite !(bind_run _ _ _ _ _ D).
  destruct o as [st'|e|]; try reflexivity.
  pose proof (sat_shrinks _ _ _ w2 (sat_dispatch L packet st)) as Hlen2.
  rewrite D in Hlen2. cbn [snd] in Hlen2.
  apply IH; lia.
Qed.

Lemma write_loop_fuel s fuel : forall fuel' written w,
  0 <= written ->
  (Z.to_nat (Z.of_nat (List.length s) - written) <= fuel)%nat ->
  (Z.to_nat (Z.of_nat (List.length s) - written) <= fuel')%nat ->
  write_loop L fuel s written w = write_loop L fuel' s written w.
Proof.
  induction fuel as [|fuel IH]; intros fuel' written w Hw H H'.
  - destruct fuel'; cbn [write_loop]; now ztests.
  - destruct fuel' as [|fuel'].
    + cbn [write_loop]. now ztests.
    + cbn [write_loop]. destruct (written <? Z.of_nat (List.length s)) eqn:Hlt;
        [|reflexivity].
      apply Z.ltb_lt in Hlt.
      destruct (sys_write L.(outFd) (skipn (Z.to_nat written) s)
                  (Z.of_nat (List.length s) - written) w) as [o w1] eqn:E.
      rewrite !(bind_run _ _ _ _ _ E).
      destruct o as [rc|e|]; try reflexivity.
      destruct (rc <=? 0) eqn:Hrc; [reflexivity|].
      apply Z.leb_gt in Hrc. apply IH; lia.
Qed.

(** The handshake is [Stuck] only where an attempt is. *)
Lemma handshake_stuck w :
  fst (handshake w) = Stuck ->
  exists n w1,
    (n < 3)%nat /\ failed_attempts n w = Some w1 /\ fst (attempt w1) = Stuck.
Proof.
  unfold handshake, failed_attempts. cbn [runs connect_loop]. unfold bind.
  destruct (attempt w) as [[[]|e|] w1] eqn:A1; cbn; try discriminate.
  2:{ intros _. exists 0%nat, w. cbn. rewrite A1. auto. }
  destruct (attempt w1) as [[[]|e|] w2] eqn:A2; cbn; try discriminate.
  2:{ intros _. exists 1%nat, w1. cbn. rewrite A1. cbn. rewrite A2. auto. }
  destruct (attempt w2) as [[[]|e|] w3] eqn:A3; cbn; try discriminate.
  intros _. exists 2%nat, w2. cbn. rewrite A1. cbn. rewrite A2. cbn.
  rewrite A3. auto.
Qed.

End Fuel.

(** * Further properties of the function *)

(** ** More rules of the program logic *)

Lemma post_ret {A} (P : outcome A -> list Event -> Prop) a :
  P (Val a) [] -> post P (ret a).
Proof.
  intros H w. exists []. cbn. now rewrite app_nil_r.
Qed.

Lemma post_weaken {A} (P P' : outcome A -> list Event -> Prop) m :
  (forall o evs, P o evs -> P' o evs) -> post P m -> post P' m.
Proof.
  intros H Hm w. destruct (Hm w) as (evs & T & S & HP). eauto.
Qed.

Lemma post_conj {A} (P P' : outcome A -> list Event -> Prop) m :
  post P m -> post P' m -> post (fun o evs => P o evs /\ P' o evs) m.
Proof.
  intros H H' w.
  destruct (H w) as (evs & T & S & HP). destruct (H' w) as (evs' & T' & _ & HP').
  rewrite T in T'. apply app_inv_head in T'. subst evs'. eauto.
Qed.

Lemma post_of_sat {A} (P : list Event -> Prop) (Q : A -> Prop) m :
  sat P Q m -> post (fun o evs => P evs /\ forall a, o = Val a -> Q a) m.
Proof.
  intros H w. destruct (H w) as [(evs & T & S & HP) HQ]. eauto 6.
Qed.

Lemma post_bind {A B} (P1 : outcome A -> list Event -> Prop)
    (P : outcome B -> list Event -> Prop) (m : M A) (f : A -> M B) :
  post P1 m ->
  (forall a e1, P1 (Val a) e1 -> post (fun o e2 => P o (e1 ++ e2)) (f a)) ->
  (forall e e1, P1 (Exc e) e1 -> P (Exc e) e1) ->
  (forall e1, P1 Stuck e1 -> P Stuck e1) ->
  post P (bind m f).
Proof.
  intros Hm Hf He Hs w. unfold bind.
  destruct (Hm w) as (e1 & T1 & S1 & H1).
  destruct (m w) as [[a|e|] w1]; cbn in *.
  - destruct (Hf a e1 H1 w1) as (e2 & T2 & S2 & H2).
    exists (e1 ++ e2). repeat split.
    + now rewrite T2, T1, app_assoc.
    + now rewrite S1, S2, map_app, app_assoc.
    + exact H2.
  - exists e1. auto.
  - exists e1. auto.
Qed.

(** A step whose calls are all in [k], before a computation whose
    postcondition is not disturbed by calls in [k] made before it. *)
Lemma post_prefix_bind {A B} (k : Call -> bool) (Q : A -> Prop)
    (P : outcome B -> list Event -> Prop) (m : M A) (f : A -> M B) :
  (forall e1 e2 o, only k e1 -> P o e2 -> P o (e1 ++ e2)) ->
  (forall e, P (Exc e) []) -> P Stuck [] ->
  sat (only k) Q m ->
  (forall a, Q a -> post P (f a)) ->
  post P (bind m f).
Proof.
  intros Hpre Hexc Hstuck Hm Hf.
  apply post_bind with (P1 := fun o evs => only k evs /\ forall a, o = Val a -> Q a).
  - now apply post_of_sat.
  - intros a e1 [Ho HQ]. eapply post_weaken; [|apply Hf, HQ; reflexivity].
    intros o e2. now apply Hpre.
  - intros e e1 [Ho _]. rewrite <- (app_nil_r e1). now apply Hpre.
  - intros e1 [Ho _]. rewrite <- (app_nil_r e1). now apply Hpre.
Qed.

Lemma post_catch_all {A} (P1 P : outcome A -> list Event -> Prop) m h :
  post P1 m ->
  (forall a e1, P1 (Val a) e1 -> P (Val a) e1) ->
  (forall e e1, P1 (Exc e) e1 -> post (fun o e2 => P o (e1 ++ e2)) h) ->
  (forall e1, P1 Stuck e1 -> P Stuck e1) ->
  post P (catch_all m h).
Proof.
  intros Hm Hv He Hs w. unfold catch_all.
  destruct (Hm w) as (e1 & T1 & S1 & H1).
  destruct (m w) as [[a|e|] w1]; cbn in *.
  - exists e1. auto.
  - destruct (He e e1 H1 w1) as (e2 & T2 & S2 & H2).
    exists (e1 ++ e2). repeat split.
    + now rewrite T2, T1, app_assoc.
    + now rewrite S1, S2, map_app, app_assoc.
    + exact H2.
  - exists e1. auto.
Qed.

Lemma post_run {A} (P : outcome A -> list Event -> Prop) (m : M A) w :
  post P m ->
  exists evs, trace (snd (m w)) = trace w ++ evs /\ P (fst (m w)) evs.
Proof.
  intros H. destruct (H w) as (evs & T & _ & HP). eauto.
Qed.

(** ** The result and [shutdown] *)

Lemma only_not_shutdown_count evs :
  only not_shutdown evs -> count_calls is_shutdown evs = 0%nat.
Proof.
  apply only_count_zero. intros c. unfold not_shutdown. now destruct (is_shutdown c).
Qed.

Lemma only_not_shutdown_In evs r : only not_shutdown evs -> ~ In (CShutdown, r) evs.
Proof.
  intros H Hin. unfold only in H. rewrite Forall_forall in H.
  specialize (H _ Hin). discriminate.
Qed.

Lemma ends_with_shutdown_prefix e1 e2 :
  only not_shutdown e1 -> ends_with_shutdown e2 -> ends_with_shutdown (e1 ++ e2).
Proof.
  intros H1 (evs0 & -> & C). exists (e1 ++ evs0). split.
  - now rewrite app_assoc.
  - now rewrite count_calls_app, C, only_not_shutdown_count.
Qed.

Lemma exit_post_prefix e1 e2 o :
  only not_shutdown e1 -> exit_post o e2 -> exit_post o (e1 ++ e2).
Proof.
  intros H1 H2.
  assert (Hin : ~ In (CShutdown, RUnit) e2 -> ~ In (CShutdown, RUnit) (e1 ++ e2)).
  { intros Hn Hin. apply in_app_or in Hin. destruct Hin as [Hin|Hin]; [|auto].
    now apply (only_not_shutdown_In e1 RUnit). }
  destruct o as [c|e|]; cbn in *; auto.
  destruct H2 as [[-> H2]|[-> H2]]; [left|right]; split; auto.
  now apply ends_with_shutdown_prefix.
Qed.

Lemma attempt_calls_not_shutdown c : attempt_calls c = true -> not_shutdown c = true.
Proof. destruct c; cbn; congruence. Qed.

Lemma loop_calls_not_shutdown L c : loop_calls L c = true -> not_shutdown c = true.
Proof. destruct c; cbn; congruence. Qed.

Section ExitFacts.
Context {codec : Codec}.

Lemma sat_connect_loop fuel : forall count,
  sat (only attempt_calls) (fun _ => True) (connect_loop fuel count).
Proof.
  induction fuel as [|fuel IH]; intros count; cbn [connect_loop].
  - apply sat_stuck, only_nil.
  - eapply sat_only_bind; [apply sat_attempt|].
    intros [] _; sat_only; trivial.
Qed.

Lemma sat_handshake : sat (only attempt_calls) (fun _ => True) handshake.
Proof. apply sat_connect_loop. Qed.

Lemma post_exit_run_loop L st : post exit_post (run_loop L st).
Proof.
  unfold run_loop.
  apply post_prefix_bind with (k := not_shutdown) (Q := fun _ => True).
  - apply exit_post_prefix.
  - intros e. cbn. auto.
  - cbn. auto.
  - apply (sat_fueled _ _ (fun n => main_loop L n st) script_fuel). intros n.
    apply sat_only_mono with (k := loop_calls L);
      [apply loop_calls_not_shutdown | apply sat_main_loop].
  - intros [] _ w. unfold shutdown, bind, ask.
    destruct (script w) as [|r rest] eqn:Hs; cbn.
    { exists []. rewrite app_nil_r. cbn. auto. }
    destruct r; cbn;
      try (exists []; rewrite app_nil_r; cbn; repeat split; auto; fail).
    + exists [(CShutdown, RUnit)]. repeat split. cbn. left. split; [reflexivity|].
      exists []. split; reflexivity.
    + exists [(CShutdown, RThrow e)]. repeat split. cbn.
      intros [H|[]]. discriminate.
Qed.

Lemma post_exit_session L : post exit_post (session L).
Proof.
  unfold session, time.
  apply post_prefix_bind with (k := not_shutdown) (Q := fun _ => True).
  - apply exit_post_prefix.
  - intros e. cbn. auto.
  - cbn. auto.
  - now apply sat_only_ask.
  - intros now _. apply post_exit_run_loop.
Qed.

Lemma post_exit_et_client_main f_in f_out ws host port id passkey secs :
  post exit_post (et_client_main f_in f_out ws host port id passkey secs).
Proof.
  assert (Hone : post exit_post (ret 1)).
  { apply post_ret. cbn. right. auto. }
  unfold et_client_main.
  destruct f_in as [fin|], f_out as [fout|], host as [h|], id as [i|],
    passkey as [k|]; try exact Hone.
  destruct ws as [p|]; cbn [is_null]; [|exact Hone].
  unfold disableAbortOnFatal.
  apply post_prefix_bind with (k := not_shutdown) (Q := fun _ => True);
    [apply exit_post_prefix | cbn; auto | cbn; auto | now apply sat_only_ask |].
  intros _ _.
  apply post_catch_all with (P1 := exit_post).
  - unfold newConnection.
    apply post_prefix_bind with (k := not_shutdown) (Q := fun _ => True);
      [apply exit_post_prefix | cbn; auto | cbn; auto | now apply sat_only_ask |].
    intros _ _.
    apply post_prefix_bind with (k := not_shutdown) (Q := fun _ => True);
      [apply exit_post_prefix | cbn; auto | cbn; auto | |].
    + apply sat_only_mono with (k := attempt_calls);
        [apply attempt_calls_not_shutdown | apply sat_handshake].
    + intros [|] _; [apply post_exit_session | exact Hone].
  - auto.
  - intros e e1 H1. apply post_ret. cbn in *. right. split; [reflexivity|].
    now rewrite app_nil_r.
  - auto.
Qed.

End ExitFacts.

(** The result 0 means that [shutdown] was called and returned: it is then
    the last call of the run and the only [shutdown]; the result 1 means
    that no [shutdown] returned. *)
Theorem exit_code_tells_shutdown :
  forall {codec : Codec} f_in f_out ws host port id passkey secs (w : World) c w',
    et_client_main f_in f_out ws host port id passkey secs w = (Val c, w') ->
    exists evs,
      trace w' = trace w ++ evs
      /\ (c = 0 \/ c = 1)
      /\ (c = 0 <-> In (CShutdown, RUnit) evs)
      /\ (c = 0 -> ends_with_shutdown evs).
Proof.
  intros codec f_in f_out ws host port id passkey secs w c w' Hrun.
  destruct (post_run _ _ w
              (post_exit_et_client_main f_in f_out ws host port id passkey secs))
    as (evs & T & HP).
  rewrite Hrun in T, HP. cbn in T, HP.
  exists evs. split; [assumption|].
  destruct HP as [[-> (evs0 & -> & C)]|[-> Hno]].
  - repeat split; auto.
    + intros _. apply in_or_app. right. now left.
    + intros _. exists evs0. auto.
  - repeat split; auto; try discriminate.
    intros Hin. contradiction.
Qed.

Lemma exit_code_tells_shutdown_witness :
  let r := sample_main 30 (mkWorld sample_clean_script []) in
  exists evs,
    trace (snd r) = [] ++ evs
    /\ (0 = 0 \/ 0 = 1)
    /\ (0 = 0 <-> In (CShutdown, RUnit) evs)
    /\ (0 = 0 -> ends_with_shutdown evs).
Proof.
  intros r.
  apply (@exit_code_tells_shutdown sample_codec (Some sample_in) (Some sample_out)
           (Some sample_ws) (Some "host"%string) 2022 (Some "id"%string)
           (Some "key"%string) 30 (mkWorld sample_clean_script []) 0 (snd r)).
  vm_compute. reflexivity.
Defined.

(** ** The budget of the handshake *)

Lemma sat_quota_ret {A} k n (Q : A -> Prop) a : Q a -> sat (quota k n) Q (ret a).
Proof.
  intros HQ. apply sat_ret; [|assumption]. unfold quota. cbn. lia.
Qed.

Lemma sat_quota_mono {A} k n n' (Q : A -> Prop) m :
  (n <= n')%nat -> sat (quota k n) Q m -> sat (quota k n') Q m.
Proof.
  intros Hn. apply sat_weaken; [|auto]. unfold quota. intros evs. lia.
Qed.

Lemma sat_quota_ask {A} k c (dec : Resp -> option (exn + A)) :
  sat (quota k (if k c then 1 else 0)) (fun _ => True) (ask c dec).
Proof.
  apply sat_ask; unfold quota, count_calls; cbn.
  - lia.
  - intros r. destruct (k c); cbn; lia.
Qed.

Lemma sat_quota_bind {A B} k a b n (Q : A -> Prop) (R : B -> Prop) m (f : A -> M B) :
  (a + b <= n)%nat ->
  sat (quota k a) Q m -> (forall x, Q x -> sat (quota k b) R (f x)) ->
  sat (quota k n) R (bind m f).
Proof.
  intros Hn. apply sat_bind; unfold quota.
  - intros evs. lia.
  - intros e1 e2. rewrite count_calls_app. lia.
Qed.

Lemma sat_quota_of_only {A} k k' n (Q : A -> Prop) m :
  (forall c, k' c = true -> k c = false) ->
  sat (only k') Q m -> sat (quota k n) Q m.
Proof.
  intros H. apply sat_weaken; [|auto].
  intros evs Ho. unfold quota. rewrite (only_count_zero k' k evs H Ho). lia.
Qed.

Lemma sat_quota_catch_all {A} k n (Q : A -> Prop) m (a : A) :
  Q a -> sat (quota k n) Q m -> sat (quota k n) Q (catch_all m (ret a)).
Proof.
  intros HQ Hm.
  apply sat_catch_all with (P1 := quota k n) (P2 := quota k 0).
  - auto.
  - unfold quota. intros e1 e2. rewrite count_calls_app. lia.
  - assumption.
  - now apply sat_quota_ret.
Qed.

Lemma sat_quota_skip {A B} k n c (dec : Resp -> option (exn + A)) (f : A -> M B) :
  k c = false ->
  (forall x, sat (quota k n) (fun _ => True) (f x)) ->
  sat (quota k n) (fun _ => True) (bind (ask c dec) f).
Proof.
  intros Hk Hf.
  apply sat_quota_bind with (a := 0%nat) (b := n) (Q := fun _ => True); [lia | | auto].
  generalize (@sat_quota_ask A k c dec). now rewrite Hk.
Qed.

Lemma sat_quota_spend {A B} k n c (dec : Resp -> option (exn + A)) (f : A -> M B) :
  k c = true ->
  (forall x, sat (quota k n) (fun _ => True) (f x)) ->
  sat (quota k (S n)) (fun _ => True) (bind (ask c dec) f).
Proof.
  intros Hk Hf.
  apply sat_quota_bind with (a := 1%nat) (b := n) (Q := fun _ => True); [lia | | auto].
  generalize (@sat_quota_ask A k c dec). now rewrite Hk.
Qed.

Lemma sat_quota_decode {A B} k n (r : exn + A) (f : A -> M B) :
  (forall x, sat (quota k n) (fun _ => True) (f x)) ->
  sat (quota k n) (fun _ => True) (bind (decode r) f).
Proof.
  intros Hf.
  apply sat_quota_bind with (a := 0%nat) (b := n) (Q := fun _ => True); [lia | | auto].
  apply sat_quota_of_only with (k' := fun _ => false); [discriminate|].
  apply sat_only_decode.
Qed.

(** The budget is spent call by call along the text of a block. *)
Ltac sat_quota_step :=
  lazymatch goal with
  | |- sat _ _ (ret _) => apply sat_quota_ret; exact I
  | |- sat _ _ (bind (ask _ _) _) =>
      first [ apply sat_quota_skip; [reflexivity | intros ?]
            | apply sat_quota_spend; [reflexivity | intros ?] ]
  | |- sat _ _ (bind (decode _) _) => apply sat_quota_decode; intros ?
  | |- sat _ _ (if ?b then _ else _) => destruct b eqn:?
  | |- sat _ _ (match ?x with _ => _ end) => destruct x eqn:?
  end.
Ltac sat_quota := repeat sat_quota_step.

Section HandshakeBudget.
Context {codec : Codec}.

Lemma quota_poll_once_wait : sat (quota is_wait 1) (fun _ => True) poll_once.
Proof.
  unfold poll_once, getSocketFd, sleep_for, select, readPacket.
  sat_quota.
Qed.

Lemma quota_poll_loop_wait n : sat (quota is_wait n) (fun _ => True) (poll_loop n).
Proof.
  induction n as [|n IH]; cbn [poll_loop].
  - sat_quota.
  - apply sat_quota_bind with (a := 1%nat) (b := n) (Q := fun _ => True);
      [lia | apply quota_poll_once_wait |].
    intros r _. destruct r; [exact IH | sat_quota ..].
Qed.

Lemma quota_poll_loop_none k n :
  (forall c, poll_calls c = true -> k c = false) ->
  sat (quota k 0) (fun _ => True) (poll_loop n).
Proof.
  intros H. apply sat_quota_of_only with (k' := poll_calls); [exact H|].
  apply sat_poll_loop.
Qed.

Lemma quota_attempt_wait : sat (quota is_wait 3) (fun _ => True) attempt.
Proof.
  unfold attempt. apply sat_quota_catch_all; [exact I|].
  unfold attempt_body, connect, writePacket.
  sat_quota. apply quota_poll_loop_wait.
Qed.

Lemma quota_attempt_connect : sat (quota is_connect 1) (fun _ => True) attempt.
Proof.
  unfold attempt. apply sat_quota_catch_all; [exact I|].
  unfold attempt_body, connect, writePacket.
  sat_quota. apply quota_poll_loop_none.
  intros c. destruct c; cbn; congruence.
Qed.

Lemma quota_attempt_payload : sat (quota is_initial_payload 1) (fun _ => True) attempt.
Proof.
  unfold attempt. apply sat_quota_catch_all; [exact I|].
  unfold attempt_body, connect, writePacket.
  sat_quota. apply quota_poll_loop_none.
  intros c. destruct c; cbn; congruence.
Qed.

(** Each attempt that fails raises the counter, and the loop gives up when
    it reaches three: the budget of the loop is that of the attempts left. *)
Lemma quota_connect_loop k q :
  sat (quota k q) (fun _ => True) attempt ->
  forall fuel count, 0 <= count < 3 ->
    sat (quota k (q * Z.to_nat (3 - count))) (fun _ => True) (connect_loop fuel count).
Proof.
  intros Ha. induction fuel as [|fuel IH]; intros count Hc; cbn [connect_loop].
  - apply sat_stuck. unfold quota. cbn. lia.
  - apply sat_quota_bind
      with (a := q) (b := (q * Z.to_nat (3 - (count + 1)))%nat) (Q := fun _ => True).
    + replace (Z.to_nat (3 - count)) with (S (Z.to_nat (3 - (count + 1)))) by lia. lia.
    + exact Ha.
    + intros r _. destruct r; [| sat_quota ..].
      cbv zeta. destruct (count + 1 >=? 3) eqn:E; [sat_quota|].
      apply IH. lia.
Qed.

Lemma handshake_never_throws w e : fst (handshake w) <> Exc e.
Proof.
  unfold handshake.
  assert (H : forall fuel count w, fst (connect_loop fuel count w) <> Exc e).
  { induction fuel as [|fuel IH]; intros count w0; cbn [connect_loop].
    - discriminate.
    - unfold bind. destruct (attempt w0) as [o w1] eqn:E.
      pose proof (attempt_no_exception w0) as Hn. rewrite E in Hn. cbn in Hn.
      destruct o as [r|e'|]; [| now destruct (Hn e') | discriminate].
      destruct r; cbn; try discriminate.
      destruct (count + 1 >=? 3); [discriminate | apply IH]. }
  apply H.
Qed.

End HandshakeBudget.

(** The handshake is bounded in every kind of call it makes: at most three
    [connect]s, three initial payloads and nine waits of one second (a
    [select] or a sleep), whatever the transport answers; it makes no other
    call than those of an attempt, and no exception leaves it. *)
Theorem handshake_budget {codec : Codec} (w : World) :
  exists evs,
    trace (snd (handshake w)) = trace w ++ evs
    /\ only attempt_calls evs
    /\ quota is_connect 3 evs
    /\ quota is_initial_payload 3 evs
    /\ quota is_wait 9 evs
    /\ forall e, fst (handshake w) <> Exc e.
Proof.
  pose proof (post_of_sat _ _ _ sat_handshake) as H1.
  pose proof (post_of_sat _ _ _
    (quota_connect_loop is_connect 1 quota_attempt_connect 3 0 ltac:(lia))) as H2.
  pose proof (post_of_sat _ _ _
    (quota_connect_loop is_initial_payload 1 quota_attempt_payload 3 0 ltac:(lia))) as H3.
  pose proof (post_of_sat _ _ _
    (quota_connect_loop is_wait 3 quota_attempt_wait 3 0 ltac:(lia))) as H4.
  pose proof (post_conj _ _ _ H1 (post_conj _ _ _ H2 (post_conj _ _ _ H3 H4))) as H.
  destruct (post_run _ _ w H) as (evs & Ht & Ho & Hc & Hp & Hw).
  exists evs. repeat split; try assumption.
  - clear -Ho. destruct (fst (handshake w)); tauto.
  - clear -Hc. destruct (fst (handshake w)); cbn in *; tauto.
  - clear -Hp. destruct (fst (handshake w)); cbn in *; tauto.
  - clear -Hw. destruct (fst (handshake w)); cbn in *; tauto.
  - apply handshake_never_throws.
Qed.

(** ** What a handshake that succeeds has read *)

Section HandshakeSuccess.
Context {codec : Codec}.

Lemma poll_once_break_inv s tr w' :
  poll_once (mkWorld s tr) = (Val PollBreak, w') ->
  exists fd rfd p ir rest,
    s = RInt fd :: RReady rfd :: RPacket (Some p) :: rest
    /\ w' = after (response_events fd rfd p) rest tr
    /\ 0 <= fd /\ FD_ISSET fd rfd = true
    /\ getHeader p = INITIAL_RESPONSE
    /\ stringToProto_InitialResponse (getPayload p) = inr ir
    /\ has_error ir = false.
Proof.
  unfold poll_once, getSocketFd, sleep_for, select, readPacket, bind, ask.
  cbn [script trace].
  destruct s as [|[] s1]; cbn; try discriminate.
  destruct (z <? 0) eqn:Efd.
  { destruct s1 as [|[] s2]; cbn; discriminate. }
  destruct s1 as [|[] s2]; cbn; try discriminate.
  destruct (FD_ISSET z fds) eqn:Eready; [|discriminate].
  destruct s2 as [|[] s3]; cbn; try discriminate.
  destruct p as [p|]; [|discriminate].
  destruct (PacketType_eqb (getHeader p) INITIAL_RESPONSE) eqn:Ekind;
    cbn; [|discriminate].
  destruct (stringToProto_InitialResponse (getPayload p)) as [e|ir] eqn:Edec;
    cbn; [discriminate|].
  destruct (has_error ir) eqn:Eerr; cbn; [discriminate|].
  intros [= <-]. exists z, fds, p, ir, s3.
  apply PacketType_eqb_eq in Ekind.
  apply Z.ltb_ge in Efd.
  unfold after, response_events. rewrite <- !app_assoc. cbn.
  repeat split; assumption.
Qed.

Lemma ends_with_response_prefix e1 e2 :
  ends_with_response e2 -> ends_with_response (e1 ++ e2).
Proof.
  intros (evs0 & fd & rfd & p & ir & -> & H).
  exists (e1 ++ evs0), fd, rfd, p, ir. now rewrite app_assoc.
Qed.

Lemma post_poll_once_break :
  post (fun o evs => o = Val PollBreak -> ends_with_response evs) poll_once.
Proof.
  intros [s tr].
  destruct (sat_poll_once (mkWorld s tr)) as [(evs' & Ht' & Hs' & _) _].
  exists evs'. repeat split; try assumption.
  intros Ho. destruct (poll_once (mkWorld s tr)) as [o w'] eqn:E. cbn in Ho. subst o.
  destruct (poll_once_break_inv _ _ _ E)
    as (fd & rfd & p & ir & rest & -> & -> & H).
  cbn in Ht'. apply app_inv_head in Ht'. subst evs'.
  exists [], fd, rfd, p, ir. now split.
Qed.

Lemma post_poll_loop_ok n :
  post (fun o evs => o = Val AttemptOk -> ends_with_response evs) (poll_loop n).
Proof.
  induction n as [|n IH]; cbn [poll_loop].
  - apply post_ret. discriminate.
  - eapply post_bind; [apply post_poll_once_break | | discriminate | discriminate].
    intros r e1 H1. destruct r.
    + eapply post_weaken; [|exact IH].
      intros o e2 H Ho. now apply ends_with_response_prefix, H.
    + apply post_ret. intros _. rewrite app_nil_r. now apply H1.
    + apply post_ret. discriminate.
Qed.

Lemma post_attempt_ok :
  post (fun o evs => o = Val AttemptOk -> ends_with_response evs) attempt.
Proof.
  unfold attempt.
  eapply post_catch_all
    with (P1 := fun o evs => o = Val AttemptOk -> ends_with_response evs).
  - unfold attempt_body.
    eapply post_prefix_bind with (k := fun _ => true) (Q := fun _ => True).
    + intros e1 e2 o _ H Ho. now apply ends_with_response_prefix, H.
    + discriminate.
    + discriminate.
    + unfold connect. apply sat_only_ask. reflexivity.
    + intros ok _. destruct ok; [|apply post_ret; discriminate].
      eapply post_prefix_bind with (k := fun _ => true) (Q := fun _ => True).
      * intros e1 e2 o _ H Ho. now apply ends_with_response_prefix, H.
      * discriminate.
      * discriminate.
      * unfold writePacket. apply sat_only_ask. reflexivity.
      * intros _ _. apply post_poll_loop_ok.
  - auto.
  - intros e e1 _. apply post_ret. discriminate.
  - discriminate.
Qed.

Lemma post_connect_loop_connected fuel : forall count,
  post (fun o evs => o = Val Connected -> ends_with_response evs)
       (connect_loop fuel count).
Proof.
  induction fuel as [|fuel IH]; intros count; cbn [connect_loop].
  - intros w. exists []. cbn. rewrite app_nil_r. repeat split. discriminate.
  - eapply post_bind; [apply post_attempt_ok | | discriminate | discriminate].
    intros r e1 H1. destruct r.
    + cbv zeta. destruct (count + 1 >=? 3); [apply post_ret; discriminate|].
      eapply post_weaken; [|apply IH].
      intros o e2 H Ho. now apply ends_with_response_prefix, H.
    + apply post_ret. intros _. rewrite app_nil_r. now apply H1.
    + apply post_ret. discriminate.
Qed.

End HandshakeSuccess.

(** The handshake reports success only after the read of a well-formed
    initial response without error: a response of another kind, a response
    that carries an error, or no response at all never gives [Connected]. *)
Theorem handshake_connected_response {codec : Codec} (w w' : World) :
  handshake w = (Val Connected, w') ->
  exists evs, trace w' = trace w ++ evs /\ ends_with_response evs.
Proof.
  intros H.
  destruct (post_run _ _ w (post_connect_loop_connected 3 0)) as (evs & Ht & Hp).
  fold handshake in Ht, Hp. rewrite H in Ht, Hp. cbn in Ht, Hp.
  exists evs. split; [assumption | now apply Hp].
Qed.

Lemma handshake_connected_response_witness :
  let w := mkWorld sample_handshake_script [] in
  exists evs, trace (snd (@handshake sample_codec w)) = trace w ++ evs
              /\ @ends_with_response sample_codec evs.
Proof.
  intros w.
  apply (@handshake_connected_response sample_codec w (snd (@handshake sample_codec w))).
  vm_compute. reflexivity.
Defined.

(** ** The calls of a run that returns 0 *)

Lemma post_ask_bind {A B} (P : outcome B -> list Event -> Prop) c
    (dec : Resp -> option (exn + A)) (f : A -> M B) :
  P Stuck [] ->
  (forall r e, dec r = Some (inl e) -> P (Exc e) [(c, r)]) ->
  (forall r a, dec r = Some (inr a) -> post (fun o e2 => P o ((c, r) :: e2)) (f a)) ->
  post P (bind (ask c dec) f).
Proof.
  intros Hs He Hv w. unfold bind, ask.
  destruct (script w) as [|r rest] eqn:Hw; cbn.
  { exists []. rewrite app_nil_r, Hw. auto. }
  destruct (dec r) as [[e|a]|] eqn:Hd; cbn.
  - exists [(c, r)]. cbn. auto.
  - destruct (Hv r a Hd (mkWorld rest (trace w ++ [(c, r)]))) as (e2 & T & S & HP).
    exists ((c, r) :: e2). cbn in T, S. repeat split.
    + rewrite T, <- app_assoc. reflexivity.
    + cbn. now rewrite <- S.
    + exact HP.
  - exists []. rewrite app_nil_r, Hw. auto.
Qed.

Section OrderlyRun.
Context {codec : Codec}.
Variable L : Locals.

Lemma post_run_loop_calls st :
  post (fun o evs => o = Val 0 ->
          exists e_loop, evs = e_loop ++ [ (CShutdown, RUnit) ]
                         /\ only (loop_calls L) e_loop)
       (run_loop L st).
Proof.
  unfold run_loop.
  eapply post_bind;
    [ apply post_of_sat,
        (sat_fueled _ _ (fun n => main_loop L n st) script_fuel);
      intros n; apply sat_main_loop
    | | discriminate | discriminate ].
  intros [] e1 [Ho _]. unfold shutdown.
  apply post_ask_bind; try discriminate.
  intros r [] Hr. destruct r; try discriminate.
  apply post_ret. intros _. exists e1. split; [reflexivity | assumption].
Qed.

Lemma post_session_calls :
  post (fun o evs => o = Val 0 ->
          exists now e_loop,
            evs = [ (CTime, RInt now) ] ++ e_loop ++ [ (CShutdown, RUnit) ]
            /\ only (loop_calls L) e_loop)
       (session L).
Proof.
  unfold session, time.
  apply post_ask_bind; try discriminate.
  intros r now Hr. destruct r; try discriminate. injection Hr as ->.
  eapply post_weaken; [|apply post_run_loop_calls].
  intros o e2 H Ho. destruct (H Ho) as (e_loop & -> & Hl).
  exists now, e_loop. split; [reflexivity | assumption].
Qed.

End OrderlyRun.

(** A run that returns 0 has made, in this order: the two opening calls, a
    handshake that ends with the read of a good response, one clock reading,
    the calls of the main loop, and [shutdown]; nothing else, and nothing
    after [shutdown]. *)
Theorem run_returning_zero {codec : Codec} fin fout p h port i k secs (w w' : World) :
  et_client_main (Some fin) (Some fout) (Some p) (Some h) port (Some i) (Some k) secs w
  = (Val 0, w') ->
  exists evs,
    trace w' = trace w ++ evs
    /\ orderly_run
         (mkLocals (fileno fin) (fileno fout) (if secs <? 1 then 5 else secs) (Some p))
         [ (CDisableAbortOnFatal, RUnit); (CNewConnection h port i k, RUnit) ]
         evs.
Proof.
  intros H.
  set (L := mkLocals (fileno fin) (fileno fout) (if secs <? 1 then 5 else secs) (Some p)).
  set (opening := [ (CDisableAbortOnFatal, RUnit); (CNewConnection h port i k, RUnit) ]).
  assert (Hp : post (fun o evs => o = Val 0 -> orderly_run L opening evs)
                 (et_client_main (Some fin) (Some fout) (Some p) (Some h) port
                    (Some i) (Some k) secs)).
  { unfold et_client_main. cbn [is_null]. cbv zeta. unfold disableAbortOnFatal.
    apply post_ask_bind; try discriminate.
    intros r [] Hr. destruct r; try discriminate.
    eapply post_catch_all
      with (P1 := fun o e2 => o = Val 0 ->
                    orderly_run L opening ((CDisableAbortOnFatal, RUnit) :: e2)).
    2:{ auto. }
    2:{ intros e e1 _. apply post_ret. discriminate. }
    2:{ discriminate. }
    unfold newConnection.
    apply post_ask_bind; try discriminate.
    intros r [] Hr'. destruct r; try discriminate.
    eapply post_bind;
      [ apply (post_conj _ _ _ (post_of_sat _ _ _ sat_handshake)
                 (post_connect_loop_connected 3 0))
      | | discriminate | discriminate ].
    intros r e_h [[Ho _] Hc]. destruct r; [|apply post_ret; discriminate].
    eapply post_weaken; [|apply (post_session_calls L)].
    intros o e2 H2 Ho2. destruct (H2 Ho2) as (now & e_loop & -> & Hl).
    exists e_h, now, e_loop. repeat split; auto. }
  destruct (post_run _ _ w Hp) as (evs & Ht & HP).
  rewrite H in Ht, HP. cbn in Ht, HP.
  exists evs. split; [assumption | now apply HP].
Qed.

Lemma run_returning_zero_witness :
  let w := mkWorld sample_clean_script [] in
  exists evs,
    trace (snd (sample_main 30 w)) = trace w ++ evs
    /\ @orderly_run sample_codec
         (mkLocals (fileno sample_in) (fileno sample_out) 30 (Some sample_ws))
         [ (CDisableAbortOnFatal, RUnit);
           (CNewConnection "host"%string 2022 "id"%string "key"%string, RUnit) ]
         evs.
Proof.
  intros w.
  apply (@run_returning_zero sample_codec sample_in sample_out sample_ws
           "host"%string 2022 "id"%string "key"%string 30 w (snd (sample_main 30 w))).
  vm_compute. reflexivity.
Defined.

(** ** The calls of the main loop and their arguments *)

Lemma sat_of_post {A} (P : list Event -> Prop) (m : M A) :
  post (fun _ evs => P evs) m -> sat P (fun _ => True) m.
Proof.
  intros H w. destruct (H w) as (evs & T & S & HP).
  split; [exists evs; auto | intros a _; exact I].
Qed.

Section SteadyCalls.
Context {codec : Codec}.
Variable L : Locals.
Variable setsize : Z.
Hypothesis inFd_fits : 0 <= inFd L < setsize.

Lemma steady_select clientFd :
  clientFd < setsize ->
  steady_calls L setsize
    (CSelect (maxfd L clientFd + 1) (watched L clientFd) 0 10000) = true.
Proof.
  intros Hfit.
  assert (Hin : within_capacity setsize (inFd L) = true).
  { unfold within_capacity. apply andb_true_intro.
    split; [apply Z.leb_le | apply Z.ltb_lt]; lia. }
  unfold steady_calls, maxfd, watched.
  destruct (clientFd >? 0) eqn:E; cbn [existsb forallb]; rewrite ?Z.eqb_refl, Hin; cbn.
  - apply Z.gtb_lt in E.
    assert (Hc : within_capacity setsize clientFd = true).
    { unfold within_capacity. apply andb_true_intro.
      split; [apply Z.leb_le | apply Z.ltb_lt]; lia. }
    rewrite Hc.
    replace (0 <? clientFd) with true by (symmetry; apply Z.ltb_lt; lia).
    destruct (clientFd >? inFd L) eqn:E'.
    + apply Z.gtb_lt in E'.
      replace (inFd L <? clientFd + 1) with true by (symmetry; apply Z.ltb_lt; lia).
      replace (clientFd <? clientFd + 1) with true by (symmetry; apply Z.ltb_lt; lia).
      cbn. rewrite ?orb_true_r. reflexivity.
    + assert (clientFd <= inFd L) by (rewrite Z.gtb_ltb in E'; apply Z.ltb_ge in E'; lia).
      replace (inFd L <? inFd L + 1) with true by (symmetry; apply Z.ltb_lt; lia).
      replace (clientFd <? inFd L + 1) with true by (symmetry; apply Z.ltb_lt; lia).
      cbn. rewrite ?orb_true_r. reflexivity.
  - replace (inFd L <? inFd L + 1) with true by (symmetry; apply Z.ltb_lt; lia).
    reflexivity.
Qed.

Lemma steady_input_step rfd st :
  sat (only (steady_calls L setsize)) (fun _ => True) (input_step L rfd st).
Proof.
  unfold input_step, sys_read, writePacket, time.
  sat_only; trivial.
  cbn. now rewrite !Z.eqb_refl.
Qed.

(** The loop writes only while bytes are left, and hands [::write] exactly
    the bytes that are left. *)
Lemma steady_write_loop fuel s : forall written,
  0 <= written ->
  sat (only (steady_calls L setsize)) (fun _ => True) (write_loop L fuel s written).
Proof.
  induction fuel as [|fuel IH]; intros written Hw; cbn [write_loop].
  - sat_only; trivial.
  - unfold sys_write. sat_only; trivial.
    + cbn. rewrite Z.eqb_refl, length_skipn. cbn.
      match goal with H : (written <? _) = true |- _ => apply Z.ltb_lt in H end.
      apply andb_true_intro. split; [apply Z.eqb_eq | apply Z.ltb_lt]; lia.
    + apply IH.
      match goal with H : (_ <=? 0) = false |- _ => apply Z.leb_gt in H end. lia.
Qed.

Lemma steady_dispatch packet st :
  sat (only (steady_calls L setsize)) (fun _ => True) (dispatch L packet st).
Proof.
  unfold dispatch, write_all, time.
  destruct (getHeader packet); sat_only; trivial.
  apply steady_write_loop. lia.
Qed.

Lemma steady_drain_loop fuel : forall st,
  sat (only (steady_calls L setsize)) (fun _ => True) (drain_loop L fuel st).
Proof.
  induction fuel as [|fuel IH]; intros st; cbn [drain_loop].
  - sat_only.
  - unfold hasData, read. sat_only; trivial.
    apply steady_dispatch.
Qed.

Lemma steady_geometry_step st :
  sat (only (steady_calls L setsize)) (fun _ => True) (geometry_step L st).
Proof.
  unfold geometry_step, read_winsize, writePacket.
  destruct (ws L) as [p|] eqn:E; [|sat_only; trivial].
  eapply sat_only_bind.
  - apply sat_only_ask. cbn. rewrite E. apply Z.eqb_refl.
  - intros w _. cbv zeta. sat_only; trivial.
Qed.

Lemma steady_keepalive_step clientFd st :
  sat (only (steady_calls L setsize)) (fun _ => True) (keepalive_step L clientFd st).
Proof.
  unfold keepalive_step, time, closeSocketAndMaybeReconnect, writePacket.
  sat_only; trivial.
Qed.

Lemma steady_tick_body clientFd rfd st :
  sat (only (steady_calls L setsize)) (fun _ => True) (tick_body L clientFd rfd st).
Proof.
  unfold tick_body.
  eapply sat_only_bind; [apply steady_input_step|].
  intros [st1|] _; [|now apply sat_only_ret].
  unfold after_input.
  apply sat_only_bind with (Q := fun _ => True).
  { unfold drain_step. destruct (_ && _); [|now apply sat_only_ret].
    apply (sat_fueled _ _ (fun n => drain_loop L n st1) script_fuel).
    intros n. apply steady_drain_loop. }
  intros st2 _.
  eapply sat_only_bind; [apply steady_keepalive_step|].
  intros st3 _. cbv zeta.
  eapply sat_only_bind; [apply steady_geometry_step|].
  intros st4 _. now apply sat_only_ret.
Qed.

(** The pass from [select] on, when the descriptor fits. *)
Lemma steady_tick_at clientFd st :
  clientFd < setsize ->
  sat (only (steady_calls L setsize)) (fun _ => True) (tick_at L clientFd st).
Proof.
  intros Hfit. unfold tick_at, select.
  eapply sat_only_bind; [now apply sat_only_ask, steady_select|]. intros rfd _.
  eapply sat_catch_runtime_error
    with (P1 := only (steady_calls L setsize)) (P2 := only (steady_calls L setsize));
    [auto | apply only_app | apply steady_tick_body | now apply sat_only_ret].
Qed.

Lemma sat_tick_at_any clientFd st :
  sat (only (fun _ => true)) (fun _ => True) (tick_at L clientFd st).
Proof.
  unfold tick_at, select.
  eapply sat_only_bind; [now apply sat_only_ask|]. intros rfd _.
  eapply sat_catch_runtime_error
    with (P1 := only (fun _ => true)) (P2 := only (fun _ => true));
    [auto | apply only_app | | now apply sat_only_ret].
  apply sat_only_mono with (k := tick_calls L); [reflexivity | apply sat_tick_body].
Qed.

Lemma steady_while_fit_only evs :
  only (steady_calls L setsize) evs -> steady_while_fit L setsize evs.
Proof.
  intros H evs1 evs2 -> _. unfold only in *. now apply Forall_app in H.
Qed.

Lemma steady_while_fit_app e1 e2 :
  steady_while_fit L setsize e1 -> steady_while_fit L setsize e2 ->
  steady_while_fit L setsize (e1 ++ e2).
Proof.
  intros H1 H2 evs1 evs2 E Hfit.
  apply app_eq_app in E. destruct E as (l & [[-> ->] | [-> ->]]).
  - apply (H1 evs1 l eq_refl Hfit).
  - unfold descriptors_fit in Hfit. apply Forall_app in Hfit. destruct Hfit as [F1 Fl].
    apply only_app.
    + apply (H1 e1 [] (eq_sym (app_nil_r e1)) F1).
    + apply (H2 l evs2 eq_refl Fl).
Qed.

(** A descriptor answered by [getSocketFd], then calls that are steady if
    that descriptor fits. *)
Lemma steady_while_fit_descriptor fd evs :
  (fd < setsize -> only (steady_calls L setsize) evs) ->
  steady_while_fit L setsize ((CGetSocketFd, RInt fd) :: evs).
Proof.
  intros H evs1 evs2 E Hfit.
  destruct evs1 as [|e evs1]; [apply only_nil|].
  cbn in E. injection E as <- ->.
  inversion Hfit as [|? ? Hfd Hrest]; subst.
  constructor; [reflexivity|].
  specialize (H Hfd). unfold only in *. now apply Forall_app in H.
Qed.

Lemma steady_tick st :
  sat (steady_while_fit L setsize) (fun _ => True) (tick L st).
Proof.
  apply sat_of_post. unfold tick, getSocketFd.
  apply post_ask_bind.
  - apply steady_while_fit_only, only_nil.
  - intros r e _. apply steady_while_fit_only. now apply only_one.
  - intros r fd Hr. destruct r; try discriminate. injection Hr as ->.
    destruct (Z_lt_dec fd setsize) as [Hfit|Hout].
    + eapply post_weaken; [|apply post_of_sat, (steady_tick_at fd st Hfit)].
      intros o e2 [Ho _]. now apply steady_while_fit_descriptor.
    + eapply post_weaken; [|apply post_of_sat, (sat_tick_at_any fd st)].
      intros o e2 _. apply steady_while_fit_descriptor. intros Hfit. contradiction.
Qed.

Lemma steady_main_loop fuel : forall st,
  sat (steady_while_fit L setsize) (fun _ => True) (main_loop L fuel st).
Proof.
  induction fuel as [|fuel IH]; intros st; cbn [main_loop].
  - apply sat_stuck, steady_while_fit_only, only_nil.
  - unfold isShuttingDown.
    eapply sat_bind
      with (P1 := steady_while_fit L setsize) (P2 := steady_while_fit L setsize)
           (Q := fun _ => True);
      [auto | apply steady_while_fit_app | |].
    { eapply sat_weaken; [apply steady_while_fit_only | auto |].
      now apply sat_only_ask. }
    intros [|] _.
    + apply sat_ret; [apply steady_while_fit_only, only_nil | exact I].
    + eapply sat_bind
        with (P1 := steady_while_fit L setsize) (P2 := steady_while_fit L setsize)
             (Q := fun _ => True);
        [auto | apply steady_while_fit_app | apply steady_tick |].
      intros [st'|] _; [apply IH|].
      apply sat_ret; [apply steady_while_fit_only, only_nil | exact I].
Qed.

End SteadyCalls.

(** With the input descriptor within the capacity of [fd_set]: whatever
    the host, the clock and the transport answer, and however the loop
    ends, every call the main loop makes before [getSocketFd] answers a
    descriptor beyond the capacity is one of [steady_calls].  Up to there it
    never connects, sleeps, reads a handshake packet or shuts down; every
    [select] watches [inFd], within the capacity and with [nfds] above each
    watched descriptor; every [::write] is on [outFd], for the exact length
    of what is left, never for nothing.  In a run in which every descriptor
    fits, that is every call of the loop. *)
Theorem main_loop_calls {codec : Codec} (L : Locals) (setsize : Z) fuel st (w : World) :
  0 <= inFd L < setsize ->
  exists evs,
    trace (snd (main_loop L fuel st w)) = trace w ++ evs
    /\ steady_while_fit L setsize evs
    /\ (descriptors_fit setsize evs -> only (steady_calls L setsize) evs).
Proof.
  intros Hin.
  destruct (steady_main_loop L setsize Hin fuel st w) as [(evs & T & _ & Ho) _].
  exists evs. split; [assumption|]. split; [assumption|].
  intros Hfit. apply (Ho evs [] (eq_sym (app_nil_r evs)) Hfit).
Qed.

(** On the sample locals with a capacity of 1024: a pass on descriptor 7,
    then a pass on descriptor 1030, which does not fit; the calls up to the
    answer 1030 are steady, and nothing is said of the [select] after it. *)
Lemma main_loop_calls_witness :
  let w := mkWorld [RBool false; RInt 7; RReady []; RInt 98;
                    RWinsize (mkWinsize 0 0 0 0);
                    RBool false; RInt 1030; RReady []] [] in
  let st := mkLoopState 100 false TerminalInfo_default in
  exists evs,
    trace (snd (@main_loop sample_codec sample_locals 3 st w)) = trace w ++ evs
    /\ only (steady_calls sample_locals 1024) (firstn 6 evs).
Proof.
  intros w st.
  destruct (@main_loop_calls sample_codec sample_locals 1024 3 st w ltac:(cbn; lia))
    as (evs & T & Hw & _).
  exists evs. split; [assumption|].
  apply (Hw (firstn 6 evs) (skipn 6 evs) (eq_sym (firstn_skipn 6 evs))).
  vm_compute in T. cbn in T. subst evs. cbn.
  repeat constructor.
Defined.

(** ** Draining a batch of inbound packets *)

Section DrainBatch.
Context {codec : Codec}.
Variable L : Locals.

Lemma map_snd_write_events s rcs : forall written,
  map snd (write_events L s written rcs) = map RInt rcs.
Proof.
  induction rcs as [|rc rcs IH]; intros written; cbn; [reflexivity|].
  now rewrite IH.
Qed.

Lemma drain_loop_inbound it fuel st rest tr :
  inbound_ok it ->
  drain_loop L (S fuel) st (mkWorld (map snd (inbound_events L it) ++ rest) tr)
  = drain_loop L fuel (inbound_effect L st it) (after (inbound_events L it) rest tr).
Proof.
  intros Hok. cbn [drain_loop]. unfold hasData, read, inbound_events.
  cbn [app map snd].
  rewrite (bind_ask _ _ _ _ true) by reflexivity. cbv beta iota.
  rewrite (bind_ask _ _ _ _ (Some (inbound_packet it))) by reflexivity.
  cbv beta iota. unfold bind at 1.
  destruct it as [payload tb rcs now | payload | packet]; cbn [inbound_packet inbound_effect].
  - destruct Hok as (Hdec & Hparts & Hall).
    rewrite map_app, map_snd_write_events, <- app_assoc. cbn [map snd app].
    rewrite (dispatch_complete L payload tb) by assumption.
    unfold after. now rewrite <- !app_assoc.
  - unfold dispatch. cbn. unfold after. now rewrite <- !app_assoc.
  - destruct Hok as [Hd Hk]. unfold dispatch.
    destruct (getHeader packet); try congruence;
      cbn; unfold after; now rewrite <- !app_assoc.
Qed.

Lemma drain_loop_batch items : forall fuel st rest tr,
  Forall inbound_ok items ->
  (List.length items < fuel)%nat ->
  drain_loop L fuel st (mkWorld (map snd (batch_events L items) ++ rest) tr)
  = (Val (fold_left (inbound_effect L) items st), after (batch_events L items) rest tr).
Proof.
  unfold batch_events.
  induction items as [|it items IH]; intros fuel st rest tr Hok Hfuel.
  - destruct fuel as [|fuel]; [cbn in Hfuel; lia|].
    cbn [drain_loop flat_map app map snd fold_left]. unfold hasData.
    rewrite (bind_ask _ _ _ _ false) by reflexivity.
    reflexivity.
  - destruct fuel as [|fuel]; [cbn in Hfuel; lia|].
    inversion Hok as [|? ? Hit Hitems]; subst.
    cbn [flat_map fold_left].
    rewrite <- app_assoc, map_app, <- app_assoc.
    rewrite drain_loop_inbound by assumption.
    unfold after at 1.
    rewrite IH by (assumption || (cbn in Hfuel; lia)).
    unfold after. now rewrite <- !app_assoc.
Qed.

Lemma local_output_inbound it :
  inbound_ok it ->
  local_output (outFd L) (inbound_events L it) = inbound_output it.
Proof.
  intros Hok. unfold inbound_events. rewrite local_output_app. cbn [local_output flat_map app].
  destruct it as [payload tb rcs now | payload | packet]; cbn [inbound_output];
    [|reflexivity ..].
  destruct Hok as (Hdec & Hparts & Hall).
  rewrite local_output_app, local_output_parts by (assumption || lia).
  cbn [Z.to_nat skipn local_output flat_map]. rewrite app_nil_r.
  apply firstn_all2. lia.
Qed.

Lemma local_output_batch items :
  Forall inbound_ok items ->
  local_output (outFd L) (batch_events L items) = flat_map inbound_output items.
Proof.
  unfold batch_events. intros Hok. rewrite local_output_app.
  cbn [local_output flat_map]. rewrite app_nil_r.
  induction Hok as [|it items Hit _ IH]; [reflexivity|].
  cbn [flat_map]. now rewrite local_output_app, IH, local_output_inbound.
Qed.

Lemma batch_events_length items :
  (List.length items < List.length (batch_events L items))%nat.
Proof.
  unfold batch_events. rewrite length_app. cbn [List.length].
  induction items as [|it items IH]; cbn [flat_map List.length]; [lia|].
  rewrite length_app. unfold inbound_events at 1. cbn [app List.length]. lia.
Qed.

Lemma only_write_events s rcs : forall written,
  only (drain_calls L) (write_events L s written rcs).
Proof.
  induction rcs as [|rc rcs IH]; intros written; cbn [write_events].
  - apply only_nil.
  - constructor; [cbn; apply Z.eqb_refl | apply IH].
Qed.

Lemma only_batch_events items : only (drain_calls L) (batch_events L items).
Proof.
  unfold batch_events. apply only_app; [|repeat constructor].
  induction items as [|it items IH]; cbn [flat_map]; [apply only_nil|].
  apply only_app; [|exact IH].
  unfold inbound_events. apply only_app; [repeat constructor|].
  destruct it; try apply only_nil.
  apply only_app; [apply only_write_events | repeat constructor].
Qed.

Lemma drain_step_run_batch clientFd rfd items st rest tr :
  0 < clientFd -> FD_ISSET clientFd rfd = true ->
  Forall inbound_ok items ->
  drain_step L clientFd rfd st (mkWorld (map snd (batch_events L items) ++ rest) tr)
  = (Val (fold_left (inbound_effect L) items st), after (batch_events L items) rest tr).
Proof.
  intros Hfd Hready Hok.
  unfold drain_step. rewrite Hready.
  replace (clientFd >? 0) with true by (symmetry; apply Z.gtb_lt; lia).
  cbn [andb]. apply drain_loop_batch; [assumption|].
  unfold script_fuel. cbn [script]. rewrite length_app, length_map.
  apply Nat.lt_lt_succ_r.
  eapply Nat.lt_le_trans; [apply batch_events_length | apply Nat.le_add_r].
Qed.

(** What a batch leaves of the locals. *)
Lemma batch_waitingOnKeepalive items : forall st,
  waitingOnKeepalive (fold_left (inbound_effect L) items st)
  = waitingOnKeepalive st && negb (existsb is_keepalive_item items).
Proof.
  induction items as [|it items IH]; intros st; cbn [fold_left existsb].
  - now rewrite andb_true_r.
  - rewrite IH. destruct it; cbn; try reflexivity. now rewrite andb_false_r.
Qed.

Lemma batch_lastTerminalInfo items : forall st,
  lastTerminalInfo (fold_left (inbound_effect L) items st) = lastTerminalInfo st.
Proof.
  induction items as [|it items IH]; intros st; cbn [fold_left]; [reflexivity|].
  rewrite IH. now destruct it.
Qed.

(** The pass after a batch: the keepalive block sees the locals the batch
    left. *)
Lemma after_input_batch clientFd rfd items st rest tr :
  0 < clientFd -> FD_ISSET clientFd rfd = true ->
  Forall inbound_ok items ->
  after_input L clientFd rfd st
    (mkWorld (map snd (batch_events L items) ++ rest) tr)
  = (st2 <- keepalive_step L clientFd (fold_left (inbound_effect L) items st) ;;
     st3 <- geometry_step L st2 ;;
     ret (Continue st3))
      (after (batch_events L items) rest tr).
Proof.
  intros Hfd Hready Hok. unfold after_input.
  rewrite (bind_run _ _ _ _ _ (drain_step_run_batch _ _ _ st rest tr Hfd Hready Hok)).
  unfold invalid_fd_step.
  replace (clientFd <? 0) with false by (symmetry; apply Z.ltb_ge; lia).
  reflexivity.
Qed.

End DrainBatch.

(** The drain of one pass takes a whole batch of inbound packets, whatever
    their number and mix: the local output receives the bytes of the
    terminal-data packets in the order of arrival and nothing else; the
    deadline is that of the last terminal-data packet; the pending flag is
    cleared if a keepalive was among them; packets of other kinds are read
    and skipped. *)
Theorem drain_step_batch {codec : Codec} (L : Locals) clientFd rfd items st rest tr :
  0 < clientFd -> FD_ISSET clientFd rfd = true ->
  Forall inbound_ok items ->
  drain_step L clientFd rfd st (mkWorld (map snd (batch_events L items) ++ rest) tr)
  = (Val (fold_left (inbound_effect L) items st), after (batch_events L items) rest tr)
  /\ local_output (outFd L) (batch_events L items) = flat_map inbound_output items.
Proof.
  intros Hfd Hready Hok. split;
    [now apply drain_step_run_batch | now apply local_output_batch].
Qed.

Lemma drain_step_batch_witness :
  let L := sample_locals in
  @drain_step sample_codec L 5 [5] (mkLoopState 10 true TerminalInfo_default)
    (mkWorld (map snd (batch_events L sample_batch) ++ []) [])
  = (Val (fold_left (inbound_effect L) sample_batch
            (mkLoopState 10 true TerminalInfo_default)),
     after (batch_events L sample_batch) [] [])
  /\ local_output (outFd L) (batch_events L sample_batch)
     = flat_map inbound_output sample_batch.
Proof.
  intros L.
  apply (@drain_step_batch sample_codec L 5 [5] sample_batch
           (mkLoopState 10 true TerminalInfo_default) [] []).
  - lia.
  - reflexivity.
  - unfold sample_batch. repeat apply Forall_cons; try apply Forall_nil; cbn.
    + repeat split; lia.
    + split; discriminate.
    + exact I.
    + repeat split; lia.
Defined.

(** The drain comes before the look at the deadline.  A keepalive packet
    that is inbound on the very pass that finds the deadline passed is taken
    first, wherever it stands in the batch: the pass then sends a new probe
    and requests no reconnect, also when a probe was outstanding. *)
Theorem keepalive_in_batch_prevents_reconnect {codec : Codec} (L : Locals)
    clientFd rfd items st now now' rest tr :
  0 < clientFd -> FD_ISSET clientFd rfd = true ->
  Forall inbound_ok items ->
  existsb is_keepalive_item items = true ->
  keepaliveTime (fold_left (inbound_effect L) items st) < now ->
  let evs :=
    batch_events L items
    ++ [ (CTime, RInt now); (CTime, RInt now');
         (CWritePacket (mkPacket KEEP_ALIVE []), RUnit) ] in
  after_input L clientFd rfd st (mkWorld (map snd evs ++ rest) tr)
  = (st3 <- geometry_step L
              (mkLoopState (now' + keepalive_secs L) true (lastTerminalInfo st)) ;;
     ret (Continue st3))
      (after evs rest tr)
  /\ count_calls is_reconnect evs = 0%nat.
Proof.
  intros Hfd Hready Hok Hka Hlate evs. subst evs. split.
  - rewrite map_app, <- app_assoc.
    rewrite after_input_batch by assumption.
    unfold after at 1. cbn [map snd app].
    erewrite bind_run
      by (apply keepalive_step_probe;
          [assumption | assumption
          | rewrite batch_waitingOnKeepalive, Hka; apply andb_false_r]).
    rewrite batch_lastTerminalInfo.
    unfold after. now rewrite <- !app_assoc.
  - rewrite count_calls_app.
    rewrite (only_count_zero (drain_calls L) is_reconnect (batch_events L items));
      [reflexivity | | apply only_batch_events].
    intros c. destruct c; cbn; congruence.
Qed.

Lemma keepalive_in_batch_prevents_reconnect_witness :
  let L := sample_locals in
  let st := mkLoopState 10 true TerminalInfo_default in
  let evs :=
    batch_events L sample_batch
    ++ [ (CTime, RInt 50); (CTime, RInt 51);
         (CWritePacket (mkPacket KEEP_ALIVE []), RUnit) ] in
  @after_input sample_codec L 5 [5] st (mkWorld (map snd evs ++ []) [])
  = (st3 <- @geometry_step sample_codec L
              (mkLoopState (51 + keepalive_secs L) true (lastTerminalInfo st)) ;;
     ret (Continue st3))
      (after evs [] [])
  /\ count_calls is_reconnect evs = 0%nat.
Proof.
  intros L st.
  apply (@keepalive_in_batch_prevents_reconnect sample_codec L 5 [5] sample_batch
           st 50 51 [] []).
  - lia.
  - reflexivity.
  - unfold sample_batch. repeat apply Forall_cons; try apply Forall_nil; cbn.
    + repeat split; lia.
    + split; discriminate.
    + exact I.
    + repeat split; lia.
  - reflexivity.
  - cbn. lia.
Defined.

(** ** The deadline over a pass *)

Lemma post_catch_runtime_error {A} (P1 P : outcome A -> list Event -> Prop) m h :
  post P1 m ->
  (forall a e1, P1 (Val a) e1 -> P (Val a) e1) ->
  (forall e1, P1 (Exc RuntimeError) e1 -> post (fun o e2 => P o (e1 ++ e2)) h) ->
  (forall e1, P1 (Exc OtherException) e1 -> P (Exc OtherException) e1) ->
  (forall e1, P1 Stuck e1 -> P Stuck e1) ->
  post P (catch_runtime_error m h).
Proof.
  intros Hm Hv He Ho Hs w. unfold catch_runtime_error.
  destruct (Hm w) as (e1 & T1 & S1 & H1).
  destruct (m w) as [[a|[|]|] w1]; cbn in *.
  - exists e1. auto.
  - destruct (He e1 H1 w1) as (e2 & T2 & S2 & H2).
    exists (e1 ++ e2). repeat split.
    + now rewrite T2, T1, app_assoc.
    + now rewrite S1, S2, map_app, app_assoc.
    + exact H2.
  - exists e1. auto.
  - exists e1. auto.
Qed.

Section DeadlineFacts.
Context {codec : Codec}.
Variable L : Locals.

Lemma deadline_from_refl d evs : deadline_from L d evs d.
Proof. now left. Qed.

Lemma deadline_from_prefix d e1 e2 d' :
  deadline_from L d e2 d' -> deadline_from L d (e1 ++ e2) d'.
Proof.
  intros [->|(t & Hin & ->)]; [now left|].
  right. exists t. split; [|reflexivity]. apply in_or_app. now right.
Qed.

Lemma deadline_from_trans d e1 d1 e2 d2 :
  deadline_from L d e1 d1 -> deadline_from L d1 e2 d2 ->
  deadline_from L d (e1 ++ e2) d2.
Proof.
  intros H1 [->|(t & Hin & ->)].
  - destruct H1 as [->|(t & Hin & ->)]; [now left|].
    right. exists t. split; [|reflexivity]. apply in_or_app. now left.
  - right. exists t. split; [|reflexivity]. apply in_or_app. now right.
Qed.

Lemma deadline_from_time d evs now :
  In (CTime, RInt now) evs -> deadline_from L d evs (now + keepalive_secs L).
Proof. intros H. right. eauto. Qed.

Lemma post_deadline_prefix {A B} (sB : B -> option LoopState) d (Q : A -> Prop)
    (m : M A) (f : A -> M B) :
  sat (only (fun _ => true)) Q m ->
  (forall a, Q a -> post (deadline_post L sB d) (f a)) ->
  post (deadline_post L sB d) (bind m f).
Proof.
  apply post_prefix_bind.
  - intros e1 e2 o _ H a st' Ho Hs. apply deadline_from_prefix. eauto.
  - intros e a st'. discriminate.
  - intros a st'. discriminate.
Qed.

Lemma post_deadline_bind {B} (sB : B -> option LoopState) d
    (m : M LoopState) (f : LoopState -> M B) :
  post (deadline_post L Some d) m ->
  (forall st1, post (deadline_post L sB (keepaliveTime st1)) (f st1)) ->
  post (deadline_post L sB d) (bind m f).
Proof.
  intros Hm Hf.
  eapply post_bind; [exact Hm | | |].
  - intros st1 e1 H1. eapply post_weaken; [|apply Hf].
    intros o e2 H2 b st' Ho Hs.
    eapply deadline_from_trans; [apply (H1 st1 st1); reflexivity | eauto].
  - intros e e1 _ a st'. discriminate.
  - intros e1 _ a st'. discriminate.
Qed.

Lemma post_deadline_input_step rfd st :
  post (deadline_post L (fun r => r) (keepaliveTime st)) (input_step L rfd st).
Proof.
  unfold input_step, sys_read, writePacket, time.
  destruct (FD_ISSET (inFd L) rfd).
  2:{ apply post_ret. intros a st' [= <-] [= <-]. apply deadline_from_refl. }
  apply post_ask_bind; [intros a st'; discriminate ..|].
  intros r [rc buf] Hr.
  destruct (rc <=? 0).
  { apply post_ret. intros a st' [= <-]. discriminate. }
  apply post_ask_bind; [intros a st'; discriminate ..|].
  intros r1 [] Hr1.
  apply post_ask_bind; [intros a st'; discriminate ..|].
  intros r2 now Hr2. destruct r2; try discriminate. injection Hr2 as ->.
  apply post_ret. intros a st' [= <-] [= <-]. cbn.
  apply deadline_from_time. cbn. auto.
Qed.

Lemma post_deadline_dispatch packet st :
  post (deadline_post L Some (keepaliveTime st)) (dispatch L packet st).
Proof.
  assert (Hsame : forall st0,
             keepaliveTime st0 = keepaliveTime st ->
             post (deadline_post L Some (keepaliveTime st)) (ret st0)).
  { intros st0 E. apply post_ret. intros a st' [= <-] [= <-]. rewrite E.
    apply deadline_from_refl. }
  unfold dispatch, write_all, time.
  destruct (getHeader packet); try (apply Hsame; reflexivity).
  eapply post_deadline_prefix; [apply sat_only_decode|]. intros tb _.
  eapply post_deadline_prefix.
  { apply sat_only_mono with (k := drain_calls L); [reflexivity|].
    apply sat_write_loop. }
  intros _ _.
  apply post_ask_bind; [intros a st'; discriminate ..|].
  intros r now Hr. destruct r; try discriminate. injection Hr as ->.
  apply post_ret. intros a st' [= <-] [= <-]. cbn.
  apply deadline_from_time. cbn. auto.
Qed.

Lemma post_deadline_drain_loop fuel : forall st,
  post (deadline_post L Some (keepaliveTime st)) (drain_loop L fuel st).
Proof.
  induction fuel as [|fuel IH]; intros st; cbn [drain_loop].
  - intros w. exists []. cbn. rewrite app_nil_r. repeat split. discriminate.
  - unfold hasData, read.
    eapply post_deadline_prefix; [now apply sat_only_ask|]. intros more _.
    destruct more.
    2:{ apply post_ret. intros a st' [= <-] [= <-]. apply deadline_from_refl. }
    eapply post_deadline_prefix; [now apply sat_only_ask|]. intros got _.
    destruct got as [packet|].
    2:{ apply post_ret. intros a st' [= <-] [= <-]. apply deadline_from_refl. }
    apply post_deadline_bind; [apply post_deadline_dispatch | apply IH].
Qed.

Lemma post_deadline_drain_step clientFd rfd st :
  post (deadline_post L Some (keepaliveTime st)) (drain_step L clientFd rfd st).
Proof.
  unfold drain_step. destruct (_ && _).
  - apply (post_fueled _ (fun n => drain_loop L n st) script_fuel).
    intros n. apply post_deadline_drain_loop.
  - apply post_ret. intros a st' [= <-] [= <-]. apply deadline_from_refl.
Qed.

Lemma post_deadline_keepalive_step clientFd st :
  post (deadline_post L Some (keepaliveTime st)) (keepalive_step L clientFd st).
Proof.
  unfold keepalive_step, time, closeSocketAndMaybeReconnect, writePacket.
  destruct (clientFd >? 0).
  2:{ apply post_ret. intros a st' [= <-] [= <-]. apply deadline_from_refl. }
  apply post_ask_bind; [intros a st'; discriminate ..|].
  intros r now Hr.
  destruct (keepaliveTime st <? now).
  2:{ apply post_ret. intros a st' [= <-] [= <-]. apply deadline_from_refl. }
  apply post_ask_bind; [intros a st'; discriminate ..|].
  intros r' now' Hr'. destruct r'; try discriminate. injection Hr' as ->.
  cbv zeta. cbn [waitingOnKeepalive set_keepaliveTime].
  destruct (waitingOnKeepalive st);
    (apply post_ask_bind; [intros a st'; discriminate ..|]);
    intros r2 [] Hr2; apply post_ret; intros a st' [= <-] [= <-]; cbn;
    apply deadline_from_time; cbn; auto.
Qed.

Lemma post_deadline_geometry_step st :
  post (deadline_post L Some (keepaliveTime st)) (geometry_step L st).
Proof.
  eapply post_weaken; [|apply post_of_sat, sat_geometry_step].
  intros o evs [_ HQ] a st' Ho [= <-].
  destruct (HQ a Ho) as [_ ->]. apply deadline_from_refl.
Qed.

Lemma post_deadline_tick_body clientFd rfd st :
  post (deadline_post L state_of_ctl (keepaliveTime st)) (tick_body L clientFd rfd st).
Proof.
  unfold tick_body.
  eapply post_bind; [apply post_deadline_input_step | | |];
    [|intros e e1 _ a st'; discriminate | intros e1 _ a st'; discriminate].
  intros [st1|] e1 H1.
  2:{ apply post_ret. intros a st' [= <-]. discriminate. }
  unfold after_input.
  assert (Hgo : post (deadline_post L state_of_ctl (keepaliveTime st1))
                  (st2 <- drain_step L clientFd rfd st1 ;;
                   st3 <- keepalive_step L clientFd st2 ;;
                   (let st4 := invalid_fd_step clientFd st3 in
                    st5 <- geometry_step L st4 ;; ret (Continue st5)))).
  { apply post_deadline_bind; [apply post_deadline_drain_step|]. intros st2.
    apply post_deadline_bind; [apply post_deadline_keepalive_step|]. intros st3.
    cbv zeta.
    replace (keepaliveTime st3) with (keepaliveTime (invalid_fd_step clientFd st3))
      by (unfold invalid_fd_step; now destruct (clientFd <? 0)).
    apply post_deadline_bind; [apply post_deadline_geometry_step|]. intros st5.
    apply post_ret. intros a st' [= <-] [= <-]. apply deadline_from_refl. }
  eapply post_weaken; [|exact Hgo].
  intros o e2 H2 a st' Ho Hs.
  eapply deadline_from_trans; [apply (H1 (Some st1) st1); reflexivity | eauto].
Qed.

Lemma post_deadline_tick st :
  post (deadline_post L state_of_ctl (keepaliveTime st)) (tick L st).
Proof.
  unfold tick, tick_at, getSocketFd, select.
  eapply post_deadline_prefix; [now apply sat_only_ask|]. intros clientFd _.
  eapply post_deadline_prefix; [now apply sat_only_ask|]. intros rfd _.
  eapply post_catch_runtime_error; [apply post_deadline_tick_body | auto | | | ].
  - intros e1 _. apply post_ret. intros a st' [= <-]. discriminate.
  - intros e1 _ a st'. discriminate.
  - intros e1 _ a st'. discriminate.
Qed.

End DeadlineFacts.

(** Over a pass of the main loop that goes on to the next, the deadline is
    either left as it was or set to a clock reading of that very pass plus
    the interval: no other value is ever stored in it. *)
Theorem pass_deadline {codec : Codec} (L : Locals) st (w : World) st' w' :
  tick L st w = (Val (Continue st'), w') ->
  exists evs,
    trace w' = trace w ++ evs
    /\ deadline_from L (keepaliveTime st) evs (keepaliveTime st').
Proof.
  intros H.
  destruct (post_run _ _ w (post_deadline_tick L st)) as (evs & Ht & Hp).
  rewrite H in Ht, Hp. cbn in Ht, Hp.
  exists evs. split; [assumption|].
  now apply (Hp (Continue st') st').
Qed.

Lemma pass_deadline_witness :
  let L := sample_locals in
  let st := mkLoopState 100 false TerminalInfo_default in
  let w := mkWorld [RInt 7; RReady []; RInt 101; RInt 102; RUnit;
                    RWinsize (mkWinsize 0 0 0 0)] [] in
  exists evs,
    trace (snd (@tick sample_codec L st w)) = trace w ++ evs
    /\ deadline_from L (keepaliveTime st) evs 107.
Proof.
  intros L st w.
  apply (@pass_deadline sample_codec L st w (mkLoopState 107 true TerminalInfo_default)
           (snd (@tick sample_codec L st w))).
  vm_compute. reflexivity.
Defined.

(** ** The pending flag over a pass *)

Section FlagFacts.
Context {codec : Codec}.
Variable L : Locals.

Lemma no_action_counts evs :
  only no_keepalive_action evs ->
  count_calls is_probe evs = 0%nat /\ count_calls is_reconnect evs = 0%nat.
Proof.
  intros H. split; apply (only_count_zero no_keepalive_action); try assumption;
    intros c; unfold no_keepalive_action;
    destruct (is_probe c), (is_reconnect c); cbn; congruence.
Qed.

Lemma flag_post_prefix {A} (s : A -> option LoopState) w0 o e1 e2 :
  only no_keepalive_action e1 -> flag_post s w0 o e2 -> flag_post s w0 o (e1 ++ e2).
Proof.
  intros Hq. destruct (no_action_counts _ Hq) as [Hp Hr].
  unfold flag_post, one_action, flag_from.
  rewrite !count_calls_app, Hp, Hr. cbn [Nat.add]. auto.
Qed.

Lemma flag_post_quiet {A} (s : A -> option LoopState) w0 (o : outcome A) evs :
  only no_keepalive_action evs ->
  (forall a st', o = Val a -> s a = Some st' ->
     waitingOnKeepalive st' = true -> w0 = true) ->
  flag_post s w0 o evs.
Proof.
  intros Hq H. destruct (no_action_counts _ Hq) as [Hp Hr].
  unfold flag_post, one_action, flag_from. rewrite Hp, Hr.
  split; [cbn; lia|]. intros a st' Ho Hs.
  repeat split; try discriminate. intros Hw. left. eauto.
Qed.

Lemma flag_post_start {A} (s : A -> option LoopState) w0 w1 (o : outcome A) evs :
  (w1 = true -> w0 = true) -> flag_post s w1 o evs -> flag_post s w0 o evs.
Proof.
  unfold flag_post, flag_from. intros Hw [H1 H2]. split; [assumption|].
  intros a st' Ho Hs. destruct (H2 a st' Ho Hs) as (Ha & Hb & Hc).
  repeat split; try tauto.
Qed.

Lemma no_action_input c : input_calls L c = true -> no_keepalive_action c = true.
Proof.
  unfold no_keepalive_action, is_probe, is_reconnect, input_calls.
  destruct c; cbn; try congruence; destruct (getHeader p); cbn; congruence.
Qed.

Lemma no_action_drain c : drain_calls L c = true -> no_keepalive_action c = true.
Proof.
  unfold no_keepalive_action, is_probe, is_reconnect, drain_calls.
  destruct c; cbn; congruence.
Qed.

Lemma no_action_geometry c : geometry_calls c = true -> no_keepalive_action c = true.
Proof.
  unfold no_keepalive_action, is_probe, is_reconnect, geometry_calls.
  destruct c; cbn; try congruence; destruct (getHeader p); cbn; congruence.
Qed.

(** The drain can clear the flag and cannot set it. *)
Lemma sat_dispatch_flag packet st :
  sat (only (drain_calls L))
      (fun st' => waitingOnKeepalive st' = true -> waitingOnKeepalive st = true)
      (dispatch L packet st).
Proof.
  unfold dispatch, write_all, time.
  destruct (getHeader packet); sat_only; trivial.
  - apply sat_write_loop.
  - cbn. discriminate.
Qed.

Lemma sat_drain_loop_flag fuel : forall st,
  sat (only (drain_calls L))
      (fun st' => waitingOnKeepalive st' = true -> waitingOnKeepalive st = true)
      (drain_loop L fuel st).
Proof.
  induction fuel as [|fuel IH]; intros st; cbn [drain_loop].
  - sat_only.
  - unfold hasData, read. sat_only; trivial.
    + apply sat_dispatch_flag.
    + eapply sat_post; [|apply IH]. cbn. auto.
Qed.

Lemma sat_drain_step_flag clientFd rfd st :
  sat (only (drain_calls L))
      (fun st' => waitingOnKeepalive st' = true -> waitingOnKeepalive st = true)
      (drain_step L clientFd rfd st).
Proof.
  unfold drain_step. destruct (_ && _).
  - apply (sat_fueled _ _ (fun n => drain_loop L n st) script_fuel).
    intros n. apply sat_drain_loop_flag.
  - sat_only. trivial.
Qed.

(** The keepalive block: what it sends and what it leaves of the flag; with
    a descriptor that is not positive it makes no call. *)
Lemma post_flag_keepalive_step clientFd st :
  post (fun o evs =>
          flag_post Some (waitingOnKeepalive st) o evs
          /\ ((clientFd >? 0) = false -> evs = []))
       (keepalive_step L clientFd st).
Proof.
  assert (Hquiet : forall (o : outcome LoopState) evs,
             only no_keepalive_action evs ->
             (forall st', o = Val st' -> waitingOnKeepalive st' = waitingOnKeepalive st) ->
             flag_post Some (waitingOnKeepalive st) o evs).
  { intros o evs Hq H. apply flag_post_quiet; [assumption|].
    intros a st' -> [= <-] Hw. now rewrite <- (H a eq_refl). }
  unfold keepalive_step, time, closeSocketAndMaybeReconnect, writePacket.
  destruct (clientFd >? 0) eqn:Efd.
  2:{ apply post_ret. split; [|reflexivity].
      apply Hquiet; [apply only_nil | now intros st' [= <-]]. }
  apply post_ask_bind.
  { split; [|discriminate]. apply Hquiet; [apply only_nil | discriminate]. }
  { intros r e Hr. destruct r; discriminate. }
  intros r now Hr.
  destruct (keepaliveTime st <? now).
  2:{ apply post_ret. split; [|discriminate].
      apply Hquiet; [repeat constructor | now intros st' [= <-]]. }
  apply post_ask_bind.
  { split; [|discriminate]. apply Hquiet; [repeat constructor | discriminate]. }
  { intros r' e Hr'. destruct r'; discriminate. }
  intros r' now' Hr'. cbv zeta. cbn [waitingOnKeepalive set_keepaliveTime].
  destruct (waitingOnKeepalive st) eqn:Ew.
  - apply post_ask_bind.
    { split; [|discriminate]. apply Hquiet; [repeat constructor | discriminate]. }
    { intros r2 e Hr2. split; [|discriminate].
      split; [unfold one_action; cbn; lia | intros a st'; discriminate]. }
    intros r2 [] Hr2. apply post_ret. split; [|discriminate].
    split; [unfold one_action; cbn; lia|]. intros a st' [= <-] [= <-]. cbn.
    repeat split; try discriminate; auto.
  - apply post_ask_bind.
    { split; [|discriminate]. apply Hquiet; [repeat constructor | discriminate]. }
    { intros r2 e Hr2. split; [|discriminate].
      split; [unfold one_action; cbn; lia | intros a st'; discriminate]. }
    intros r2 [] Hr2. apply post_ret. split; [|discriminate].
    split; [unfold one_action; cbn; lia|]. intros a st' [= <-] [= <-]. cbn.
    repeat split; try discriminate; auto.
Qed.

Lemma sat_geometry_continue st :
  sat (only no_keepalive_action)
      (fun r => exists st', r = Continue st'
                            /\ waitingOnKeepalive st' = waitingOnKeepalive st)
      (st' <- geometry_step L st ;; ret (Continue st')).
Proof.
  eapply sat_only_bind.
  - apply sat_only_mono with (k := geometry_calls);
      [apply no_action_geometry | apply sat_geometry_step].
  - intros st' [Hw _]. apply sat_only_ret. eauto.
Qed.

Lemma post_flag_after_input clientFd rfd st :
  post (flag_post state_of_ctl (waitingOnKeepalive st)) (after_input L clientFd rfd st).
Proof.
  unfold after_input.
  eapply post_prefix_bind with (k := no_keepalive_action);
    [ intros e1 e2 o; apply flag_post_prefix
    | intros e; apply flag_post_quiet; [apply only_nil | discriminate]
    | apply flag_post_quiet; [apply only_nil | discriminate]
    | apply sat_only_mono with (k := drain_calls L);
      [apply no_action_drain | apply sat_drain_step_flag]
    | ].
  intros st2 H2. cbv beta in H2.
  eapply post_weaken; [intros o evs; apply (flag_post_start _ _ _ _ _ H2)|].
  eapply post_bind; [apply post_flag_keepalive_step | | |].
  - intros st3 e1 [[Hone Hflag] Hoff]. cbv zeta.
    eapply post_weaken; [|apply post_of_sat, sat_geometry_continue].
    intros o e2 [Hq HQ].
    destruct (no_action_counts _ Hq) as [Hp Hr].
    unfold flag_post, one_action, flag_from.
    rewrite !count_calls_app, Hp, Hr, !Nat.add_0_r.
    split; [exact Hone|].
    intros a st' Ho Hs. destruct (HQ a Ho) as (st5 & -> & Hw5).
    injection Hs as <-. rewrite Hw5.
    destruct (Hflag st3 st3 eq_refl eq_refl) as (Ha & Hb & Hc).
    unfold invalid_fd_step. destruct (clientFd <? 0) eqn:Eneg; [|auto].
    rewrite Hoff by (apply Z.ltb_lt in Eneg; rewrite Z.gtb_ltb; apply Z.ltb_ge; lia).
    cbn. repeat split; discriminate.
  - intros e e1 [[Hone _] _]. split; [exact Hone | intros a st'; discriminate].
  - intros e1 [[Hone _] _]. split; [exact Hone | intros a st'; discriminate].
Qed.

Lemma post_flag_tick_body clientFd rfd st :
  post (flag_post state_of_ctl (waitingOnKeepalive st)) (tick_body L clientFd rfd st).
Proof.
  unfold tick_body.
  eapply post_prefix_bind with (k := no_keepalive_action);
    [ intros e1 e2 o; apply flag_post_prefix
    | intros e; apply flag_post_quiet; [apply only_nil | discriminate]
    | apply flag_post_quiet; [apply only_nil | discriminate]
    | apply sat_only_mono with (k := input_calls L);
      [apply no_action_input | apply sat_input_step]
    | ].
  intros [st1|] H1.
  - destruct (H1 st1 eq_refl) as [<- _]. apply post_flag_after_input.
  - apply post_ret. apply flag_post_quiet; [apply only_nil|].
    intros a st' [= <-]. discriminate.
Qed.

Lemma post_flag_tick st :
  post (flag_post state_of_ctl (waitingOnKeepalive st)) (tick L st).
Proof.
  unfold tick, tick_at, getSocketFd, select.
  eapply post_prefix_bind with (k := no_keepalive_action) (Q := fun _ => True);
    [ intros e1 e2 o; apply flag_post_prefix
    | intros e; apply flag_post_quiet; [apply only_nil | discriminate]
    | apply flag_post_quiet; [apply only_nil | discriminate]
    | now apply sat_only_ask
    | ].
  intros clientFd _.
  eapply post_prefix_bind with (k := no_keepalive_action) (Q := fun _ => True);
    [ intros e1 e2 o; apply flag_post_prefix
    | intros e; apply flag_post_quiet; [apply only_nil | discriminate]
    | apply flag_post_quiet; [apply only_nil | discriminate]
    | now apply sat_only_ask
    | ].
  intros rfd _.
  eapply post_catch_runtime_error; [apply post_flag_tick_body | auto | | | ].
  - intros e1 [Hone _]. apply post_ret. rewrite app_nil_r.
    split; [exact Hone|]. intros a st' [= <-]. discriminate.
  - intros e1 [Hone _]. split; [exact Hone | intros a st'; discriminate].
  - intros e1 [Hone _]. split; [exact Hone | intros a st'; discriminate].
Qed.

End FlagFacts.

(** A pass of the main loop, however it ends, sends at most one probe or
    requests at most one reconnect, never both.  When it goes on to the next
    pass: a probe sent leaves the flag set; a reconnect was requested only
    with the flag set when the pass began, and leaves it clear; and the flag
    is set afterwards only if it was set before or a probe was sent. *)
Theorem pass_keepalive_action {codec : Codec} (L : Locals) st (w : World) :
  exists evs,
    trace (snd (tick L st w)) = trace w ++ evs
    /\ one_action evs
    /\ forall st',
         fst (tick L st w) = Val (Continue st') ->
         flag_from (waitingOnKeepalive st) evs (waitingOnKeepalive st').
Proof.
  destruct (post_run _ _ w (post_flag_tick L st)) as (evs & Ht & Hone & Hflag).
  exists evs. repeat split; try assumption; now apply (Hflag (Continue st') st').
Qed.

Lemma pass_keepalive_action_witness :
  let L := sample_locals in
  let st := mkLoopState 100 false TerminalInfo_default in
  let w := mkWorld [RInt 7; RReady []; RInt 101; RInt 102; RUnit;
                    RWinsize (mkWinsize 0 0 0 0)] [] in
  exists evs,
    trace (snd (@tick sample_codec L st w)) = trace w ++ evs
    /\ one_action evs
    /\ flag_from false evs true.
Proof.
  intros L st w.
  destruct (@pass_keepalive_action sample_codec L st w) as (evs & Ht & Hone & Hflag).
  exists evs. repeat split; try assumption;
    now apply (Hflag (mkLoopState 107 true TerminalInfo_default) eq_refl).
Defined.

(** ** The write loop ends *)

Section WriteBound.
Variable L : Locals.

Lemma sat_write_loop_length fuel s : forall written,
  sat (fun evs => (List.length evs <= fuel)%nat) (fun _ => True)
      (write_loop L fuel s written).
Proof.
  induction fuel as [|fuel IH]; intros written; cbn [write_loop].
  - destruct (written <? Z.of_nat (List.length s));
      [apply sat_stuck | apply sat_ret]; cbn; auto.
  - destruct (written <? Z.of_nat (List.length s));
      [|apply sat_ret; cbn; auto; lia].
    unfold sys_write.
    eapply sat_bind
      with (P1 := fun evs => (List.length evs <= 1)%nat)
           (P2 := fun evs => (List.length evs <= fuel)%nat)
           (Q := fun _ => True).
    + intros evs. lia.
    + intros e1 e2. rewrite length_app. lia.
    + apply sat_ask; cbn; auto.
    + intros rc _. destruct (rc <=? 0); [apply sat_ret; cbn; auto; lia | apply IH].
Qed.

End WriteBound.

(** However [::write] answers, the loop of lines 166-172 ends: it makes at
    most as many calls as the buffer has bytes (none for an empty buffer),
    and more passes allowed change nothing. *)
Theorem write_all_bounded (L : Locals) (s : bytes) (w : World) :
  exists evs,
    trace (snd (write_all L s w)) = trace w ++ evs
    /\ (List.length evs <= List.length s)%nat
    /\ forall fuel, (List.length s <= fuel)%nat ->
         write_loop L fuel s 0 w = write_all L s w.
Proof.
  destruct (sat_write_loop_length L (List.length s) s 0 w) as [(evs & T & _ & Hl) _].
  exists evs. repeat split; try assumption.
  intros fuel Hf. unfold write_all. apply write_loop_fuel; lia.
Qed.

Lemma write_all_bounded_witness :
  let w := mkWorld [RInt 1; RInt 5; RInt 1] [] in
  exists evs,
    trace (snd (write_all sample_locals [x68; x69; x21] w)) = trace w ++ evs
    /\ (List.length evs <= 3)%nat
    /\ write_loop sample_locals 7 [x68; x69; x21] 0 w
       = write_all sample_locals [x68; x69; x21] w.
Proof.
  intros w.
  destruct (write_all_bounded sample_locals [x68; x69; x21] w)
    as (evs & T & Hl & Hf).
  exists evs. split; [exact T | split; [exact Hl | apply Hf; cbn; lia]].
Defined.

(** ** Exceptions raised by calls *)

Lemma honest_dec_unit : honest dec_unit.
Proof. intros []; cbn; auto; discriminate. Qed.
Lemma honest_dec_bool : honest dec_bool.
Proof. intros []; cbn; auto; discriminate. Qed.
Lemma honest_dec_int : honest dec_int.
Proof. intros []; cbn; auto; discriminate. Qed.
Lemma honest_dec_packet : honest dec_packet.
Proof. intros []; cbn; auto; discriminate. Qed.
Lemma honest_dec_c_unit : honest dec_c_unit.
Proof. intros []; cbn; auto; discriminate. Qed.
Lemma honest_dec_c_int : honest dec_c_int.
Proof. intros []; cbn; auto; discriminate. Qed.
Lemma honest_dec_c_ready : honest dec_c_ready.
Proof. intros []; cbn; auto; discriminate. Qed.
Lemma honest_dec_c_data : honest dec_c_data.
Proof. intros []; cbn; auto; discriminate. Qed.
Lemma honest_dec_c_winsize : honest dec_c_winsize.
Proof. intros []; cbn; auto; discriminate. Qed.

Create HintDb honest.
#[export] Hint Resolve honest_dec_unit honest_dec_bool honest_dec_int
  honest_dec_packet honest_dec_c_unit honest_dec_c_int honest_dec_c_ready
  honest_dec_c_data honest_dec_c_winsize : honest.

Lemma throw_free_nil : throw_free [].
Proof. constructor. Qed.

Lemma throw_free_app e1 e2 : throw_free e1 -> throw_free e2 -> throw_free (e1 ++ e2).
Proof. unfold throw_free. intros. apply Forall_app. auto. Qed.

Lemma throw_free_one c r : (forall e, r <> RThrow e) -> throw_free [(c, r)].
Proof. intros H. constructor; [exact H | constructor]. Qed.

Lemma throw_free_split evs evs0 c e evs2 :
  throw_free evs -> evs <> evs0 ++ (c, RThrow e) :: evs2.
Proof.
  intros H ->. unfold throw_free in H. apply Forall_app in H. destruct H as [_ H].
  inversion H as [|? ? Hx _]; subst. now apply (Hx e).
Qed.

(** Events in which every throw leads to a contradiction hold no throw. *)
Lemma throw_free_intro evs :
  (forall evs0 c e evs2, evs <> evs0 ++ (c, RThrow e) :: evs2) -> throw_free evs.
Proof.
  intros H. apply Forall_forall. intros [c r] Hin e Hr. cbn in Hr. subst r.
  apply in_split in Hin. destruct Hin as (l1 & l2 & E). exact (H _ _ _ _ E).
Qed.

Lemma on_throw_free {A} (R : Call -> exn -> list Event -> outcome A -> Prop) o evs :
  throw_free evs -> on_throw R o evs.
Proof.
  intros H evs0 c e evs2 E. now apply throw_free_split in E.
Qed.

Lemma on_throw_prefix {A} (R : Call -> exn -> list Event -> outcome A -> Prop)
    o e1 e2 :
  throw_free e1 -> on_throw R o e2 -> on_throw R o (e1 ++ e2).
Proof.
  intros H1 H2 evs0 c e evs2 E.
  apply app_eq_app in E. destruct E as (l & [[E1 E2] | [E1 E2]]).
  - destruct l as [|x l].
    + cbn in E2. apply (H2 [] c e evs2). now rewrite <- E2.
    + cbn in E2. injection E2 as <- _.
      exfalso. exact (throw_free_split _ _ _ _ _ H1 E1).
  - exact (H2 l c e evs2 E2).
Qed.

Lemma on_throw_last {A} (R : Call -> exn -> list Event -> outcome A -> Prop)
    o evs0 c e :
  throw_free evs0 -> R c e [] o -> on_throw R o (evs0 ++ [(c, RThrow e)]).
Proof.
  intros H0 HR. apply on_throw_prefix; [assumption|].
  intros l c' e' l2 E. destruct l as [|x l].
  - cbn in E. injection E as <- <- <-. exact HR.
  - cbn in E. injection E as _ E. now destruct l.
Qed.

Lemma throw_ends_value {A} (a : A) evs : throw_ends (Val a) evs -> throw_free evs.
Proof.
  intros H. apply throw_free_intro. intros evs0 c e evs2 E.
  destruct (H _ _ _ _ E) as [_ Ho]. discriminate.
Qed.

Lemma throw_ends_stuck {A} evs : throw_ends (@Stuck A) evs -> throw_free evs.
Proof.
  intros H. apply throw_free_intro. intros evs0 c e evs2 E.
  destruct (H _ _ _ _ E) as [_ Ho]. discriminate.
Qed.

(** An exception as outcome: no call threw (a decoder raised it), or the
    last call threw it. *)
Lemma throw_ends_exception {A B} (R : Call -> exn -> list Event -> outcome B -> Prop)
    (e : exn) (o : outcome B) evs :
  throw_ends (@Exc A e) evs ->
  (forall c, R c e [] o) ->
  on_throw R o evs.
Proof.
  intros H HR evs0 c e' evs2 E.
  destruct (H _ _ _ _ E) as [-> [= <-]]. apply HR.
Qed.

Lemma post_throw_ret {A} (a : A) : post throw_ends (ret a).
Proof. apply post_ret, on_throw_free, throw_free_nil. Qed.

Lemma post_throw_ask {A} c (dec : Resp -> option (exn + A)) :
  honest dec -> post throw_ends (ask c dec).
Proof.
  intros Hd w. unfold ask.
  destruct (script w) as [|r rest] eqn:Hs; cbn.
  { exists []. rewrite app_nil_r, Hs. split; [reflexivity | split; [reflexivity|]].
    apply on_throw_free, throw_free_nil. }
  specialize (Hd r). destruct (dec r) as [[e|a]|]; cbn.
  - subst r. exists [(c, RThrow e)]. split; [reflexivity | split; [reflexivity|]].
    apply (on_throw_last _ _ [] c e); [apply throw_free_nil | auto].
  - exists [(c, r)]. split; [reflexivity | split; [reflexivity|]].
    now apply on_throw_free, throw_free_one.
  - exists []. rewrite app_nil_r, Hs. split; [reflexivity | split; [reflexivity|]].
    apply on_throw_free, throw_free_nil.
Qed.

Lemma post_throw_bind {A B} (m : M A) (f : A -> M B) :
  post throw_ends m -> (forall a, post throw_ends (f a)) ->
  post throw_ends (bind m f).
Proof.
  intros Hm Hf. eapply post_bind; [exact Hm | | |].
  - intros a e1 H1. eapply post_weaken; [|apply Hf].
    intros o e2. apply on_throw_prefix. now apply throw_ends_value in H1.
  - intros e e1 H1. unfold throw_ends.
    eapply throw_ends_exception; [exact H1 | auto].
  - intros e1 H1. apply on_throw_free. now apply throw_ends_stuck in H1.
Qed.

Lemma post_throw_decode {A} (r : exn + A) : post throw_ends (decode r).
Proof.
  intros w. exists []. rewrite app_nil_r.
  destruct r; cbn; (split; [reflexivity | split; [reflexivity|]]);
    apply on_throw_free, throw_free_nil.
Qed.

Lemma post_throw_stuck {A} : post throw_ends (@stuck A).
Proof.
  intros w. exists []. rewrite app_nil_r. cbn.
  split; [reflexivity | split; [reflexivity|]].
  apply on_throw_free, throw_free_nil.
Qed.

(** A block built from calls, decoders and tests, one construct at a time. *)
Ltac post_throw_step :=
  lazymatch goal with
  | |- post _ (ret _) => apply post_throw_ret
  | |- post _ stuck => apply post_throw_stuck
  | |- post _ (decode _) => apply post_throw_decode
  | |- post _ (ask _ _) => apply post_throw_ask; auto with honest
  | |- post _ (bind _ _) => apply post_throw_bind; [ | intros ? ]
  | |- post _ (if ?b then _ else _) => destruct b
  | |- post _ (match ?x with _ => _ end) => destruct x
  end.
Ltac post_throw := repeat post_throw_step.

Lemma on_throw_nil {A} (R : Call -> exn -> list Event -> outcome A -> Prop) o :
  on_throw R o [].
Proof. apply on_throw_free, throw_free_nil. Qed.

Lemma on_throw_map {A B} (R1 : Call -> exn -> list Event -> outcome A -> Prop)
    (R2 : Call -> exn -> list Event -> outcome B -> Prop) o1 o2 evs :
  on_throw R1 o1 evs ->
  (forall c e evs2, R1 c e evs2 o1 -> R2 c e evs2 o2) ->
  on_throw R2 o2 evs.
Proof. intros H1 H evs0 c e evs2 E. apply H. exact (H1 _ _ _ _ E). Qed.

(** Events of which every throw is absurd for the outcome hold none. *)
Lemma on_throw_absurd {A} (R : Call -> exn -> list Event -> outcome A -> Prop) o evs :
  on_throw R o evs -> (forall c e evs2, ~ R c e evs2 o) -> throw_free evs.
Proof.
  intros H Hno. apply throw_free_intro. intros evs0 c e evs2 E.
  exact (Hno _ _ _ (H _ _ _ _ E)).
Qed.

Lemma on_throw_member {A} (R : Call -> exn -> list Event -> outcome A -> Prop)
    (k : Call -> bool) o evs :
  only k evs ->
  (forall evs0 c e evs2, evs = evs0 ++ (c, RThrow e) :: evs2 ->
     k c = true -> R c e evs2 o) ->
  on_throw R o evs.
Proof.
  intros Ho H evs0 c e evs2 E. apply (H _ _ _ _ E).
  subst evs. unfold only in Ho. apply Forall_app in Ho. destruct Ho as [_ Ho].
  now inversion Ho.
Qed.

(** One more call after events: where a throw among them can stand. *)
Lemma split_snoc {X} (l : list X) (x : X) l0 y l2 :
  l ++ [x] = l0 ++ y :: l2 ->
  (l2 = [] /\ l0 = l /\ y = x) \/ (exists l', l2 = l' ++ [x] /\ l = l0 ++ y :: l').
Proof.
  intros E. apply app_eq_app in E. destruct E as (m & [[E1 E2] | [E1 E2]]).
  - destruct m as [|z m].
    + cbn in E2. injection E2 as <- <-. left. rewrite app_nil_r in E1. auto.
    + cbn in E2. injection E2 as <- E2. right. exists m. split; congruence.
  - destruct m as [|z m].
    + cbn in E2. injection E2 as -> <-. left. rewrite app_nil_r in E1. auto.
    + cbn in E2. injection E2 as _ E2. now destruct m.
Qed.

(** A call at the head of a block. *)
Lemma post_on_throw_ask {A B} (R : Call -> exn -> list Event -> outcome B -> Prop)
    c (dec : Resp -> option (exn + A)) (f : A -> M B) :
  honest dec ->
  (forall r e, dec r = Some (inl e) -> R c e [] (Exc e)) ->
  (forall a, post (on_throw R) (f a)) ->
  post (on_throw R) (bind (ask c dec) f).
Proof.
  intros Hd He Hf. apply post_ask_bind.
  - apply on_throw_nil.
  - intros r e Hr. pose proof (Hd r) as Hh. rewrite Hr in Hh. subst r.
    apply (on_throw_last R _ [] c e); [apply throw_free_nil | now apply (He (RThrow e))].
  - intros r a Hr. pose proof (Hd r) as Hh. rewrite Hr in Hh.
    eapply post_weaken; [|apply Hf].
    intros o e2. apply (on_throw_prefix R o [(c, r)] e2). now apply throw_free_one.
Qed.

Section ThrowFacts.
Context {codec : Codec}.

Lemma post_throw_poll_once : post throw_ends poll_once.
Proof.
  unfold poll_once, getSocketFd, sleep_for, select, readPacket. post_throw.
Qed.

Lemma post_throw_poll_loop n : post throw_ends (poll_loop n).
Proof.
  induction n as [|n IH]; cbn [poll_loop]; [apply post_throw_ret|].
  apply post_throw_bind; [apply post_throw_poll_once|].
  intros []; [exact IH | apply post_throw_ret ..].
Qed.

Lemma post_throw_attempt :
  post (throw_fails_handshake AttemptReturn1) attempt.
Proof.
  unfold attempt.
  eapply post_catch_all with (P1 := throw_ends).
  - unfold attempt_body, connect, writePacket. post_throw. apply post_throw_poll_loop.
  - intros a e1 H1. apply on_throw_free. now apply throw_ends_value in H1.
  - intros e e1 H1. apply post_ret. rewrite app_nil_r.
    unfold throw_fails_handshake. eapply throw_ends_exception; [exact H1 | auto].
  - intros e1 H1. apply on_throw_free. now apply throw_ends_stuck in H1.
Qed.

Lemma post_throw_connect_loop fuel : forall count,
  post (throw_fails_handshake ConnectError) (connect_loop fuel count).
Proof.
  induction fuel as [|fuel IH]; intros count; cbn [connect_loop].
  - intros w. exists []. rewrite app_nil_r. cbn.
    split; [reflexivity | split; [reflexivity | apply on_throw_nil]].
  - eapply post_bind; [apply post_throw_attempt | | |].
    + intros r e1 H1. destruct r.
      * assert (Hf : throw_free e1)
          by (apply (on_throw_absurd _ _ _ H1); intros c e evs2 [_ [=]]).
        cbv zeta. destruct (count + 1 >=? 3).
        -- apply post_ret. rewrite app_nil_r. now apply on_throw_free.
        -- eapply post_weaken; [|apply IH]. intros o e2. now apply on_throw_prefix.
      * assert (Hf : throw_free e1)
          by (apply (on_throw_absurd _ _ _ H1); intros c e evs2 [_ [=]]).
        apply post_ret. rewrite app_nil_r. now apply on_throw_free.
      * apply post_ret. rewrite app_nil_r.
        eapply on_throw_map; [exact H1|]. intros c e evs2 [-> _]. auto.
    + intros e e1 H1. apply on_throw_free.
      apply (on_throw_absurd _ _ _ H1). intros c e' evs2 [_ [=]].
    + intros e1 H1. apply on_throw_free.
      apply (on_throw_absurd _ _ _ H1). intros c e' evs2 [_ [=]].
Qed.

Variable L : Locals.

Lemma post_throw_input_step rfd st : post throw_ends (input_step L rfd st).
Proof.
  unfold input_step, sys_read, writePacket, time. post_throw.
Qed.

Lemma post_throw_write_loop fuel s : forall written,
  post throw_ends (write_loop L fuel s written).
Proof.
  induction fuel as [|fuel IH]; intros written; cbn [write_loop].
  - post_throw.
  - unfold sys_write. post_throw. apply IH.
Qed.

Lemma post_throw_dispatch packet st : post throw_ends (dispatch L packet st).
Proof.
  unfold dispatch, write_all, time.
  destruct (getHeader packet); post_throw. apply post_throw_write_loop.
Qed.

Lemma post_throw_drain_loop fuel : forall st,
  post throw_ends (drain_loop L fuel st).
Proof.
  induction fuel as [|fuel IH]; intros st; cbn [drain_loop].
  - post_throw.
  - unfold hasData, read. post_throw; [apply post_throw_dispatch | apply IH].
Qed.

Lemma post_throw_drain_step clientFd rfd st :
  post throw_ends (drain_step L clientFd rfd st).
Proof.
  unfold drain_step. destruct (_ && _); [|apply post_throw_ret].
  apply (post_fueled _ (fun n => drain_loop L n st) script_fuel).
  intros n. apply post_throw_drain_loop.
Qed.

Lemma post_throw_keepalive_step clientFd st :
  post throw_ends (keepalive_step L clientFd st).
Proof.
  unfold keepalive_step, time, closeSocketAndMaybeReconnect, writePacket.
  post_throw.
Qed.

Lemma post_throw_geometry_step st : post throw_ends (geometry_step L st).
Proof.
  unfold geometry_step, read_winsize, writePacket. post_throw.
Qed.

Lemma post_throw_tick_body clientFd rfd st :
  post throw_ends (tick_body L clientFd rfd st).
Proof.
  unfold tick_body.
  apply post_throw_bind; [apply post_throw_input_step|].
  intros [st1|]; [|apply post_throw_ret].
  unfold after_input.
  apply post_throw_bind; [apply post_throw_drain_step|]. intros st2.
  apply post_throw_bind; [apply post_throw_keepalive_step|]. intros st3.
  cbv zeta.
  apply post_throw_bind; [apply post_throw_geometry_step|]. intros st4.
  apply post_throw_ret.
Qed.

Lemma in_pass_body_input c : input_calls L c = true -> in_pass_body c = true.
Proof.
  unfold input_calls, in_pass_body.
  destruct c; try congruence. destruct (getHeader p); cbn; congruence.
Qed.

Lemma in_pass_body_after_input c :
  after_input_calls L c = true -> in_pass_body c = true.
Proof.
  unfold after_input_calls, drain_calls, keepalive_calls, geometry_calls, in_pass_body.
  destruct c; cbn; try congruence. destruct (getHeader p); cbn; congruence.
Qed.

Lemma sat_tick_body_calls clientFd rfd st :
  sat (only in_pass_body) (fun _ => True) (tick_body L clientFd rfd st).
Proof.
  unfold tick_body. eapply sat_only_bind.
  - apply sat_only_mono with (k := input_calls L);
      [apply in_pass_body_input | apply sat_input_step].
  - intros [st1|] _; [|now apply sat_only_ret].
    eapply sat_weaken; [| |apply sat_after_input]; [|trivial].
    intros evs. apply only_weaken, in_pass_body_after_input.
Qed.

(** Line 219: of what the body of a pass raises, a [std::runtime_error]
    becomes the [break], anything else goes on as it is. *)
Lemma post_throw_tick st : post (throw_leaves_loop Break) (tick L st).
Proof.
  unfold tick, tick_at, getSocketFd, select.
  apply post_on_throw_ask; [auto with honest | intros r e _; now split |].
  intros clientFd.
  apply post_on_throw_ask;
    [auto with honest | intros r e Hr; destruct r; discriminate |].
  intros rfd.
  eapply post_catch_runtime_error
    with (P1 := fun o evs => throw_ends o evs /\ only in_pass_body evs).
  - apply post_conj; [apply post_throw_tick_body|].
    eapply post_weaken; [|apply post_of_sat, sat_tick_body_calls].
    intros o evs [Ho _]. exact Ho.
  - intros a e1 [H1 _]. apply on_throw_free. now apply throw_ends_value in H1.
  - intros e1 [H1 Ho]. apply post_ret. rewrite app_nil_r.
    apply (on_throw_member _ in_pass_body _ _ Ho).
    intros evs0 c e evs2 E Hc. destruct (H1 _ _ _ _ E) as [-> [= <-]].
    unfold caught_at_loop. rewrite Hc. auto.
  - intros e1 [H1 _]. eapply on_throw_map; [exact H1|].
    intros c e evs2 [-> [= <-]]. unfold caught_at_loop.
    rewrite andb_false_r. auto.
  - intros e1 [H1 _]. apply on_throw_free. now apply throw_ends_stuck in H1.
Qed.

Lemma post_throw_main_loop fuel : forall st,
  post (throw_leaves_loop tt) (main_loop L fuel st).
Proof.
  induction fuel as [|fuel IH]; intros st; cbn [main_loop].
  - intros w. exists []. rewrite app_nil_r. cbn.
    split; [reflexivity | split; [reflexivity | apply on_throw_nil]].
  - unfold isShuttingDown.
    apply post_on_throw_ask; [auto with honest | intros r e _; now split |].
    intros [|]; [apply post_ret, on_throw_nil|].
    eapply post_bind; [apply post_throw_tick | | |].
    + intros [st'|] e1 H1.
      * assert (Hf : throw_free e1).
        { apply (on_throw_absurd _ _ _ H1). intros c e evs2 [_ Ho].
          destruct (caught_at_loop c e); discriminate. }
        eapply post_weaken; [|apply IH]. intros o e2. now apply on_throw_prefix.
      * apply post_ret. rewrite app_nil_r.
        eapply on_throw_map; [exact H1|]. intros c e evs2 [-> Ho].
        destruct (caught_at_loop c e); [auto | discriminate].
    + intros e e1 H1. eapply on_throw_map; [exact H1|].
      intros c e' evs2 [-> Ho].
      destruct (caught_at_loop c e'); [discriminate | injection Ho as ->; auto].
    + intros e1 H1. apply on_throw_free.
      apply (on_throw_absurd _ _ _ H1). intros c e evs2 [_ Ho].
      destruct (caught_at_loop c e); discriminate.
Qed.

(** Lines 225-230 after the loop. *)
Lemma post_throw_run_loop st : post (fault_converted (@Exc Z)) (run_loop L st).
Proof.
  unfold run_loop.
  eapply post_bind;
    [ apply (post_fueled _ (fun n => main_loop L n st) script_fuel);
      intros n; apply post_throw_main_loop | | |].
  - intros [] e1 H1. unfold shutdown.
    assert (Hleft : forall evs0 c e evs2,
               e1 = evs0 ++ (c, RThrow e) :: evs2 ->
               evs2 = [] /\ caught_at_loop c e = true).
    { intros evs0 c e evs2 E. destruct (H1 _ _ _ _ E) as [-> Ho].
      destruct (caught_at_loop c e); [auto | discriminate]. }
    apply post_ask_bind.
    + rewrite app_nil_r. intros evs0 c e evs2 E.
      destruct (Hleft _ _ _ _ E) as [-> ->]. auto.
    + intros r e Hr. pose proof (honest_dec_unit r) as Hh. rewrite Hr in Hh. subst r.
      intros evs0 c e' evs2 E. apply split_snoc in E.
      destruct E as [(-> & -> & [= -> ->]) | (l' & -> & E)].
      * cbn. auto.
      * destruct (Hleft _ _ _ _ E) as [-> ->]. cbn. eauto.
    + intros r [] Hr. destruct r; try discriminate.
      apply post_ret. cbv beta.
      intros evs0 c e' evs2 E. apply split_snoc in E.
      destruct E as [(_ & _ & [=]) | (l' & -> & E)].
      destruct (Hleft _ _ _ _ E) as [-> ->]. cbn. auto.
  - intros e e1 H1. eapply on_throw_map; [exact H1|].
    intros c e' evs2 [-> Ho].
    destruct (caught_at_loop c e'); [discriminate | injection Ho as ->; auto].
  - intros e1 H1. apply on_throw_free.
    apply (on_throw_absurd _ _ _ H1). intros c e evs2 [_ Ho].
    destruct (caught_at_loop c e); discriminate.
Qed.

Lemma post_throw_session : post (fault_converted (@Exc Z)) (session L).
Proof.
  unfold session, time.
  apply post_on_throw_ask;
    [auto with honest | intros r e Hr; destruct r; discriminate |].
  intros now. apply post_throw_run_loop.
Qed.

End ThrowFacts.

Lemma in_pass_body_attempt c : attempt_calls c = true -> in_pass_body c = false.
Proof.
  unfold attempt_calls, poll_calls, in_pass_body.
  destruct c; try congruence. intros ->. reflexivity.
Qed.

(** Line 226: whatever leaves the [try] as an exception is the result 1. *)
Lemma post_throw_et_client_main {codec : Codec} fin fout p h port i k secs :
  post (fault_converted (fun _ => Val 1))
       (et_client_main (Some fin) (Some fout) (Some p) (Some h) port (Some i)
          (Some k) secs).
Proof.
  unfold et_client_main. cbn [is_null]. cbv zeta. unfold disableAbortOnFatal.
  apply post_on_throw_ask;
    [auto with honest | intros r e Hr; destruct r; discriminate |].
  intros [].
  eapply post_catch_all with (P1 := fault_in_try).
  - unfold newConnection.
    apply post_on_throw_ask; [auto with honest | intros r e _; cbn; auto |].
    intros [].
    eapply post_bind
      with (P1 := fun o evs => throw_fails_handshake ConnectError o evs
                               /\ only attempt_calls evs).
    + apply post_conj; [apply (post_throw_connect_loop 3 0)|].
      eapply post_weaken; [|apply post_of_sat, sat_handshake].
      intros o evs [Ho _]. exact Ho.
    + intros r e1 [H1 Ho]. destruct r.
      * assert (Hf : throw_free e1)
          by (apply (on_throw_absurd _ _ _ H1); intros c e evs2 [_ [=]]).
        eapply post_weaken; [|apply post_throw_session].
        intros o e2 H2. apply on_throw_prefix; [assumption|].
        eapply on_throw_map; [exact H2|]. intros c e evs2 HR. cbv beta in HR |- *.
        destruct (caught_at_loop c e); [exact HR | destruct HR; auto].
      * apply post_ret. rewrite app_nil_r.
        apply (on_throw_member _ attempt_calls _ _ Ho).
        intros evs0 c e evs2 E Hc. destruct (H1 _ _ _ _ E) as [-> _].
        unfold caught_at_loop. rewrite (in_pass_body_attempt c Hc). cbn. auto.
    + intros e e1 [H1 _]. apply on_throw_free.
      apply (on_throw_absurd _ _ _ H1). intros c e' evs2 [_ [=]].
    + intros e1 [H1 _]. apply on_throw_free.
      apply (on_throw_absurd _ _ _ H1). intros c e' evs2 [_ [=]].
  - intros a e1 H1. eapply on_throw_map; [exact H1|]. intros c e evs2 HR. cbv beta in HR |- *.
    destruct (caught_at_loop c e).
    + destruct HR as [HR | [HR | (e' & _ & [=])]]; auto.
    + destruct HR as [-> [[=] | ->]]. auto.
  - intros e e1 H1. apply post_ret. rewrite app_nil_r.
    eapply on_throw_map; [exact H1|]. intros c e' evs2 HR. cbv beta in HR |- *.
    destruct (caught_at_loop c e').
    + destruct HR as [[_ [=]] | [[_ [=]] | (e2 & -> & _)]]. eauto.
    + destruct HR as [-> _]. auto.
  - intros e1 H1. eapply on_throw_map; [exact H1|]. intros c e evs2 HR. cbv beta in HR |- *.
    destruct (caught_at_loop c e).
    + destruct HR as [HR | [[_ [=]] | (e' & _ & [=])]]; auto.
    + destruct HR as [_ [[=] | [=]]].
Qed.

(** ** Shutdown and the conversion of faults *)

Section LoopExits.
Context {codec : Codec}.
Variable L : Locals.

(** One pass of the main loop, from its condition to the outcome of the
    body of its [try]. *)
Lemma main_loop_pass fuel st clientFd rfd rest tr :
  main_loop L (S fuel) st
    (mkWorld (map snd (pass_start L clientFd rfd) ++ rest) tr)
  = (r <- catch_runtime_error (tick_body L clientFd rfd st) (ret Break) ;;
     match r with
     | Break => ret tt
     | Continue st' => main_loop L fuel st'
     end)
      (after (pass_start L clientFd rfd) rest tr).
Proof.
  cbn [main_loop]. unfold pass_start, isShuttingDown. cbn [map snd app].
  rewrite (bind_ask _ _ _ _ false) by reflexivity. cbv beta iota.
  unfold tick, getSocketFd, bind at 1.
  rewrite (bind_ask _ _ _ _ clientFd) by reflexivity.
  unfold tick_at, select.
  rewrite (bind_ask _ _ _ _ rfd) by reflexivity.
  unfold after, bind. rewrite <- !app_assoc. reflexivity.
Qed.

Lemma main_loop_pass_outcome fuel st clientFd rfd rest tr o w' :
  tick_body L clientFd rfd st (after (pass_start L clientFd rfd) rest tr) = (o, w') ->
  main_loop L (S fuel) st
    (mkWorld (map snd (pass_start L clientFd rfd) ++ rest) tr)
  = match o with
    | Val (Continue st') => main_loop L fuel st' w'
    | Val Break => (Val tt, w')
    | Exc RuntimeError => (Val tt, w')
    | Exc OtherException => (Exc OtherException, w')
    | Stuck => (Stuck, w')
    end.
Proof.
  intros H. rewrite main_loop_pass. unfold bind, catch_runtime_error. rewrite H.
  destruct o as [[st'|]|[|]|]; reflexivity.
Qed.

End LoopExits.



(** ** A pass without a descriptor, and the pass after it *)

Lemma raised_by_prefix (k : Call -> bool) {A} (o : outcome A) e1 e2 :
  raised_by k o e2 -> raised_by k o (e1 ++ e2).
Proof.
  intros H e Ho. destruct (H e Ho) as (evs0 & c & -> & Hk).
  exists (e1 ++ evs0), c. now rewrite app_assoc.
Qed.

Lemma post_raised_ret (k : Call -> bool) {A} (a : A) : post (raised_by k) (ret a).
Proof. apply post_ret. intros e. discriminate. Qed.

Lemma post_raised_bind (k : Call -> bool) {A B} (m : M A) (f : A -> M B) :
  post (raised_by k) m -> (forall a, post (raised_by k) (f a)) ->
  post (raised_by k) (bind m f).
Proof.
  intros Hm Hf. eapply post_bind; [exact Hm | | |].
  - intros a e1 _. eapply post_weaken; [|apply Hf].
    intros o e2. apply raised_by_prefix.
  - intros e e1 H1 e' [= <-]. now apply H1.
  - intros e1 _ e. discriminate.
Qed.

Lemma post_raised_ask (k : Call -> bool) {A} c (dec : Resp -> option (exn + A)) :
  honest dec ->
  (forall r e, dec r = Some (inl e) -> k c = true) ->
  post (raised_by k) (ask c dec).
Proof.
  intros Hd Hk w. unfold ask.
  destruct (script w) as [|r rest] eqn:Hs; cbn.
  { exists []. rewrite app_nil_r, Hs.
    split; [reflexivity | split; [reflexivity | intros e; discriminate]]. }
  pose proof (Hd r) as Hh. pose proof (Hk r) as Hkr.
  destruct (dec r) as [[e|a]|]; cbn.
  - subst r. exists [(c, RThrow e)]. split; [reflexivity | split; [reflexivity|]].
    intros e' [= <-]. exists [], c. split; [reflexivity | now apply (Hkr e)].
  - exists [(c, r)]. split; [reflexivity | split; [reflexivity|]].
    intros e. discriminate.
  - exists []. rewrite app_nil_r, Hs.
    split; [reflexivity | split; [reflexivity | intros e; discriminate]].
Qed.

Ltac post_raised_step :=
  lazymatch goal with
  | |- post _ (ret _) => apply post_raised_ret
  | |- post _ (ask _ _) =>
      apply post_raised_ask;
      [ auto with honest
      | first [ reflexivity | intros [] ? ?; discriminate ] ]
  | |- post _ (bind _ _) => apply post_raised_bind; [ | intros ? ]
  | |- post _ (if ?b then _ else _) => destruct b
  | |- post _ (match ?x with _ => _ end) => destruct x
  end.
Ltac post_raised := repeat post_raised_step.

Section OfflineAndAfter.
Context {codec : Codec}.
Variable L : Locals.

Lemma post_raised_input_step rfd st :
  post (raised_by is_write_packet) (input_step L rfd st).
Proof.
  unfold input_step, sys_read, writePacket, time. post_raised.
Qed.

Lemma post_raised_geometry_step st :
  post (raised_by is_write_packet) (geometry_step L st).
Proof.
  unfold geometry_step, read_winsize, writePacket. post_raised.
Qed.

(** Without a descriptor the body of a pass decodes nothing, so an
    exception can only come from a [writePacket] that throws. *)
Lemma post_raised_tick_at_offline clientFd st :
  clientFd <= 0 ->
  post (raised_by is_write_packet) (tick_at L clientFd st).
Proof.
  intros Hfd. unfold tick_at, select.
  apply post_raised_bind; [post_raised|]. intros rfd.
  eapply post_catch_runtime_error with (P1 := raised_by is_write_packet).
  - unfold tick_body.
    apply post_raised_bind; [apply post_raised_input_step|].
    intros [st1|]; [|apply post_raised_ret].
    unfold after_input.
    rewrite drain_step_off by assumption.
    apply post_raised_bind; [apply post_raised_ret|]. intros st2.
    rewrite keepalive_step_off by assumption.
    apply post_raised_bind; [apply post_raised_ret|]. intros st3. cbv zeta.
    apply post_raised_bind; [apply post_raised_geometry_step|]. intros st4.
    apply post_raised_ret.
  - intros a e1 _ e. discriminate.
  - intros e1 _. apply post_ret. intros e. discriminate.
  - auto.
  - intros e1 _ e. discriminate.
Qed.

Lemma tick_offline_facts st clientFd rest tr :
  clientFd < 0 ->
  exists evs,
    trace (snd (tick L st (mkWorld (RInt clientFd :: rest) tr)))
    = tr ++ (CGetSocketFd, RInt clientFd) :: evs
    /\ only (fun c => select_calls c || offline_calls L c) evs
    /\ count_calls transport_work evs = 0%nat
    /\ (forall st',
          fst (tick L st (mkWorld (RInt clientFd :: rest) tr)) = Val (Continue st') ->
          waitingOnKeepalive st' = false)
    /\ raised_by is_write_packet
         (fst (tick L st (mkWorld (RInt clientFd :: rest) tr))) evs.
Proof.
  intros Hfd.
  destruct (post_run _ _ (mkWorld rest (tr ++ [(CGetSocketFd, RInt clientFd)]))
              (post_conj _ _ _
                 (post_of_sat _ _ _ (sat_tick_at_offline L clientFd st ltac:(lia)))
                 (post_raised_tick_at_offline clientFd st ltac:(lia))))
    as (evs & T & [Ho HQ] & Hr).
  assert (E : tick L st (mkWorld (RInt clientFd :: rest) tr)
              = tick_at L clientFd st
                  (mkWorld rest (tr ++ [(CGetSocketFd, RInt clientFd)]))).
  { unfold tick, getSocketFd. now rewrite (bind_ask _ _ _ _ clientFd). }
  rewrite E. exists evs. cbn [trace] in T.
  split; [rewrite T, <- app_assoc; reflexivity|].
  split; [exact Ho|].
  split; [eapply only_count_zero; [|exact Ho]; apply offline_calls_no_transport_work|].
  split; [|exact Hr].
  intros st' Hres. rewrite (HQ _ Hres st' eq_refl).
  unfold invalid_fd_step.
  replace (clientFd <? 0) with true by (symmetry; apply Z.ltb_lt; lia).
  reflexivity.
Qed.

Lemma geometry_step_same p obs st rest tr :
  ws L = Some p -> lastTerminalInfo st = TerminalInfo_of obs ->
  geometry_step L st (mkWorld (RWinsize obs :: rest) tr)
  = (Val st, after [ (CWinsize p, RWinsize obs) ] rest tr).
Proof.
  intros Hws Hsame. unfold geometry_step. rewrite Hws. run.
  rewrite Hsame, geometry_differs_same. run. reflexivity.
Qed.

Lemma geometry_step_changed p obs st rest tr :
  ws L = Some p -> TerminalInfo_of obs <> lastTerminalInfo st ->
  geometry_step L st (mkWorld (RWinsize obs :: RUnit :: rest) tr)
  = (Val (set_lastTerminalInfo st (TerminalInfo_of obs)),
     after [ (CWinsize p, RWinsize obs);
             (CWritePacket (report_packet (TerminalInfo_of obs)), RUnit) ] rest tr).
Proof.
  intros Hws Hdiff. unfold geometry_step. rewrite Hws. run.
  rewrite (proj2 (geometry_differs_true _ _) Hdiff). run. reflexivity.
Qed.

Lemma after_input_offline clientFd rfd st w :
  clientFd <= 0 ->
  after_input L clientFd rfd st w
  = (st' <- geometry_step L (invalid_fd_step clientFd st) ;; ret (Continue st')) w.
Proof.
  intros Hfd. unfold after_input, drain_step, keepalive_step. ztests. reflexivity.
Qed.

(** Input that is ready is forwarded whatever the descriptor. *)
Lemma tick_offline_forwards p obs st clientFd rfd rc buf now rest tr :
  clientFd < 0 -> ws L = Some p ->
  lastTerminalInfo st = TerminalInfo_of obs ->
  FD_ISSET (inFd L) rfd = true -> 0 < rc ->
  tick L st
    (mkWorld (RInt clientFd :: RReady rfd :: RData rc buf :: RUnit :: RInt now
              :: RWinsize obs :: rest) tr)
  = (Val (Continue (mkLoopState (now + keepalive_secs L) false (lastTerminalInfo st))),
     after [ (CGetSocketFd, RInt clientFd);
             (CSelect (inFd L + 1) [inFd L] 0 10000, RReady rfd);
             (CSysRead (inFd L) ET_BUF_SIZE, RData rc buf);
             (CWritePacket
                (mkPacket TERMINAL_BUFFER
                   (protoToString_TerminalBuffer
                      {| buffer := firstn (Z.to_nat rc) buf |})), RUnit);
             (CTime, RInt now);
             (CWinsize p, RWinsize obs) ] rest tr).
Proof.
  intros Hfd Hws Hgeo Hready Hrc.
  unfold tick, getSocketFd. rewrite (bind_ask _ _ _ _ clientFd) by reflexivity.
  unfold tick_at, select. rewrite maxfd_off, watched_off by lia.
  rewrite (bind_ask _ _ _ _ rfd) by reflexivity.
  unfold catch_runtime_error. rewrite tick_body_reads by assumption.
  replace (rc <=? 0) with false by (symmetry; apply Z.leb_gt; lia).
  unfold writePacket. unfold after at 1.
  rewrite (bind_ask _ _ _ _ tt) by reflexivity.
  unfold time. rewrite (bind_ask _ _ _ _ now) by reflexivity.
  rewrite after_input_offline by lia.
  erewrite bind_run
    by (apply (geometry_step_same p obs);
        [assumption | unfold invalid_fd_step; destruct (clientFd <? 0); exact Hgeo]).
  unfold ret, after, invalid_fd_step.
  replace (clientFd <? 0) with true by (symmetry; apply Z.ltb_lt; lia).
  cbn. rewrite <- !app_assoc. reflexivity.
Qed.

(** A change of the geometry is reported whatever the descriptor. *)
Lemma tick_offline_reports p obs st clientFd rfd rest tr :
  clientFd < 0 -> ws L = Some p ->
  TerminalInfo_of obs <> lastTerminalInfo st ->
  FD_ISSET (inFd L) rfd = false ->
  tick L st
    (mkWorld (RInt clientFd :: RReady rfd :: RWinsize obs :: RUnit :: rest) tr)
  = (Val (Continue (mkLoopState (keepaliveTime st) false (TerminalInfo_of obs))),
     after [ (CGetSocketFd, RInt clientFd);
             (CSelect (inFd L + 1) [inFd L] 0 10000, RReady rfd);
             (CWinsize p, RWinsize obs);
             (CWritePacket (report_packet (TerminalInfo_of obs)), RUnit) ] rest tr).
Proof.
  intros Hfd Hws Hdiff Hnone.
  unfold tick, getSocketFd. rewrite (bind_ask _ _ _ _ clientFd) by reflexivity.
  unfold tick_at, select. rewrite maxfd_off, watched_off by lia.
  rewrite (bind_ask _ _ _ _ rfd) by reflexivity.
  unfold catch_runtime_error, tick_body, input_step. rewrite Hnone.
  unfold bind at 1, ret at 1.
  rewrite after_input_offline by lia.
  erewrite bind_run
    by (apply (geometry_step_changed p obs);
        [assumption
        | unfold invalid_fd_step; destruct (clientFd <? 0); exact Hdiff]).
  unfold ret, after, invalid_fd_step, set_lastTerminalInfo, set_waitingOnKeepalive.
  replace (clientFd <? 0) with true by (symmetry; apply Z.ltb_lt; lia).
  cbn. rewrite <- !app_assoc. reflexivity.
Qed.

(** The pass after: a positive descriptor is watched again; what is inbound
    is drained and dispatched, and then the clock is looked at. *)
Lemma main_loop_resumed_pass p obs st clientFd rfd items tail st' fuel rest tr :
  ws L = Some p -> lastTerminalInfo st = TerminalInfo_of obs ->
  0 < clientFd -> FD_ISSET clientFd rfd = true ->
  FD_ISSET (inFd L) rfd = false ->
  Forall inbound_ok items ->
  (forall rest' tr',
      keepalive_step L clientFd (fold_left (inbound_effect L) items st)
        (mkWorld (map snd tail ++ rest') tr')
      = (Val st', after tail rest' tr')) ->
  lastTerminalInfo st' = lastTerminalInfo st ->
  let evs :=
    pass_start L clientFd rfd ++ batch_events L items ++ tail
    ++ [ (CWinsize p, RWinsize obs) ] in
  main_loop L (S fuel) st (mkWorld (map snd evs ++ rest) tr)
  = main_loop L fuel st' (after evs rest tr).
Proof.
  intros Hws Hgeo Hfd Hready Hnone Hok Hkeep Hlast evs. subst evs.
  rewrite map_app, <- app_assoc, main_loop_pass.
  unfold bind at 1, catch_runtime_error, tick_body, input_step. rewrite Hnone.
  unfold bind at 1, ret at 1. cbv beta iota.
  unfold after at 1. rewrite map_app, <- app_assoc.
  rewrite after_input_batch by assumption.
  unfold after at 1. rewrite map_app, <- app_assoc.
  erewrite bind_run by apply Hkeep.
  unfold after at 1. cbn [map snd app].
  erewrite bind_run
    by (apply (geometry_step_same p obs); [assumption | now rewrite Hlast]).
  unfold ret, after. cbn. rewrite <- !app_assoc. reflexivity.
Qed.

End OfflineAndAfter.

(** C8, as the code has it.  On a pass that finds the descriptor negative,
    [select] watches the input descriptor alone.  Whatever the pass is
    answered, it asks for no inbound packet, sends no keepalive probe and
    requests no reconnect; the calls it can make are [select], the [::read]
    of the input and what follows it, and the look at the geometry; if it
    goes on to the next pass, no probe is outstanding; and it ends in an
    exception only when a [writePacket] it calls throws.  The pass still
    sends: input that is ready is forwarded as a terminal-data packet and
    moves the deadline, and a change of the geometry is reported, since
    neither is guarded by the descriptor.  On the pass after, with a positive
    descriptor ready, the descriptor is watched again and what is inbound is
    drained and dispatched: terminal data goes to the output in the order of
    arrival and moves the deadline, a keepalive clears the flag.  Then the
    clock is looked at: while it has not passed the deadline nothing is
    sent; once it has, a probe is sent and no reconnect requested, for the
    pass without a descriptor left no probe outstanding. *)
Theorem C8_invalid_descriptor_tolerance :
  forall {codec : Codec} (L : Locals) (st : LoopState) (clientFd : Z),
    clientFd < 0 ->
    watched L clientFd = [inFd L]
    /\ (forall rest tr,
        let r := tick L st (mkWorld (RInt clientFd :: rest) tr) in
        exists evs,
          trace (snd r) = tr ++ (CGetSocketFd, RInt clientFd) :: evs
          /\ only (fun c => select_calls c || offline_calls L c) evs
          /\ count_calls transport_work evs = 0%nat
          /\ (forall st', fst r = Val (Continue st') ->
                waitingOnKeepalive st' = false)
          /\ raised_by is_write_packet (fst r) evs)
    /\ (forall p obs rfd rc buf now rest tr,
        ws L = Some p ->
        lastTerminalInfo st = TerminalInfo_of obs ->
        FD_ISSET (inFd L) rfd = true -> 0 < rc ->
        tick L st
          (mkWorld (RInt clientFd :: RReady rfd :: RData rc buf :: RUnit :: RInt now
                    :: RWinsize obs :: rest) tr)
        = (Val (Continue (mkLoopState (now + keepalive_secs L) false
                            (lastTerminalInfo st))),
           after [ (CGetSocketFd, RInt clientFd);
                   (CSelect (inFd L + 1) [inFd L] 0 10000, RReady rfd);
                   (CSysRead (inFd L) ET_BUF_SIZE, RData rc buf);
                   (CWritePacket
                      (mkPacket TERMINAL_BUFFER
                         (protoToString_TerminalBuffer
                            {| buffer := firstn (Z.to_nat rc) buf |})), RUnit);
                   (CTime, RInt now);
                   (CWinsize p, RWinsize obs) ] rest tr))
    /\ (forall p obs rfd rest tr,
        ws L = Some p ->
        TerminalInfo_of obs <> lastTerminalInfo st ->
        FD_ISSET (inFd L) rfd = false ->
        tick L st
          (mkWorld (RInt clientFd :: RReady rfd :: RWinsize obs :: RUnit :: rest) tr)
        = (Val (Continue (mkLoopState (keepaliveTime st) false (TerminalInfo_of obs))),
           after [ (CGetSocketFd, RInt clientFd);
                   (CSelect (inFd L + 1) [inFd L] 0 10000, RReady rfd);
                   (CWinsize p, RWinsize obs);
                   (CWritePacket (report_packet (TerminalInfo_of obs)), RUnit) ]
             rest tr))
    /\ (forall p obs clientFd' rfd items now fuel rest tr,
        ws L = Some p ->
        lastTerminalInfo st = TerminalInfo_of obs ->
        0 < clientFd' -> FD_ISSET clientFd' rfd = true ->
        FD_ISSET (inFd L) rfd = false ->
        Forall inbound_ok items ->
        let st1 :=
          fold_left (inbound_effect L) items (set_waitingOnKeepalive st false) in
        watched L clientFd' = [inFd L; clientFd']
        /\ (now <= keepaliveTime st1 ->
            let evs :=
              offline_pass L clientFd p obs
              ++ pass_start L clientFd' rfd ++ batch_events L items
              ++ [ (CTime, RInt now) ] ++ [ (CWinsize p, RWinsize obs) ] in
            main_loop L (S (S fuel)) st (mkWorld (map snd evs ++ rest) tr)
            = main_loop L fuel st1 (after evs rest tr)
            /\ local_output (outFd L) evs = flat_map inbound_output items)
        /\ (forall now',
            keepaliveTime st1 < now ->
            let evs :=
              offline_pass L clientFd p obs
              ++ pass_start L clientFd' rfd ++ batch_events L items
              ++ [ (CTime, RInt now); (CTime, RInt now');
                   (CWritePacket (mkPacket KEEP_ALIVE []), RUnit) ]
              ++ [ (CWinsize p, RWinsize obs) ] in
            main_loop L (S (S fuel)) st (mkWorld (map snd evs ++ rest) tr)
            = main_loop L fuel
                (mkLoopState (now' + keepalive_secs L) true (lastTerminalInfo st))
                (after evs rest tr)
            /\ count_calls is_reconnect evs = 0%nat)).
Proof.
  intros codec L st clientFd Hfd. split; [|split; [|split; [|split]]].
  - apply watched_off. lia.
  - intros rest tr r. subst r. now apply tick_offline_facts.
  - intros p obs rfd rc buf now rest tr Hws Hgeo Hready Hrc.
    now apply (tick_offline_forwards L p obs).
  - intros p obs rfd rest tr Hws Hdiff Hnone.
    now apply (tick_offline_reports L p obs).
  - intros p obs clientFd' rfd items now fuel rest tr Hws Hgeo Hfd' Hready Hnone Hok st1.
    assert (Hlast1 : lastTerminalInfo st1 = lastTerminalInfo st)
      by (unfold st1; now rewrite batch_lastTerminalInfo).
    assert (Hidle : waitingOnKeepalive st1 = false)
      by (unfold st1; now rewrite batch_waitingOnKeepalive).
    split; [unfold watched; now ztests|]. split.
    + intros Hearly evs. subst evs. split.
      * rewrite map_app, <- app_assoc.
        rewrite (main_loop_offline_pass L p obs) by assumption.
        unfold after at 1.
        rewrite (main_loop_resumed_pass L p obs (set_waitingOnKeepalive st false)
                   clientFd' rfd items [ (CTime, RInt now) ] st1);
          try assumption.
        -- unfold after. now rewrite <- !app_assoc.
        -- intros rest' tr'. now apply keepalive_step_early.
      * rewrite !local_output_app, local_output_batch by assumption.
        unfold offline_pass, pass_head, pass_start. cbn [local_output flat_map app].
        now rewrite app_nil_r.
    + intros now' Hlate evs. subst evs. split.
      * rewrite map_app, <- app_assoc.
        rewrite (main_loop_offline_pass L p obs) by assumption.
        unfold after at 1.
        rewrite (main_loop_resumed_pass L p obs (set_waitingOnKeepalive st false)
                   clientFd' rfd items
                   [ (CTime, RInt now); (CTime, RInt now');
                     (CWritePacket (mkPacket KEEP_ALIVE []), RUnit) ]
                   (mkLoopState (now' + keepalive_secs L) true (lastTerminalInfo st1)));
          try assumption.
        -- unfold after. now rewrite Hlast1, <- !app_assoc.
        -- intros rest' tr'. now apply keepalive_step_probe.
      * rewrite !count_calls_app.
        rewrite (only_count_zero (drain_calls L) is_reconnect (batch_events L items));
          [reflexivity | | apply only_batch_events].
        intros c. destruct c; cbn; congruence.
Qed.

(** On the sample locals: the descriptor is -1 on one pass and 9 on the
    next, where the sample batch is inbound and the clock reads 44, before
    the deadline 46 that the last terminal-data packet set. *)
Lemma C8_invalid_descriptor_tolerance_witness :
  let obs := mkWinsize 24 80 0 0 in
  let st := mkLoopState 100 true (TerminalInfo_of obs) in
  let evs :=
    offline_pass sample_locals (-1) sample_ws obs
    ++ pass_start sample_locals 9 [9] ++ batch_events sample_locals sample_batch
    ++ [ (CTime, RInt 44) ] ++ [ (CWinsize sample_ws, RWinsize obs) ] in
  @main_loop sample_codec sample_locals 2 st (mkWorld (map snd evs ++ [RBool true]) [])
  = @main_loop sample_codec sample_locals 0
      (mkLoopState 46 false (TerminalInfo_of obs)) (after evs [RBool true] [])
  /\ local_output (outFd sample_locals) evs = [x68; x69; x21; x0a; x3e].
Proof.
  intros obs st evs.
  apply (proj1 (proj2
           (proj2 (proj2 (proj2 (proj2
              (@C8_invalid_descriptor_tolerance sample_codec sample_locals st (-1)
                 ltac:(lia)))))
              sample_ws obs 9 [9] sample_batch 44 0%nat [RBool true] []
              eq_refl eq_refl ltac:(lia) eq_refl eq_refl
              ltac:(unfold sample_batch;
                    repeat apply Forall_cons; try apply Forall_nil; cbn;
                    repeat split; try lia; discriminate)))).
  cbn. lia.
Defined.

(** C8 as stated fails on the sample pass that finds the descriptor -1, two
    bytes of input ready and the geometry 24x80 not yet reported: no packet
    is asked for, no probe sent and no reconnect requested, yet two packets
    are sent to the transport, the input and the geometry. *)
Lemma C8_counterexample :
  let st := mkLoopState 100 true TerminalInfo_default in
  let r := @tick sample_codec sample_locals st (mkWorld sample_offline_script []) in
  fst r = Val (Continue (mkLoopState 55 false (TerminalInfo_of (mkWinsize 24 80 0 0))))
  /\ script (snd r) = []
  /\ count_calls transport_work (trace (snd r)) = 0%nat
  /\ filter is_write_packet (map fst (trace (snd r)))
     = [ CWritePacket (mkPacket TERMINAL_BUFFER [x68; x69]);
         CWritePacket (mkPacket TERMINAL_INFO (map byte_of_Z [24; 80; 0; 0])) ].
Proof.
  vm_compute. repeat split.
Qed.
